(** * Email responder plugin: state store, filter pipeline, reply composer

    A shallow embedding of the TypeScript sources

      - [src/state.ts]   (processed ids, sliding-window rate limit),
      - [src/imap.ts]    (fetching, normalisation helpers, sender filters),
      - [src/smtp.ts]    (reply subject, thread info, sending),
      - [src/monitor.ts] ([processEmail], connecting and polling),
      - [src/accounts.ts], [src/channel.ts] (account ids, outbound targets),

    together with the properties the specification states about them.

    Conventions of the embedding.

      - JavaScript strings are modelled as [string], i.e. sequences of
        8-bit characters; case mapping and white space are the ASCII ones.
        On ASCII text this agrees with [String.prototype.toLowerCase],
        [String.prototype.trim] and the regular-expression classes the
        sources use (none of the regular expressions carries the [u] flag,
        so [/i] only folds ASCII letters onto ASCII letters).
      - JavaScript numbers holding epoch milliseconds, counts and uids are
        modelled as [Z].
      - A [Record<string, T>] is a [gmap string T], which holds the
        entries of its own. [state.rateLimits] is indexed by sender
        addresses taken from the mail, so for it the properties that a
        plain object inherits from [Object.prototype] are modelled as
        well ([readsInherited]).
      - The mailbox lists the messages of the folder in sequence order,
        the first having sequence number 1; each carries its uid.
      - Module-level mutable variables, the state file, the mailbox, the
        clock and the outgoing transport live in one [World] record that is
        threaded through an exception/state monad. One message is
        processed at a time, so nothing else touches the world between
        two steps of [processEmail].
      - Logging ([console.log], [log?.debug], ...) is left out, and
        [ensureStateDir] is taken to succeed; a failing disk shows at
        [writeFileSync], a failing connection at every IMAP command. *)

From Stdlib Require Import ZArith Lia Ascii String.
From stdpp Require Import base tactics option list gmap strings pretty.

Local Open Scope Z_scope.

(** ** JavaScript string primitives (ASCII fragment) *)

Module Js.

(** [c.toLowerCase()] for one ASCII character. *)
Definition lowerChar (c : ascii) : ascii :=
  let n := N_of_ascii c in
  if ((65 <=? n) && (n <=? 90))%N then ascii_of_N (n + 32) else c.

(** [s.toLowerCase()]. *)
Fixpoint toLowerCase (s : string) : string :=
  match s with
  | EmptyString => EmptyString
  | String c r => String (lowerChar c) (toLowerCase r)
  end.

(** [s.startsWith(p)]. *)
Fixpoint startsWith (s p : string) {struct p} : bool :=
  match p, s with
  | EmptyString, _ => true
  | String _ _, EmptyString => false
  | String a p', String b s' => bool_decide (a = b) && startsWith s' p'
  end.

(** [s.includes(p)] (substring search). *)
Fixpoint includes (s p : string) : bool :=
  startsWith s p ||
  match s with
  | EmptyString => false
  | String _ s' => includes s' p
  end.

(** White space as matched by [\s] and removed by [trim]. *)
Definition isSpace (c : ascii) : bool := Ascii.is_space c.

(** Line terminators, which [.] does not match. *)
Definition isLineTerminator (c : ascii) : bool :=
  match c with
  | "010" | "013" => true
  | _ => false
  end%char.

Fixpoint trimStart (s : string) : string :=
  match s with
  | EmptyString => EmptyString
  | String c r => if isSpace c then trimStart r else s
  end.

(** Drops trailing white space: a character is kept when it is not a
    space or something non-blank follows it. *)
Fixpoint trimEnd (s : string) : string :=
  match s with
  | EmptyString => EmptyString
  | String c r =>
      match trimEnd r with
      | EmptyString => if isSpace c then EmptyString else String c EmptyString
      | r' => String c r'
      end
  end.

(** [s.trim()]. *)
Definition trim (s : string) : string := trimEnd (trimStart s).

(** [s.split(sep)] for a one-character separator: never empty. *)
Fixpoint split (sep : ascii) (s : string) : list string :=
  match s with
  | EmptyString => [EmptyString]
  | String c r =>
      if bool_decide (c = sep) then EmptyString :: split sep r
      else match split sep r with
           | [] => [String c EmptyString]
           | l :: ls => String c l :: ls
           end
  end.

(** [xs.join(sep)]. *)
Fixpoint join (sep : string) (xs : list string) : string :=
  match xs with
  | [] => EmptyString
  | [x] => x
  | x :: rest => x +:+ sep +:+ join sep rest
  end.

(** Truthiness of a string value: every string but the empty one. *)
Definition truthy (s : string) : bool := negb (bool_decide (s = EmptyString)).

(** [xs.includes(x)] on an array of strings. *)
Definition arrayIncludes (xs : list string) (x : string) : bool :=
  bool_decide (x ∈ xs).

(** [xs.slice(start)]: a negative [start] counts from the end, and the
    resulting index is clamped to the array. *)
Definition sliceFrom {A} (start : Z) (xs : list A) : list A :=
  let len := Z.of_nat (length xs) in
  let k := if start <? 0 then Z.max (len + start) 0 else Z.min start len in
  drop (Z.to_nat k) xs.

End Js.

(** ** Reply composer ([src/smtp.ts]) *)

(** [EmailThreadInfo]. *)
Record EmailThreadInfo := {
  ti_messageId : string;
  ti_inReplyTo : string;
  ti_references : list string;
}.

(** [buildReplySubject(originalSubject, prefix = "Re: ")]. *)
Definition buildReplySubject (originalSubject : string) (prefix : string) : string :=
  if Js.startsWith (Js.toLowerCase originalSubject) (Js.toLowerCase prefix)
  then originalSubject
  else prefix +:+ originalSubject.

(** The default value of the [prefix] parameter. *)
Definition defaultReplyPrefix : string := "Re: ".

(** The freshly minted outgoing id
    [`<${Date.now()}-${Math.random().toString(36).slice(2)}@clawdbot>`];
    [now] is the clock reading and [rnd] the base-36 digits drawn. *)
Definition mintMessageId (now : Z) (rnd : string) : string :=
  "<" +:+ pretty now +:+ "-" +:+ rnd +:+ "@clawdbot>".

(** [buildThreadInfo(originalMessageId, originalReferences?)]; an absent
    [originalReferences] is [None]. *)
Definition buildThreadInfo (now : Z) (rnd : string)
    (originalMessageId : string) (originalReferences : option (list string))
  : EmailThreadInfo :=
  let references := default [] originalReferences in
  let references :=
    if Js.truthy originalMessageId
       && negb (Js.arrayIncludes references originalMessageId)
    then references ++ [originalMessageId]
    else references in
  {| ti_messageId := mintMessageId now rnd;
     ti_inReplyTo := originalMessageId;
     ti_references := references |}.

(** ** Normalised messages and sender filters ([src/imap.ts], [src/types.ts]) *)

(** [ParsedEmail]; [date] is kept as epoch milliseconds. *)
Record ParsedEmail := {
  messageId : string;
  from : string;
  fromName : option string;
  to : list string;
  cc : list string;
  subject : string;
  textBody : string;
  htmlBody : option string;
  date : Z;
  inReplyTo : option string;
  references : option (list string);
  headers : gmap string string;
  uid : Z;
}.

(** The local [autoReplyHeaders] array of [isAutoReply]. *)
Definition autoReplyHeaders : list string :=
  ["x-auto-reply"; "x-autoreply"; "auto-submitted"; "x-autorespond"; "precedence"].

(** The body of the [for (const header of autoReplyHeaders)] loop of
    [isAutoReply], with its four [return true] statements kept apart. *)
Fixpoint isAutoReplyLoop (hdrs : gmap string string) (pending : list string) : bool :=
  match pending with
  | [] => false
  | header :: rest =>
      match hdrs !! header with
      | Some value =>
          if Js.truthy value then
            if bool_decide (header = "auto-submitted")
               && negb (bool_decide (value = "no")) then true
            else if bool_decide (header = "precedence")
               && Js.arrayIncludes ["bulk"; "junk"; "list"] (Js.toLowerCase value)
            then true
            else if Js.includes (Js.toLowerCase value) "auto" then true
            else true
          else isAutoReplyLoop hdrs rest
      | None => isAutoReplyLoop hdrs rest
      end
  end.

(** [isAutoReply(email)]. *)
Definition isAutoReply (email : ParsedEmail) : bool :=
  isAutoReplyLoop (headers email) autoReplyHeaders.

(** [isIgnoredSender(email)]: the eight anchored, case-insensitive
    patterns; [/^notifications?@/i] is spelled out as its two readings. *)
Definition isIgnoredSender (email : string) : bool :=
  let e := Js.toLowerCase email in
  existsb (fun p => Js.startsWith e p)
    ["noreply@"; "no-reply@"; "mailer-daemon@"; "postmaster@"; "bounce";
     "notification@"; "notifications@"; "donotreply@"; "do-not-reply@"].

(** *** Quote stripping *)

Fixpoint countLeading (c : ascii) (s : string) : nat :=
  match s with
  | String d r => if bool_decide (d = c) then S (countLeading c r) else O
  | EmptyString => O
  end.

Fixpoint dropLeading (f : ascii → bool) (s : string) : string :=
  match s with
  | String d r => if f d then dropLeading f r else s
  | EmptyString => EmptyString
  end.

Fixpoint allChars (f : ascii → bool) (s : string) : bool :=
  match s with
  | String d r => f d && allChars f r
  | EmptyString => true
  end.

(** [/^On .+ wrote:$/i.test(t)]: the literal head and tail have fixed
    lengths, so the text matched by [.+] is determined; it must be
    non-empty and free of line terminators. *)
Definition matchesOnWrote (t : string) : bool :=
  let n := String.length t in
  (11 <=? n)%nat
  && bool_decide (Js.toLowerCase (substring 0 3 t) = "on ")
  && bool_decide (Js.toLowerCase (substring (n - 7) 7 t) = " wrote:")
  && allChars (fun c => negb (Js.isLineTerminator c)) (substring 3 (n - 10) t).

(** [/^-{2,}\s*Original Message/i.test(t)]: both quantifiers are greedy
    and what follows each of them cannot match a character they accept. *)
Definition matchesOriginalMessage (t : string) : bool :=
  let hyphens := countLeading "-"%char t in
  (2 <=? hyphens)%nat
  && Js.startsWith
       (Js.toLowerCase
          (Js.trimStart (dropLeading (fun c => bool_decide (c = "-"%char)) t)))
       "original message".

(** [/^>+/.test(t)]. *)
Definition matchesQuotePrefix (t : string) : bool := Js.startsWith t ">".

(** [/^--\s*$/.test(line)]: exactly two hyphens, then only white space. *)
Definition matchesSignature (line : string) : bool :=
  match line with
  | String "-" (String "-" r) => allChars Js.isSpace r
  | _ => false
  end.

(** The [for (const line of lines)] loop of [stripQuotedContent]:
    [inQuotedBlock] and [result] are the two local variables, [continue]
    moves on to the next line and [break] returns what was collected. *)
Fixpoint stripLoop (lines : list string) (inQuotedBlock : bool)
    (result : list string) : list string :=
  match lines with
  | [] => result
  | line :: rest =>
      if matchesOnWrote (Js.trim line) then stripLoop rest true result
      else if matchesOriginalMessage (Js.trim line) then stripLoop rest true result
      else if matchesQuotePrefix (Js.trim line) then stripLoop rest inQuotedBlock result
      else if matchesSignature line then result
      else if negb inQuotedBlock then stripLoop rest inQuotedBlock (result ++ [line])
      else stripLoop rest inQuotedBlock result
  end.

Definition newline : ascii := "010"%char.

(** [stripQuotedContent(text)]. *)
Definition stripQuotedContent (text : string) : string :=
  let lines := Js.split newline text in
  Js.trim (Js.join (String newline EmptyString) (stripLoop lines false [])).


(** ** The world the plugin runs in *)

(** [ProcessedMessageStore]. *)
Record ProcessedMessageStore := {
  processedIds : list string;
  rateLimits : gmap string (list Z);
  lastPollTime : option Z;
}.

(** What [STATE_FILE] holds: nothing, something [readFileSync] or
    [JSON.parse] fails on, or the JSON image of a store. *)
Inductive StateFile :=
  | FileAbsent
  | FileUnreadable
  | FileStore (s : ProcessedMessageStore).

(** A value caught by [catch (err)]: an [Error] with its [message], or
    any other value with its [String(err)] image. *)
Inductive Thrown :=
  | ThrownError (message : string)
  | ThrownValue (image : string).

(** One message of the watched folder. *)
Record MailboxEntry := {
  entryUid : Z;
  entrySeen : bool;
  entrySource : string;
}.

(** Commands issued on the IMAP connection, in order. *)
Inductive ImapEvent :=
  | LockAcquired (folder : string)
  | LockReleased (folder : string)
  | Searched
  | Fetched (range : list Z)
  | FlagsAdded (uid : Z).

(** [SmtpOptions]. *)
Record SmtpOptions := {
  so_host : string;
  so_port : Z;
  so_user : string;
  so_password : string;
  so_tls : bool;
  so_startTls : bool;
}.

(** [nodemailer.SendMailOptions] as filled in by [sendEmail]. *)
Record MessageOptions := {
  mo_from : string;
  mo_to : string;
  mo_subject : string;
  mo_text : string;
  mo_html : option string;
  mo_headers : option (gmap string string);
}.

(** How [transporter.sendMail] settles. *)
Inductive SendMailOutcome :=
  | Delivered (infoMessageId : string)
  | Rejected (err : Thrown).

(** The fields of [InboundEmailContext] other than the [reply] closure. *)
Record InboundEmail := {
  ctx_accountId : string;
  ctx_from : string;
  ctx_fromName : option string;
  ctx_to : string;
  ctx_subject : string;
  ctx_body : string;
  ctx_messageId : string;
  ctx_inReplyTo : option string;
  ctx_date : Z;
}.

(** Everything [processEmail] and its callees read or write.

    - [stateCache] is the module variable of [state.ts]; [stateFile] the
      file behind it; [diskWritable] tells whether [writeFileSync]
      succeeds and [diskWrites] counts the successful writes.
    - [clock] lists the successive values of [Date.now()], [entropy]
      those of [Math.random().toString(36).slice(2)].
    - [mailbox] is the watched folder in sequence order; [imapUp] tells
      whether IMAP commands succeed; [imapLog] records them.
    - [transporterCache] is the module variable of [smtp.ts];
      [smtpServer] decides each submission, [outbox] records them.
    - [responderCalls] records the contexts handed to the responder. *)
Record World := {
  stateCache : option ProcessedMessageStore;
  stateFile : StateFile;
  diskWritable : bool;
  diskWrites : nat;
  clock : nat → Z;
  clockReads : nat;
  entropy : nat → string;
  entropyReads : nat;
  mailbox : list MailboxEntry;
  imapUp : bool;
  imapLog : list ImapEvent;
  transporterCache : gmap string SmtpOptions;
  smtpServer : nat → SmtpOptions → MessageOptions → SendMailOutcome;
  outbox : list (SmtpOptions * MessageOptions);
  responderCalls : list InboundEmail;
}.

Definition withStateCache (c : option ProcessedMessageStore) (w : World) : World :=
  {| stateCache := c; stateFile := stateFile w; diskWritable := diskWritable w;
     diskWrites := diskWrites w; clock := clock w; clockReads := clockReads w;
     entropy := entropy w; entropyReads := entropyReads w; mailbox := mailbox w;
     imapUp := imapUp w; imapLog := imapLog w;
     transporterCache := transporterCache w; smtpServer := smtpServer w;
     outbox := outbox w; responderCalls := responderCalls w |}.

Definition withStateFileWritten (s : ProcessedMessageStore) (w : World) : World :=
  {| stateCache := stateCache w; stateFile := FileStore s;
     diskWritable := diskWritable w; diskWrites := S (diskWrites w);
     clock := clock w; clockReads := clockReads w;
     entropy := entropy w; entropyReads := entropyReads w; mailbox := mailbox w;
     imapUp := imapUp w; imapLog := imapLog w;
     transporterCache := transporterCache w; smtpServer := smtpServer w;
     outbox := outbox w; responderCalls := responderCalls w |}.

Definition withClockRead (w : World) : World :=
  {| stateCache := stateCache w; stateFile := stateFile w;
     diskWritable := diskWritable w; diskWrites := diskWrites w;
     clock := clock w; clockReads := S (clockReads w);
     entropy := entropy w; entropyReads := entropyReads w; mailbox := mailbox w;
     imapUp := imapUp w; imapLog := imapLog w;
     transporterCache := transporterCache w; smtpServer := smtpServer w;
     outbox := outbox w; responderCalls := responderCalls w |}.

Definition withEntropyRead (w : World) : World :=
  {| stateCache := stateCache w; stateFile := stateFile w;
     diskWritable := diskWritable w; diskWrites := diskWrites w;
     clock := clock w; clockReads := clockReads w;
     entropy := entropy w; entropyReads := S (entropyReads w);
     mailbox := mailbox w;
     imapUp := imapUp w; imapLog := imapLog w;
     transporterCache := transporterCache w; smtpServer := smtpServer w;
     outbox := outbox w; responderCalls := responderCalls w |}.

Definition withMailbox (m : list MailboxEntry) (w : World) : World :=
  {| stateCache := stateCache w; stateFile := stateFile w;
     diskWritable := diskWritable w; diskWrites := diskWrites w;
     clock := clock w; clockReads := clockReads w;
     entropy := entropy w; entropyReads := entropyReads w; mailbox := m;
     imapUp := imapUp w; imapLog := imapLog w;
     transporterCache := transporterCache w; smtpServer := smtpServer w;
     outbox := outbox w; responderCalls := responderCalls w |}.

Definition withImapEvent (e : ImapEvent) (w : World) : World :=
  {| stateCache := stateCache w; stateFile := stateFile w;
     diskWritable := diskWritable w; diskWrites := diskWrites w;
     clock := clock w; clockReads := clockReads w;
     entropy := entropy w; entropyReads := entropyReads w; mailbox := mailbox w;
     imapUp := imapUp w; imapLog := imapLog w ++ [e];
     transporterCache := transporterCache w; smtpServer := smtpServer w;
     outbox := outbox w; responderCalls := responderCalls w |}.

Definition withTransporterCache (c : gmap string SmtpOptions) (w : World) : World :=
  {| stateCache := stateCache w; stateFile := stateFile w;
     diskWritable := diskWritable w; diskWrites := diskWrites w;
     clock := clock w; clockReads := clockReads w;
     entropy := entropy w; entropyReads := entropyReads w; mailbox := mailbox w;
     imapUp := imapUp w; imapLog := imapLog w;
     transporterCache := c; smtpServer := smtpServer w;
     outbox := outbox w; responderCalls := responderCalls w |}.

Definition withSubmission (t : SmtpOptions) (m : MessageOptions) (w : World) : World :=
  {| stateCache := stateCache w; stateFile := stateFile w;
     diskWritable := diskWritable w; diskWrites := diskWrites w;
     clock := clock w; clockReads := clockReads w;
     entropy := entropy w; entropyReads := entropyReads w; mailbox := mailbox w;
     imapUp := imapUp w; imapLog := imapLog w;
     transporterCache := transporterCache w; smtpServer := smtpServer w;
     outbox := outbox w ++ [(t, m)]; responderCalls := responderCalls w |}.

Definition withResponderCall (c : InboundEmail) (w : World) : World :=
  {| stateCache := stateCache w; stateFile := stateFile w;
     diskWritable := diskWritable w; diskWrites := diskWrites w;
     clock := clock w; clockReads := clockReads w;
     entropy := entropy w; entropyReads := entropyReads w; mailbox := mailbox w;
     imapUp := imapUp w; imapLog := imapLog w;
     transporterCache := transporterCache w; smtpServer := smtpServer w;
     outbox := outbox w; responderCalls := responderCalls w ++ [c] |}.

(** ** Computations that may throw *)

Inductive Completion (A : Type) :=
  | Normal (a : A)
  | Abrupt (e : Thrown).
Arguments Normal {A} a.
Arguments Abrupt {A} e.

Definition Eff (A : Type) : Type := World → Completion A * World.

Definition pure {A} (a : A) : Eff A := fun w => (Normal a, w).

Definition throw {A} (e : Thrown) : Eff A := fun w => (Abrupt e, w).

Definition bind {A B} (c : Eff A) (k : A → Eff B) : Eff B :=
  fun w =>
    match c w with
    | (Normal a, w') => k a w'
    | (Abrupt e, w') => (Abrupt e, w')
    end.

(** [try { c } catch (err) { h err }]. *)
Definition tryCatch {A} (c : Eff A) (h : Thrown → Eff A) : Eff A :=
  fun w =>
    match c w with
    | (Normal a, w') => (Normal a, w')
    | (Abrupt e, w') => h e w'
    end.

(** [try { c } finally { f }] for a finaliser that does not throw. *)
Definition tryFinally {A} (c : Eff A) (f : World → World) : Eff A :=
  fun w => let '(r, w') := c w in (r, f w').

Definition modify (f : World → World) : Eff unit := fun w => (Normal tt, f w).

Global Instance Eff_ret : MRet Eff := @pure.
Global Instance Eff_bind : MBind Eff := fun A B k c => bind c k.
Global Instance Eff_throw : MThrow Thrown Eff := @throw.

(** [Date.now()]. *)
Definition dateNow : Eff Z :=
  fun w => (Normal (clock w (clockReads w)), withClockRead w).

(** [Math.random().toString(36).slice(2)]. *)
Definition randomDigits : Eff string :=
  fun w => (Normal (entropy w (entropyReads w)), withEntropyRead w).

(** ** Durable state store ([src/state.ts]) *)

Definition MAX_PROCESSED_IDS : Z := 10000.
Definition RATE_LIMIT_WINDOW_MS : Z := 60 * 60 * 1000.

Definition emptyStore : ProcessedMessageStore :=
  {| processedIds := []; rateLimits := ∅; lastPollTime := None |}.

(** [loadState()]: the cached object when there is one, else the parsed
    file, else a fresh empty store; the result becomes the cache. *)
Definition loadState : Eff ProcessedMessageStore :=
  fun w =>
    match stateCache w with
    | Some s => (Normal s, w)
    | None =>
        let s := match stateFile w with
                 | FileStore s => s
                 | FileAbsent | FileUnreadable => emptyStore
                 end in
        (Normal s, withStateCache (Some s) w)
    end.

(** The predicate [(ts) => now - ts < RATE_LIMIT_WINDOW_MS]. *)
Definition withinWindow (now ts : Z) : bool := now - ts <? RATE_LIMIT_WINDOW_MS.

(** [timestamps.filter((ts) => now - ts < RATE_LIMIT_WINDOW_MS)]. *)
Definition recentTimestamps (now : Z) (timestamps : list Z) : list Z :=
  filter (fun ts => withinWindow now ts = true) timestamps.

(** The trimming step of [saveState]. *)
Definition trimProcessedIds (ids : list string) : list string :=
  if MAX_PROCESSED_IDS <? Z.of_nat (length ids)
  then Js.sliceFrom (- MAX_PROCESSED_IDS) ids
  else ids.

(** The clean-up loop of [saveState] over [Object.keys(state.rateLimits)]:
    every list is filtered and the entries left empty are deleted. *)
Definition purgeRateLimits (now : Z) (limits : gmap string (list Z))
  : gmap string (list Z) :=
  omap (fun timestamps =>
          match recentTimestamps now timestamps with
          | [] => None
          | kept => Some kept
          end) limits.

(** [fs.writeFileSync(STATE_FILE, JSON.stringify(state, null, 2))]. *)
Definition writeStateFile (s : ProcessedMessageStore) : Eff unit :=
  fun w =>
    if diskWritable w then (Normal tt, withStateFileWritten s w)
    else (Abrupt (ThrownError "EACCES: permission denied"), w).

(** [saveState(state)]. The callers pass the cached object, which the
    function updates in place before it is written out. *)
Definition saveState (state : ProcessedMessageStore) : Eff unit :=
  let ids := trimProcessedIds (processedIds state) in
  now ← dateNow;
  let state' := {| processedIds := ids;
                   rateLimits := purgeRateLimits now (rateLimits state);
                   lastPollTime := lastPollTime state |} in
  modify (withStateCache (Some state'));;
  writeStateFile state'.

(** [isMessageProcessed(messageId)]. *)
Definition isMessageProcessed (id : string) : Eff bool :=
  state ← loadState;
  mret (Js.arrayIncludes (processedIds state) id).

(** [markMessageProcessed(messageId)]. *)
Definition markMessageProcessed (id : string) : Eff unit :=
  state ← loadState;
  if negb (Js.arrayIncludes (processedIds state) id) then
    let state' := {| processedIds := processedIds state ++ [id];
                     rateLimits := rateLimits state;
                     lastPollTime := lastPollTime state |} in
    modify (withStateCache (Some state'));;
    saveState state'
  else mret tt.

(** The names every plain object inherits from [Object.prototype].
    [state.rateLimits] is such an object ([{}], or what [JSON.parse]
    returns), so [state.rateLimits[sender]] is the sender's own entry
    when there is one and otherwise, for these twelve names, an inherited
    function (the prototype itself for [__proto__]): a truthy value that
    has neither [filter] nor [push]. [Object.keys] lists own entries only. *)
Definition objectPrototypeKeys : list string :=
  ["constructor"; "__defineGetter__"; "__defineSetter__"; "hasOwnProperty";
   "__lookupGetter__"; "__lookupSetter__"; "isPrototypeOf";
   "propertyIsEnumerable"; "toString"; "valueOf"; "__proto__";
   "toLocaleString"].

(** Whether [limits[sender]] finds an inherited property: the sender
    has no entry of its own and is called like one of them. *)
Definition readsInherited (limits : gmap string (list Z)) (sender : string) : bool :=
  bool_decide (limits !! sender = None)
  && Js.arrayIncludes objectPrototypeKeys sender.

(** The [TypeError] of a call to a method the value does not have. *)
Definition notAFunction (callee : string) : Thrown :=
  ThrownError (callee +:+ " is not a function").

(** [checkRateLimit(sender, maxPerHour)]: for an inherited property
    [timestamps] is not an array and [timestamps.filter(...)] throws. *)
Definition checkRateLimit (sender : string) (maxPerHour : Z) : Eff bool :=
  state ← loadState;
  now ← dateNow;
  if readsInherited (rateLimits state) sender
  then throw (notAFunction "timestamps.filter")
  else
    let timestamps := default [] (rateLimits state !! sender) in
    mret (Z.of_nat (length (recentTimestamps now timestamps)) <? maxPerHour).

(** [recordReply(sender)]: an inherited property is truthy, so no entry
    is created for it and [state.rateLimits[sender].push(now)] throws. *)
Definition recordReply (sender : string) : Eff unit :=
  state ← loadState;
  now ← dateNow;
  if readsInherited (rateLimits state) sender
  then throw (notAFunction "state.rateLimits[sender].push")
  else
    let timestamps := default [] (rateLimits state !! sender) in
    let state' := {| processedIds := processedIds state;
                     rateLimits := <[sender := timestamps ++ [now]]> (rateLimits state);
                     lastPollTime := lastPollTime state |} in
    modify (withStateCache (Some state'));;
    saveState state'.

(** [if (fs.existsSync(STATE_FILE)) fs.unlinkSync(STATE_FILE)]; a disk
    that refuses writes refuses the removal as well. *)
Definition unlinkStateFile : Eff unit :=
  fun w =>
    match stateFile w with
    | FileAbsent => (Normal tt, w)
    | FileUnreadable | FileStore _ =>
        if diskWritable w then
          (Normal tt,
           {| stateCache := stateCache w; stateFile := FileAbsent;
              diskWritable := diskWritable w; diskWrites := diskWrites w;
              clock := clock w; clockReads := clockReads w;
              entropy := entropy w; entropyReads := entropyReads w;
              mailbox := mailbox w; imapUp := imapUp w; imapLog := imapLog w;
              transporterCache := transporterCache w; smtpServer := smtpServer w;
              outbox := outbox w; responderCalls := responderCalls w |})
        else (Abrupt (ThrownError "EACCES: permission denied"), w)
    end.

(** [clearState()]. *)
Definition clearState : Eff unit :=
  modify (withStateCache None);;
  unlinkStateFile.

(** ** Mailbox access ([src/imap.ts]) *)

Definition imapUnavailable : Thrown := ThrownError "Connection not available".

(** [client.getMailboxLock(folder)]. *)
Definition getMailboxLock (folder : string) : Eff unit :=
  fun w =>
    if imapUp w then (Normal tt, withImapEvent (LockAcquired folder) w)
    else (Abrupt imapUnavailable, w).

(** [lock.release()]. *)
Definition releaseLock (folder : string) (w : World) : World :=
  withImapEvent (LockReleased folder) w.

(** [client.search({ seen: false }, { uid: true })]: the uids of the
    unseen messages, in sequence order. *)
Definition searchUnseen : Eff (list Z) :=
  fun w =>
    if imapUp w then
      (Normal (entryUid <$> filter (fun m => entrySeen m = false) (mailbox w)),
       withImapEvent Searched w)
    else (Abrupt imapUnavailable, w).

(** The messages at the sequence numbers listed in [range], the first
    message of [box] having the number [next]. *)
Fixpoint atSequenceNumbers (next : Z) (range : list Z) (box : list MailboxEntry)
  : list MailboxEntry :=
  match box with
  | [] => []
  | message :: rest =>
      if bool_decide (next ∈ range)
      then message :: atSequenceNumbers (next + 1) range rest
      else atSequenceNumbers (next + 1) range rest
  end.

(** [client.fetch(range, { uid: true, envelope: true, source: true })].
    The call has a range and a query but no options argument, so the
    numbers of [range] are read as sequence numbers; [uid: true] in the
    query only asks for the uid of each message in the answer. The server
    answers with the messages at those numbers that exist, in sequence
    order. *)
Definition fetchMessages (range : list Z) : Eff (list MailboxEntry) :=
  fun w =>
    if imapUp w then
      (Normal (atSequenceNumbers 1 range (mailbox w)),
       withImapEvent (Fetched range) w)
    else (Abrupt imapUnavailable, w).

(** [client.messageFlagsAdd({ uid }, ["\\Seen"], { uid: true })]. *)
Definition messageFlagsAddSeen (target : Z) : Eff unit :=
  fun w =>
    if imapUp w then
      (Normal tt,
       withImapEvent (FlagsAdded target)
         (withMailbox
            ((fun m => if bool_decide (entryUid m = target)
                       then {| entryUid := entryUid m; entrySeen := true;
                               entrySource := entrySource m |}
                       else m) <$> mailbox w) w))
    else (Abrupt imapUnavailable, w).

(** [markAsRead(client, folder, uid)]. *)
Definition markAsRead (folder : string) (target : Z) : Eff unit :=
  getMailboxLock folder;;
  tryFinally (messageFlagsAddSeen target) (releaseLock folder).

(** ** Outgoing transport ([src/smtp.ts]) *)

(** [getSmtpTransporter(opts)]; a transporter is identified with the
    options it was created from. *)
Definition getSmtpTransporter (opts : SmtpOptions) : Eff SmtpOptions :=
  fun w =>
    let key := so_host opts +:+ ":" +:+ pretty (so_port opts) +:+ ":" +:+ so_user opts in
    match transporterCache w !! key with
    | Some transporter => (Normal transporter, w)
    | None =>
        (Normal opts,
         withTransporterCache (<[key := opts]> (transporterCache w)) w)
    end.

(** [clearTransporterCache()]. *)
Definition clearTransporterCache : Eff unit := modify (withTransporterCache ∅).

(** [SendEmailOptions]. *)
Record SendEmailOptions := {
  se_transporter : SmtpOptions;
  se_from : string;
  se_fromName : option string;
  se_to : string;
  se_subject : string;
  se_text : string;
  se_html : option string;
  se_threadInfo : option EmailThreadInfo;
  se_signature : option string;
}.

(** The result record [{ ok, messageId?, error? }]. *)
Record SendResult := {
  ok : bool;
  sentMessageId : option string;
  error : option string;
}.

(** An optional string that is present and not empty. *)
Definition truthyString (o : option string) : option string :=
  match o with
  | Some s => if Js.truthy s then Some s else None
  | None => None
  end.

Definition dquote : string := String (ascii_of_nat 34) EmptyString.

(** The [messageOptions] object [sendEmail] builds inside its [try]. *)
Definition buildMessageOptions (opts : SendEmailOptions) : MessageOptions :=
  {| mo_from :=
       match truthyString (se_fromName opts) with
       | Some name => dquote +:+ name +:+ dquote +:+ " <" +:+ se_from opts +:+ ">"
       | None => se_from opts
       end;
     mo_to := se_to opts;
     mo_subject := se_subject opts;
     mo_text :=
       match truthyString (se_signature opts) with
       | Some sig => se_text opts +:+ String newline (String newline EmptyString) +:+ sig
       | None => se_text opts
       end;
     mo_html :=
       match truthyString (se_html opts) with
       | Some html =>
           Some match truthyString (se_signature opts) with
                | Some sig => html +:+ "<br><br><pre>" +:+ sig +:+ "</pre>"
                | None => html
                end
       | None => None
       end;
     mo_headers :=
       match se_threadInfo opts with
       | Some ti =>
           let h : gmap string string := ∅ in
           let h := if Js.truthy (ti_inReplyTo ti)
                    then <["In-Reply-To" := ti_inReplyTo ti]> h else h in
           let h := if bool_decide (0 < length (ti_references ti))%nat
                    then <["References" := Js.join " " (ti_references ti)]> h
                    else h in
           Some h
       | None => None
       end |}.

(** [opts.transporter.sendMail(messageOptions)]. *)
Definition sendMail (transporter : SmtpOptions) (m : MessageOptions) : Eff string :=
  fun w =>
    let w' := withSubmission transporter m w in
    match smtpServer w (length (outbox w)) transporter m with
    | Delivered id => (Normal id, w')
    | Rejected e => (Abrupt e, w')
    end.

(** [err instanceof Error ? err.message : String(err)]. *)
Definition errorText (e : Thrown) : string :=
  match e with
  | ThrownError message => message
  | ThrownValue image => image
  end.

(** [sendEmail(opts)]. *)
Definition sendEmail (opts : SendEmailOptions) : Eff SendResult :=
  tryCatch
    (let messageOptions := buildMessageOptions opts in
     id ← sendMail (se_transporter opts) messageOptions;
     mret {| ok := true; sentMessageId := Some id; error := None |})
    (fun err =>
       mret {| ok := false; sentMessageId := None; error := Some (errorText err) |}).

(** ** Processing one message ([src/monitor.ts]) *)

(** The fields of [EmailAccountConfig] that [processEmail] reads. *)
Record EmailAccountConfig := {
  imapUser : string;
  imapPassword : string;
  smtpHost : string;
  smtpPort : option Z;
  smtpUser : option string;
  smtpPassword : option string;
  smtpTls : option bool;
  smtpStartTls : option bool;
  replyPrefix : option string;
  signature : option string;
}.

(** [ResolvedEmailAccount]. *)
Record ResolvedEmailAccount := {
  accountId : string;
  email : string;
  config : EmailAccountConfig;
}.

(** The responder behind [runtime.processInbound]: an opaque callback
    that, given the context, may call the [reply] closure any finite
    number of times, seeing how each call completes, before its promise
    resolves or rejects. *)
Inductive Responder :=
  | Resolves
  | Rejects (e : Thrown)
  | CallsReply (text : string) (next : Completion SendResult → Responder).

(** Running a responder against a given [reply] closure. *)
Fixpoint runResponder (reply : string → Eff SendResult) (r : Responder) : Eff unit :=
  match r return Eff unit with
  | Resolves => mret tt
  | Rejects e => throw e
  | CallsReply text next =>
      fun w => let '(c, w') := reply text w in runResponder reply (next c) w'
  end.

(** The [reply] closure [processEmail] builds for a message. *)
Definition replyClosure (account : ResolvedEmailAccount) (msg : ParsedEmail)
    (text : string) : Eff SendResult :=
  let cfg := config account in
  transporter ← getSmtpTransporter
    {| so_host := smtpHost cfg;
       so_port := default 587 (smtpPort cfg);
       so_user := default (imapUser cfg) (smtpUser cfg);
       so_password := default (imapPassword cfg) (smtpPassword cfg);
       so_tls := default false (smtpTls cfg);
       so_startTls := default true (smtpStartTls cfg) |};
  now ← dateNow;
  rnd ← randomDigits;
  let threadInfo := buildThreadInfo now rnd (messageId msg) (references msg) in
  let subj := buildReplySubject (subject msg)
                (default defaultReplyPrefix (replyPrefix cfg)) in
  result ← sendEmail
    {| se_transporter := transporter;
       se_from := email account;
       se_fromName := None;
       se_to := from msg;
       se_subject := subj;
       se_text := text;
       se_html := None;
       se_threadInfo := Some threadInfo;
       se_signature := signature cfg |};
  (if ok result then recordReply (from msg) else mret tt);;
  mret result.

(** The [context] object handed to the responder, without [reply]. *)
Definition inboundContext (account : ResolvedEmailAccount) (msg : ParsedEmail)
  : InboundEmail :=
  {| ctx_accountId := accountId account;
     ctx_from := from msg;
     ctx_fromName := fromName msg;
     ctx_to := email account;
     ctx_subject := subject msg;
     ctx_body := textBody msg;
     ctx_messageId := messageId msg;
     ctx_inReplyTo := inReplyTo msg;
     ctx_date := date msg |}.

(** [await runtime.processInbound(context)]. *)
Definition processInbound (runtime : InboundEmail → Responder)
    (account : ResolvedEmailAccount) (msg : ParsedEmail) : Eff unit :=
  let context := inboundContext account msg in
  modify (withResponderCall context);;
  runResponder (replyClosure account msg) (runtime context).

(** The pair [markMessageProcessed(id); await markAsRead(client, folder, uid)]
    that ends every branch but the first. *)
Definition consume (folder : string) (msg : ParsedEmail) : Eff unit :=
  markMessageProcessed (messageId msg);;
  markAsRead folder (uid msg).

(** [processEmail(opts)]. *)
Definition processEmail (runtime : InboundEmail → Responder)
    (account : ResolvedEmailAccount) (maxReplies : Z) (folder : string)
    (msg : ParsedEmail) : Eff unit :=
  processed ← isMessageProcessed (messageId msg);
  if (processed : bool) then mret tt
  else if bool_decide (Js.toLowerCase (from msg) = Js.toLowerCase (email account))
  then consume folder msg
  else if isAutoReply msg then consume folder msg
  else if isIgnoredSender (from msg) then consume folder msg
  else
    allowed ← checkRateLimit (from msg) maxReplies;
    if negb allowed then consume folder msg
    else
      processInbound runtime account msg;;
      consume folder msg.

(** ** The chain of tests of [processEmail], read off as a function *)

(** The five skipping branches of [processEmail], in their order. *)
Inductive Rule := AlreadyProcessed | OwnAddress | AutoReply | IgnoredSender | RateLimited.

(** The branch [processEmail] takes for a message in a world: the first
    of its five tests that succeeds, the third being the code's own
    [isAutoReply] and the fifth [checkRateLimit] returning false. [None]
    when no test succeeds, which includes the case where [checkRateLimit]
    throws. *)
Definition firstMatchingRule (account : ResolvedEmailAccount) (maxReplies : Z)
    (msg : ParsedEmail) (w : World) : option Rule :=
  let store := match loadState w with (Normal s, _) => s | _ => emptyStore end in
  if Js.arrayIncludes (processedIds store) (messageId msg) then Some AlreadyProcessed
  else if bool_decide (Js.toLowerCase (from msg) = Js.toLowerCase (email account))
  then Some OwnAddress
  else if isAutoReply msg then Some AutoReply
  else if isIgnoredSender (from msg) then Some IgnoredSender
  else if readsInherited (rateLimits store) (from msg) then None
  else if Z.of_nat (length (recentTimestamps (clock w (clockReads w))
                            (default [] (rateLimits store !! from msg))))
          <? maxReplies
  then None
  else Some RateLimited.

(** The store as the next [loadState()] would return it. *)
Definition currentStore (w : World) : ProcessedMessageStore :=
  match stateCache w with
  | Some s => s
  | None => match stateFile w with
            | FileStore s => s
            | FileAbsent | FileUnreadable => emptyStore
            end
  end.

(** Successive [markMessageProcessed] calls; a caller that catches a
    failed save goes on with the next id. *)
Fixpoint markAll (ids : list string) (w : World) : World :=
  match ids with
  | [] => w
  | id :: rest => markAll rest (markMessageProcessed id w).2
  end.

(** A responder whose promise never rejects, whatever its [reply] calls
    come back with. *)
Inductive neverRejects : Responder → Prop :=
  | neverRejects_resolves : neverRejects Resolves
  | neverRejects_reply text next :
      (∀ c, neverRejects (next c)) → neverRejects (CallsReply text next).

(** ** The specification's wording, for comparison *)

(** "[original] already starts with [prefix] case-insensitively". *)
Definition startsWithIgnoringCase (original prefix : string) : Prop :=
  ∃ head rest,
    original = head +:+ rest ∧ Js.toLowerCase head = Js.toLowerCase prefix.

(** "the parent's reference chain with the parent's own id appended if
    not already last". *)
Definition referencesAsSpecified (parentId : string) (chain : list string)
  : list string :=
  if bool_decide (last chain = Some parentId) then chain else chain ++ [parentId].

(** A line that starts quoted material: either marker pattern of
    [stripQuotedContent]. *)
Definition isQuoteMarker (line : string) : bool :=
  matchesOnWrote (Js.trim line) || matchesOriginalMessage (Js.trim line).

(** The lines in front of the first one satisfying [stop]. *)
Fixpoint linesBefore (stop : string → bool) (lines : list string) : list string :=
  match lines with
  | [] => []
  | line :: rest => if stop line then [] else line :: linesBefore stop rest
  end.

(** Quote stripping read as a pipeline: cut at the first quote marker or
    signature delimiter, as recognised by [isDelimiter], then drop the
    quote-prefixed lines. *)
Definition keptLines (isDelimiter : string → bool) (lines : list string)
  : list string :=
  filter (fun line => matchesQuotePrefix (Js.trim line) = false)
    (linesBefore (fun line => isQuoteMarker line || isDelimiter line) lines).

(** "a bare two-hyphen-or-more signature delimiter line". *)
Definition hyphenDelimiterAsSpecified (line : string) : bool :=
  (2 <=? countLeading "-"%char line)%nat
  && allChars Js.isSpace (dropLeading (fun c => bool_decide (c = "-"%char)) line).

(** Quote stripping with the delimiter the specification describes. *)
Definition stripAsSpecified (text : string) : string :=
  Js.trim (Js.join (String newline EmptyString)
             (keptLines hyphenDelimiterAsSpecified (Js.split newline text))).

(** Whether every message with uid [u] carries the seen flag. *)
Definition isSeen (u : Z) (w : World) : bool :=
  forallb (fun m => if bool_decide (entryUid m = u) then entrySeen m else true)
    (mailbox w).

(** The world after [loadState()]: the cache is filled. *)
Definition loaded (w : World) : World :=
  match stateCache w with
  | Some _ => w
  | None => withStateCache (Some (currentStore w)) w
  end.

(** The store [saveState] caches and writes when the clock reads [now]. *)
Definition savedStore (now : Z) (state : ProcessedMessageStore)
  : ProcessedMessageStore :=
  {| processedIds := trimProcessedIds (processedIds state);
     rateLimits := purgeRateLimits now (rateLimits state);
     lastPollTime := lastPollTime state |}.

(** The reply timestamps held for a sender: its own entry in
    [state.rateLimits], or none. *)
Definition timestampsOf (sender : string) (state : ProcessedMessageStore) : list Z :=
  default [] (rateLimits state !! sender).

(** Rule 3 as the specification words it: one of the listed headers is
    present with a value, other than the explicit negative
    [auto-submitted: no]. *)
Definition isAutoReplyAsSpecified (msg : ParsedEmail) : bool :=
  existsb
    (fun header =>
       match headers msg !! header with
       | Some value =>
           Js.truthy value
           && negb (bool_decide (header = "auto-submitted")
                    && bool_decide (value = "no"))
       | None => false
       end)
    autoReplyHeaders.

(** Rule 4 as the specification words it: the sender starts with one of
    the listed prefixes, [bounce*@] standing for [bounce], anything, and
    an [@]. *)
Definition isIgnoredSenderAsSpecified (sender : string) : bool :=
  let s := Js.toLowerCase sender in
  existsb (fun p => Js.startsWith s p)
    ["noreply@"; "no-reply@"; "mailer-daemon@"; "postmaster@";
     "notification@"; "notifications@"; "donotreply@"; "do-not-reply@"]
  || (Js.startsWith s "bounce" && Js.includes s "@").

(** The first of the five rules of the specification's filter pipeline
    that matches a message, in the listed order; the rate limit is
    judged at the next clock reading. [None] when none matches. *)
Definition ruleAsSpecified (account : ResolvedEmailAccount) (maxReplies : Z)
    (msg : ParsedEmail) (w : World) : option Rule :=
  if Js.arrayIncludes (processedIds (currentStore w)) (messageId msg)
  then Some AlreadyProcessed
  else if bool_decide (Js.toLowerCase (from msg) = Js.toLowerCase (email account))
  then Some OwnAddress
  else if isAutoReplyAsSpecified msg then Some AutoReply
  else if isIgnoredSenderAsSpecified (from msg) then Some IgnoredSender
  else if maxReplies <=? Z.of_nat (length (recentTimestamps (clock w (clockReads w))
                                             (timestampsOf (from msg) (currentStore w))))
  then Some RateLimited
  else None.

(** The parts of the world that neither the state store nor the outgoing
    transport touches. *)
Definition surroundings (w : World)
  : bool * bool * list InboundEmail * list MailboxEntry * list ImapEvent :=
  (diskWritable w, imapUp w, responderCalls w, mailbox w, imapLog w).

(** Everything in the world but the number of clock readings taken. *)
Definition exceptClockReads (w : World) :=
  (stateCache w, stateFile w, diskWritable w, diskWrites w, clock w,
   entropy w, entropyReads w, mailbox w, imapUp w, imapLog w,
   transporterCache w, smtpServer w, outbox w, responderCalls w).

(** A step that invokes no responder, submits no mail and adds no reply
    timestamp for any sender. *)
Definition quiet (w w' : World) : Prop :=
  responderCalls w' = responderCalls w
  ∧ outbox w' = outbox w
  ∧ ∀ sender, timestampsOf sender (currentStore w')
              `sublist_of` timestampsOf sender (currentStore w).

(** * Further code of the plugin *)

(** ** Rate-limit status and process start ([src/state.ts]) *)

(** The result record [{ count, remaining, resetMs }]. *)
Record RateLimitStatus := {
  count : Z;
  remaining : Z;
  resetMs : Z;
}.

(** The least element of a non-empty array. *)
Definition minOf (first : Z) (others : list Z) : Z := foldr Z.min first others.

(** The [RangeError] of a call with more arguments than fit the stack. *)
Definition stackExceeded : Thrown := ThrownError "Maximum call stack size exceeded".

Section Status.

(** Whether the engine accepts a call with that many arguments at this
    point: [Math.min(...xs)] passes every element of [xs] as an argument
    of its own. *)
Variable spreadable : nat → bool.

(** [Math.min(...xs)] for a non-empty array. *)
Definition spreadMin (first : Z) (others : list Z) : Eff Z :=
  if spreadable (S (length others)) then mret (minOf first others)
  else throw stackExceeded.

(** [getRateLimitStatus(sender)]. *)
Definition getRateLimitStatus (sender : string) : Eff RateLimitStatus :=
  state ← loadState;
  now ← dateNow;
  if readsInherited (rateLimits state) sender
  then throw (notAFunction "timestamps.filter")
  else
    let timestamps := default [] (rateLimits state !! sender) in
    let recent := recentTimestamps now timestamps in
    oldestTs ← match recent with
               | [] => mret now
               | first :: others => spreadMin first others
               end;
    let reset := Z.max 0 ((oldestTs + RATE_LIMIT_WINDOW_MS) - now) in
    mret {| count := Z.of_nat (length recent);
            remaining := Z.max 0 (5 - Z.of_nat (length recent));
            resetMs := reset |}.

End Status.

(** A process that has just started: [let stateCache = null], everything
    outside the process as it was. *)
Definition restarted (w : World) : World := withStateCache None w.

(** ** The normaliser ([src/imap.ts]) *)

(** The text up to the first [stop] character, when there is one. *)
Fixpoint takeUntil (stop : ascii) (s : string) : option string :=
  match s with
  | EmptyString => None
  | String c r =>
      if bool_decide (c = stop) then Some EmptyString
      else String c <$> takeUntil stop r
  end.

(** The capture group of [input.match(/<([^>]+)>/)]: the leftmost [<]
    that is followed by at least one character other than [>] and then
    by [>]. *)
Fixpoint angleCapture (s : string) : option string :=
  match s with
  | EmptyString => None
  | String c r =>
      if bool_decide (c = "<"%char) then
        match takeUntil ">"%char r with
        | Some (String a m) => Some (String a m)
        | Some EmptyString | None => angleCapture r
        end
      else angleCapture r
  end.

(** [extractEmailAddress(input)]. *)
Definition extractEmailAddress (input : string) : string :=
  Js.trim (Js.toLowerCase (default input (angleCapture input))).

(** One entry of an address header as the mail parser gives it. *)
Record AddressEntry := {
  address : option string;
  name : option string;
}.

(** An [AddressObject]: the parsed entries of one address header. *)
Record AddressObject := {
  value : list AddressEntry;
}.

(** The [references] of a parsed mail: one id or an array of ids. *)
Inductive ReferencesField :=
  | OneReference (id : string)
  | ManyReferences (ids : list string).

(** The fields of a [ParsedMail] that [parseMailToEmail] reads. [to] and
    [cc] list the address objects (none when the field is undefined, one
    when it is a single object); [rawHeaders] lists the entries of the
    header map in iteration order, each value as [String(value)] gives it. *)
Record ParsedMail := {
  pm_messageId : option string;
  pm_from : option AddressObject;
  pm_to : list AddressObject;
  pm_cc : list AddressObject;
  pm_text : option string;
  pm_html : option string;
  pm_subject : option string;
  pm_date : option Z;
  pm_inReplyTo : option string;
  pm_references : option ReferencesField;
  rawHeaders : list (string * string);
}.

(** [x || fallback] for an optional string. *)
Definition orElse (x : option string) (fallback : string) : string :=
  default fallback (truthyString x).

(** [list.flatMap((addr) => addr.value?.map((v) => v.address || "") || [])
         .filter(Boolean)]. *)
Definition addressesOf (objects : list AddressObject) : list string :=
  filter (fun a => Js.truthy a = true)
    (objects ≫= fun obj => (fun v => orElse (address v) "") <$> value obj).

(** [parsed.headers.forEach((value, key) =>
       { headers[key.toLowerCase()] = String(value) })]. *)
Definition collectHeaders (entries : list (string * string)) : gmap string string :=
  foldl (fun hdrs entry => <[Js.toLowerCase entry.1 := entry.2]> hdrs) ∅ entries.

(** [parsed.from?.value?.[0]] *)
Definition firstSender (parsed : ParsedMail) : option AddressEntry :=
  pm_from parsed ≫= fun obj => head (value obj).

Section Normaliser.

(** [convert(html, { wordwrap: 80, selectors: [...] })] of html-to-text. *)
Variable convert : string → string.

(** The text handed to [stripQuotedContent]: the plain text, or the
    converted HTML when there is no plain text. *)
Definition chosenText (parsed : ParsedMail) : string :=
  let textBody := orElse (pm_text parsed) "" in
  if negb (Js.truthy textBody) then
    match truthyString (pm_html parsed) with
    | Some html => convert html
    | None => textBody
    end
  else textBody.

(** [parseMailToEmail(parsed, uid)]. The clock is read for the fallback
    message id and for the fallback date, in that order, and only when
    they are needed. *)
Definition parseMailToEmail (parsed : ParsedMail) (target : Z)
  : Eff (option ParsedEmail) :=
  id ← match truthyString (pm_messageId parsed) with
       | Some id => mret id
       | None =>
           now ← dateNow;
           mret ("generated-" +:+ pretty target +:+ "-" +:+ pretty now)
       end;
  let sender :=
    extractEmailAddress (orElse (firstSender parsed ≫= address) "") in
  if negb (Js.truthy sender) then mret None
  else
    received ← match pm_date parsed with
               | Some d => mret d
               | None => dateNow
               end;
    mret (Some
      {| messageId := id;
         from := sender;
         fromName := firstSender parsed ≫= name;
         to := addressesOf (pm_to parsed);
         cc := addressesOf (pm_cc parsed);
         subject := orElse (pm_subject parsed) "(no subject)";
         textBody := stripQuotedContent (chosenText parsed);
         htmlBody := truthyString (pm_html parsed);
         date := received;
         inReplyTo := truthyString (pm_inReplyTo parsed);
         references :=
           match pm_references parsed with
           | Some (OneReference r) => if Js.truthy r then Some [r] else None
           | Some (ManyReferences rs) => Some rs
           | None => None
           end;
         headers := collectHeaders (rawHeaders parsed);
         uid := target |}).

End Normaliser.

Section Fetching.

(** [simpleParser(source)] of mailparser: the parsed mail, or the error
    its promise rejects with. *)
Variable simpleParser : string → Completion ParsedMail.

(** [convert] of html-to-text, as in [parseMailToEmail]. *)
Variable convert : string → string.

(** The [try] of the loop body: parse the source and normalise the
    result under the uid of the fetched message; [catch] skips the
    message. *)
Definition parseMessage (message : MailboxEntry) : Eff (option ParsedEmail) :=
  tryCatch
    (parsed ← (fun w => (simpleParser (entrySource message), w));
     parseMailToEmail convert parsed (entryUid message))
    (fun _ => mret None).

(** The loop [for await (const message of ...)]: the messages pushed
    onto [emails], in that order. *)
Fixpoint parseFetched (messages : list MailboxEntry) : Eff (list ParsedEmail) :=
  match messages with
  | [] => mret []
  | message :: rest =>
      email ← parseMessage message;
      emails ← parseFetched rest;
      mret (option_list email ++ emails)
  end.

(** [fetchUnreadEmails(client, folder = "INBOX", limit = 20)]. *)
Definition fetchUnreadEmails (folder : string) (limit : Z) : Eff (list ParsedEmail) :=
  getMailboxLock folder;;
  tryFinally
    (uids ← searchUnseen;
     if bool_decide (length uids = 0%nat) then mret []
     else
       let fetchUids := Js.sliceFrom (- limit) uids in
       messages ← fetchMessages fetchUids;
       parseFetched messages)
    (releaseLock folder).

End Fetching.

(** [normalizeEmailAddress(email)] ([src/accounts.ts]). *)
Definition normalizeEmailAddress (addr : string) : string :=
  Js.trim (Js.toLowerCase addr).

(** A string none of whose characters is [c]. *)
Definition lacks (c : ascii) (s : string) : bool :=
  allChars (fun d => negb (bool_decide (d = c))) s.

(** A string that is empty or starts with something other than a space. *)
Definition startsSolid (s : string) : Prop :=
  match s with
  | EmptyString => True
  | String c _ => Js.isSpace c = false
  end.

(** ** Connecting with backoff and polling ([src/monitor.ts]) *)

(** What one turn of the [while (!abortSignal.aborted)] loop of
    [connectWithRetry] meets: the signal already aborted, a connection
    attempt that throws, or one that succeeds. *)
Inductive Attempt :=
  | SignalAborted
  | ConnectRefused (err : Thrown)
  | ConnectAccepted.

(** The patches handed to [statusSink]. *)
Inductive StatusPatch :=
  | StatusConnected
  | StatusDisconnected (lastError : string)
  | StatusPolled (lastPollAt : Z)
  | StatusFailed (lastError : string).

(** How a run of [connectWithRetry] over a given sequence of turns ends:
    it returns the client, it throws [Error("Aborted")], or it is still
    retrying when the sequence ends. *)
Inductive RetryOutcome :=
  | Connected
  | ThrewAborted
  | StillRetrying.

Record RetryRun := {
  outcome : RetryOutcome;
  retryDelayAfter : Z;
  slept : list Z;
  reported : list StatusPatch;
}.

Definition baseRetryDelay : Z := 1000.
Definition maxRetryDelay : Z := 60000.

(** [connectWithRetry()], the closure variable [retryDelay] being passed
    in and handed back. *)
Fixpoint connectWithRetry (turns : list Attempt) (retryDelay : Z) : RetryRun :=
  match turns with
  | [] =>
      {| outcome := StillRetrying; retryDelayAfter := retryDelay;
         slept := []; reported := [] |}
  | SignalAborted :: _ =>
      {| outcome := ThrewAborted; retryDelayAfter := retryDelay;
         slept := []; reported := [] |}
  | ConnectAccepted :: _ =>
      {| outcome := Connected; retryDelayAfter := baseRetryDelay;
         slept := []; reported := [StatusConnected] |}
  | ConnectRefused err :: rest =>
      let run := connectWithRetry rest (Z.min (retryDelay * 2) maxRetryDelay) in
      {| outcome := outcome run; retryDelayAfter := retryDelayAfter run;
         slept := retryDelay :: slept run;
         reported := StatusDisconnected (errorText err) :: reported run |}
  end.

Section Polling.

Variable simpleParser : string → Completion ParsedMail.
Variable convert : string → string.
Variable runtime : InboundEmail → Responder.
Variable account : ResolvedEmailAccount.
Variable maxReplies : Z.
Variable folder : string.

(** What [abortSignal.aborted] reads when [handled] messages of the
    batch have been processed. *)
Variable aborted : nat → bool.

(** The loop [for (const email of emails)] of the polling loop. *)
Fixpoint processBatch (handled : nat) (emails : list ParsedEmail) : Eff unit :=
  match emails with
  | [] => mret tt
  | msg :: rest =>
      if aborted handled then mret tt
      else
        processEmail runtime account maxReplies folder msg;;
        processBatch (S handled) rest
  end.

(** The body of the [try] of the polling loop once a client is at hand:
    fetch with the default limit, process, read the clock for
    [lastPollAt]. *)
Definition pollOnce : Eff Z :=
  emails ← fetchUnreadEmails simpleParser convert folder 20;
  processBatch 0 emails;;
  dateNow.

(** One turn of the polling loop with a client at hand: the patch for the
    status sink and whether the client is kept ([catch] logs out and
    forgets it). *)
Definition pollTurn (w : World) : StatusPatch * bool * World :=
  match pollOnce w with
  | (Normal at_, w') => (StatusPolled at_, true, w')
  | (Abrupt e, w') => (StatusFailed (errorText e), false, w')
  end.

End Polling.

(** ** Account ids ([src/accounts.ts]) *)

Definition DEFAULT_ACCOUNT_ID : string := "default".

(** What [listEmailAccountIds] reads of [cfg.channels.email]: the keys
    of the [accounts] object, in the order of [Object.keys], when there
    is one, and the two top-level fields that imply a default account. *)
Record EmailChannelConfig := {
  accountKeys : option (list string);
  topImapHost : option string;
  topImapUser : option string;
}.

(** [listEmailAccountIds(cfg)], on [cfg.channels?.email]. *)
Definition listEmailAccountIds (channelConfig : option EmailChannelConfig)
  : list string :=
  match channelConfig with
  | None => [DEFAULT_ACCOUNT_ID]
  | Some c =>
      let accountIds := default [] (accountKeys c) in
      let accountIds :=
        if bool_decide (is_Some (truthyString (topImapHost c)))
           || bool_decide (is_Some (truthyString (topImapUser c)))
        then if negb (Js.arrayIncludes accountIds DEFAULT_ACCOUNT_ID)
             then accountIds ++ [DEFAULT_ACCOUNT_ID]
             else accountIds
        else accountIds in
      if bool_decide (length accountIds = 0%nat)
      then [DEFAULT_ACCOUNT_ID]
      else accountIds
  end.

(** [resolveDefaultEmailAccountId(cfg)]: [accountIds[0] || "default"]
    falls back when the first id is missing or the empty string. *)
Definition resolveDefaultEmailAccountId (channelConfig : option EmailChannelConfig)
  : string :=
  let accountIds := listEmailAccountIds channelConfig in
  if Js.arrayIncludes accountIds DEFAULT_ACCOUNT_ID then DEFAULT_ACCOUNT_ID
  else orElse (head accountIds) DEFAULT_ACCOUNT_ID.

(** ** Outbound targets ([src/channel.ts]) *)

(** A character of the class [[^\s@]]. *)
Definition addressChar (c : ascii) : bool :=
  negb (Js.isSpace c) && negb (bool_decide (c = "@"%char)).

(** A dot with something after it, somewhere in the string. *)
Fixpoint dotInside (s : string) : bool :=
  match s with
  | EmptyString => false
  | String c r => (bool_decide (c = "."%char) && Js.truthy r) || dotInside r
  end.

(** [[^\s@]+\.[^\s@]+$]: characters of the class only (the dot is one
    of them), with a dot that is neither the first nor the last. *)
Definition domainLike (d : string) : bool :=
  allChars addressChar d
  && match d with
     | EmptyString => false
     | String _ r => dotInside r
     end.

(** [[^\s@]*@] followed by the domain: the [@] met first ends the local
    part, since the class excludes it. *)
Fixpoint afterLocal (s : string) : bool :=
  match s with
  | EmptyString => false
  | String c r =>
      if bool_decide (c = "@"%char) then domainLike r
      else negb (Js.isSpace c) && afterLocal r
  end.

(** [looksLikeId(target)]: [/^[^\s@]+@[^\s@]+\.[^\s@]+$/.test(target)]. *)
Definition looksLikeId (target : string) : bool :=
  match target with
  | EmptyString => false
  | String c r => addressChar c && afterLocal r
  end.

(** The regular expression read as a language: a local part, [@], and
    two parts around a dot, each part not empty and of the class. *)
Definition addressShaped (target : string) : Prop :=
  ∃ l d1 d2 : string,
    target = l +:+ "@" +:+ d1 +:+ "." +:+ d2
    ∧ l ≠ EmptyString ∧ d1 ≠ EmptyString ∧ d2 ≠ EmptyString
    ∧ allChars addressChar l = true
    ∧ allChars addressChar d1 = true
    ∧ allChars addressChar d2 = true.

Inductive TargetResolution :=
  | TargetOk (resolved : string)
  | TargetError (message : string).

(** [outbound.resolveTarget({ to })]. *)
Definition resolveTarget (target : option string) : TargetResolution :=
  match Js.trim <$> target with
  | None => TargetError "Sending email requires --to <email@example.com>"
  | Some trimmed =>
      if negb (Js.truthy trimmed)
      then TargetError "Sending email requires --to <email@example.com>"
      else if negb (looksLikeId trimmed)
      then TargetError ("Invalid email address: " +:+ trimmed)
      else TargetOk trimmed
  end.

(** [messaging.normalizeTarget(target)]. *)
Definition normalizeTarget (target : string) : string :=
  normalizeEmailAddress target.

(** ** Sample data *)

Module Samples.

Definition lf : string := String newline EmptyString.

Definition message (id sender : string) (u : Z) (hdrs : gmap string string)
    (refs : option (list string)) : ParsedEmail :=
  {| messageId := id; from := sender; fromName := None;
     to := ["bot@example.com"]; cc := []; subject := "Question";
     textBody := "Hello"; htmlBody := None; date := 1700000000000;
     inReplyTo := None; references := refs; headers := hdrs; uid := u |}.

Definition botConfig : EmailAccountConfig :=
  {| imapUser := "bot@example.com"; imapPassword := "secret";
     smtpHost := "smtp.example.com"; smtpPort := None; smtpUser := None;
     smtpPassword := None; smtpTls := None; smtpStartTls := None;
     replyPrefix := None; signature := None |}.

Definition bot : ResolvedEmailAccount :=
  {| accountId := "default"; email := "bot@example.com"; config := botConfig |}.

(** A world with the given store cached and saved, the given mailbox,
    a clock stuck at [now], working disk and IMAP, and an SMTP server
    that answers every submission with [reaction]. *)
Definition world (store : ProcessedMessageStore) (box : list MailboxEntry)
    (now : Z) (reaction : SendMailOutcome) : World :=
  {| stateCache := Some store; stateFile := FileStore store;
     diskWritable := true; diskWrites := 0;
     clock := fun _ => now; clockReads := 0;
     entropy := fun _ => "k3x9"; entropyReads := 0;
     mailbox := box; imapUp := true; imapLog := [];
     transporterCache := ∅;
     smtpServer := fun _ _ _ => reaction;
     outbox := []; responderCalls := [] |}.

Definition unseen (u : Z) (src : string) : MailboxEntry :=
  {| entryUid := u; entrySeen := false; entrySource := src |}.

Definition storeWith (ids : list string) (limits : gmap string (list Z))
  : ProcessedMessageStore :=
  {| processedIds := ids; rateLimits := limits; lastPollTime := None |}.

(** A responder that replies once and resolves. *)
Definition repliesOnce (_ : InboundEmail) : Responder :=
  CallsReply "Thanks for your message." (fun _ => Resolves).

(** More ids than the cap: 10001 copies are enough for [saveState]. *)
Definition manyIds : list string := replicate (Z.to_nat 10001) "<m@x>".

(** A mail parser that fails on the empty source and otherwise gives a
    mail from alice whose message id is made of the source. *)
Definition simpleParser (src : string) : Completion ParsedMail :=
  if Js.truthy src
  then Normal {| pm_messageId := Some ("<" +:+ src +:+ "@x>");
                 pm_from := Some {| value := [{| address := Some "alice@example.com";
                                                 name := None |}] |};
                 pm_to := []; pm_cc := []; pm_text := Some "Hello";
                 pm_html := None; pm_subject := Some "Question";
                 pm_date := Some 1700000000000; pm_inReplyTo := None;
                 pm_references := None; rawHeaders := [] |}
  else Abrupt (ThrownError "Unexpected end of input").

Definition seen (u : Z) (src : string) : MailboxEntry :=
  {| entryUid := u; entrySeen := true; entrySource := src |}.

(** A folder with three unseen messages around a seen one. *)
Definition inbox : list MailboxEntry :=
  [unseen 1 "a"; seen 2 "b"; unseen 3 "c"; unseen 4 "d"].

End Samples.

(** * Properties *)

(** ** String primitives *)

Lemma append_cons c (s t : string) : String c s +:+ t = String c (s +:+ t).
Proof. reflexivity. Qed.

Lemma toLowerCase_app s t :
  Js.toLowerCase (s +:+ t) = Js.toLowerCase s +:+ Js.toLowerCase t.
Proof.
  induction s as [|c s IH]; [reflexivity|].
  rewrite append_cons. simpl. by rewrite IH.
Qed.

Lemma startsWith_app p s : Js.startsWith (p +:+ s) p = true.
Proof.
  induction p as [|c p IH]; [reflexivity|].
  rewrite append_cons. simpl.
  rewrite bool_decide_eq_true_2 by done. exact IH.
Qed.

Lemma startsWith_split s p :
  Js.startsWith s p = true → ∃ rest, s = p +:+ rest.
Proof.
  revert s. induction p as [|a p IH]; intros s H.
  - by exists s.
  - destruct s as [|b s]; [discriminate|]. simpl in H.
    apply andb_true_iff in H as [Hab Hrest].
    apply bool_decide_eq_true in Hab as ->.
    destruct (IH _ Hrest) as [rest ->]. by exists rest.
Qed.

Lemma toLowerCase_split s lowered tail :
  Js.toLowerCase s = lowered +:+ tail →
  ∃ head rest, s = head +:+ rest ∧ Js.toLowerCase head = lowered.
Proof.
  revert s. induction lowered as [|a lowered IH]; intros s H.
  - by exists EmptyString, s.
  - destruct s as [|b s]; [discriminate|].
    rewrite append_cons in H. simpl in H. injection H as Hb Hs.
    destruct (IH _ Hs) as (head & rest & -> & Hl).
    exists (String b head), rest. split; [reflexivity|].
    simpl. by rewrite Hb, Hl.
Qed.

Lemma startsWith_lower_iff s p :
  Js.startsWith (Js.toLowerCase s) (Js.toLowerCase p) = true
  ↔ startsWithIgnoringCase s p.
Proof.
  split.
  - intros H. apply startsWith_split in H as [tail H].
    by apply toLowerCase_split in H.
  - intros (head & rest & -> & Hl).
    rewrite toLowerCase_app, Hl. apply startsWith_app.
Qed.

Lemma arrayIncludes_true xs x : Js.arrayIncludes xs x = true ↔ x ∈ xs.
Proof. unfold Js.arrayIncludes. apply bool_decide_eq_true. Qed.

Lemma arrayIncludes_false xs x : Js.arrayIncludes xs x = false ↔ x ∉ xs.
Proof. unfold Js.arrayIncludes. apply bool_decide_eq_false. Qed.

Lemma truthy_true s : Js.truthy s = true ↔ s ≠ EmptyString.
Proof.
  unfold Js.truthy. rewrite negb_true_iff. apply bool_decide_eq_false.
Qed.

Lemma sliceFrom_neg_drop {A} (n : Z) (xs : list A) :
  0 < n → Js.sliceFrom (- n) xs = drop (length xs - Z.to_nat n) xs.
Proof.
  intros Hn. unfold Js.sliceFrom.
  destruct (Z.ltb_spec (- n) 0); [|lia].
  f_equal. lia.
Qed.

(** ** Reply subject *)

(** C8. [buildReplySubject] leaves a subject alone exactly when it
    already starts with the prefix up to letter case, prepends the prefix
    otherwise, and applying it twice with the same prefix (in particular
    with "Re: ") gives the same subject as applying it once. *)
Theorem buildReplySubject_idempotent (s p : string) :
  (startsWithIgnoringCase s p → buildReplySubject s p = s)
  ∧ (¬ startsWithIgnoringCase s p → buildReplySubject s p = p +:+ s)
  ∧ buildReplySubject (buildReplySubject s p) p = buildReplySubject s p
  ∧ buildReplySubject (buildReplySubject s defaultReplyPrefix) defaultReplyPrefix
    = buildReplySubject s defaultReplyPrefix.
Proof.
  assert (Hidem : ∀ q, buildReplySubject (buildReplySubject s q) q
                       = buildReplySubject s q).
  { intros q. unfold buildReplySubject at 2 3.
    destruct (Js.startsWith (Js.toLowerCase s) (Js.toLowerCase q)) eqn:Hs.
    - unfold buildReplySubject. by rewrite Hs.
    - unfold buildReplySubject.
      by rewrite toLowerCase_app, startsWith_app. }
  repeat split; [| |apply Hidem..].
  - intros H. apply startsWith_lower_iff in H.
    unfold buildReplySubject. by rewrite H.
  - intros H. unfold buildReplySubject.
    destruct (Js.startsWith (Js.toLowerCase s) (Js.toLowerCase p)) eqn:Hs; [|done].
    by apply startsWith_lower_iff in Hs.
Qed.

Lemma buildReplySubject_idempotent_witness :
  buildReplySubject "RE: invoice" "Re: " = "RE: invoice"
  ∧ buildReplySubject "invoice" "Re: " = "Re: invoice".
Proof.
  destruct (buildReplySubject_idempotent "RE: invoice" "Re: ") as (Hkeep & _).
  destruct (buildReplySubject_idempotent "invoice" "Re: ") as (_ & Hadd & _).
  split.
  - apply Hkeep. exists "RE: ", "invoice". split; reflexivity.
  - apply Hadd. intros H. apply startsWith_lower_iff in H. discriminate H.
Defined.

(** ** Thread references *)

Lemma references_of_buildThreadInfo now rnd id chain :
  ti_references (buildThreadInfo now rnd id chain)
  = if bool_decide (id ≠ EmptyString ∧ id ∉ default [] chain)
    then default [] chain ++ [id] else default [] chain.
Proof.
  unfold buildThreadInfo. simpl.
  destruct (Js.truthy id) eqn:Ht; simpl.
  - apply truthy_true in Ht.
    destruct (Js.arrayIncludes (default [] chain) id) eqn:Hi; simpl.
    + apply arrayIncludes_true in Hi.
      rewrite bool_decide_eq_false_2; [done|]. by intros [_ ?].
    + apply arrayIncludes_false in Hi.
      by rewrite bool_decide_eq_true_2.
  - rewrite bool_decide_eq_false_2; [done|].
    intros [Hne _]. apply truthy_true in Hne. congruence.
Qed.

(** C5, as the code has it. The references of the reply are the parent's
    chain, with the parent's id appended exactly when that id is not empty
    and occurs nowhere in the chain. The list is duplicate-free whenever
    the parent's chain is; when a parent exists its id occurs in the list,
    and it is the last entry whenever it was absent from the chain or
    already last in it. *)
Theorem buildThreadInfo_references now rnd (id : string) (chain : option (list string)) :
  let parentChain := default [] chain in
  let refs := ti_references (buildThreadInfo now rnd id chain) in
  refs = (if bool_decide (id ≠ EmptyString ∧ id ∉ parentChain)
          then parentChain ++ [id] else parentChain)
  ∧ (NoDup parentChain → NoDup refs)
  ∧ (id ≠ EmptyString → id ∈ refs)
  ∧ (id ≠ EmptyString → id ∉ parentChain ∨ last parentChain = Some id →
     last refs = Some id).
Proof.
  intros parentChain refs. subst refs.
  rewrite references_of_buildThreadInfo. fold parentChain.
  split; [done|].
  case_bool_decide as Hc.
  - destruct Hc as [Hne Hnotin]. repeat split.
    + intros Hnd. apply NoDup_app. repeat split; [done| |apply NoDup_singleton].
      intros x Hx ->%list_elem_of_singleton. done.
    + intros _. apply elem_of_app. right. by apply list_elem_of_singleton.
    + intros _ _. apply last_snoc.
  - repeat split.
    + done.
    + intros Hne. destruct (decide (id ∈ parentChain)); [done|]. naive_solver.
    + intros Hne [Hnotin|Hlast]; [naive_solver|done].
Qed.

Lemma buildThreadInfo_references_witness :
  last (ti_references (buildThreadInfo 0 "k3x9" "<c@x>" (Some ["<a@x>"; "<b@x>"])))
  = Some "<c@x>"
  ∧ NoDup (ti_references (buildThreadInfo 0 "k3x9" "<c@x>" (Some ["<a@x>"; "<b@x>"]))).
Proof.
  destruct (buildThreadInfo_references 0 "k3x9" "<c@x>" (Some ["<a@x>"; "<b@x>"]))
    as (_ & Hnd & _ & Hlast).
  split.
  - apply Hlast; [discriminate|]. left. simpl.
    apply (bool_decide_unpack _). vm_compute. exact I.
  - apply Hnd. simpl. apply (bool_decide_unpack _). vm_compute. exact I.
Defined.

(** C5, as stated, fails on two inputs. A parent id that sits inside the
    chain but not at its end is not appended, so the list neither ends
    with the parent nor equals the chain extended as specified; and a
    chain that already has duplicates keeps them. *)
Lemma buildThreadInfo_references_counterexample :
  (let refs := ti_references
                 (buildThreadInfo 0 "k3x9" "<a@x>" (Some ["<a@x>"; "<b@x>"])) in
   refs = ["<a@x>"; "<b@x>"]
   ∧ last refs ≠ Some "<a@x>"
   ∧ refs ≠ referencesAsSpecified "<a@x>" ["<a@x>"; "<b@x>"])
  ∧ (let refs := ti_references
                   (buildThreadInfo 0 "k3x9" "<c@x>" (Some ["<a@x>"; "<a@x>"])) in
     refs = ["<a@x>"; "<a@x>"; "<c@x>"] ∧ ¬ NoDup refs).
Proof.
  split; simpl.
  - repeat split; [vm_compute; discriminate | vm_compute; discriminate].
  - split; [reflexivity|].
    intros Hnd. apply NoDup_cons in Hnd as [Hnotin _].
    apply Hnotin. by left.
Qed.

(** ** Auto-reply detection *)

(** What [isAutoReply] computes: some listed header is present with a
    non-empty value. *)
Lemma isAutoReply_iff (e : ParsedEmail) :
  isAutoReply e = true
  ↔ ∃ header value,
      header ∈ autoReplyHeaders ∧ headers e !! header = Some value
      ∧ value ≠ EmptyString.
Proof.
  unfold isAutoReply. generalize autoReplyHeaders as pending.
  induction pending as [|h pending IH]; simpl.
  - split; [discriminate|]. intros (? & ? & []%elem_of_nil & _).
  - destruct (headers e !! h) as [v|] eqn:Hv.
    + destruct (Js.truthy v) eqn:Ht.
      * split.
        -- intros _. exists h, v. apply truthy_true in Ht.
           split; [by left|done].
        -- intros _. by repeat case_match.
      * rewrite IH. split.
        -- intros (h' & v' & Hin & Hl & Hne). exists h', v'.
           split; [by right|done].
        -- intros (h' & v' & Hin & Hl & Hne).
           apply elem_of_cons in Hin as [->|Hin].
           ++ rewrite Hv in Hl. injection Hl as ->.
              apply truthy_true in Hne. congruence.
           ++ by exists h', v'.
    + rewrite IH. split.
      * intros (h' & v' & Hin & Hl & Hne). exists h', v'.
        split; [by right|done].
      * intros (h' & v' & Hin & Hl & Hne).
        apply elem_of_cons in Hin as [->|Hin]; [congruence|].
        by exists h', v'.
Qed.

(** C3, failing input. A message whose only auto-reply header is
    [auto-submitted: no] is classified as an auto-reply: the guard
    [value !== "no"] is followed by an unconditional [return true]. *)
Theorem isAutoReply_auto_submitted_no :
  isAutoReply
    (Samples.message "<m1@x>" "alice@example.com" 7
       {[ "auto-submitted" := "no" ]} None)
  = true.
Proof. vm_compute. reflexivity. Qed.

(** ** Quote stripping *)

Lemma trimEnd_blank r : allChars Js.isSpace r = true → Js.trimEnd r = EmptyString.
Proof.
  induction r as [|c r IH]; simpl; [done|].
  intros [Hc Hr]%andb_true_iff. by rewrite (IH Hr), Hc.
Qed.

(** A signature delimiter trims to the two hyphens. *)
Lemma matchesSignature_trim line :
  matchesSignature line = true → Js.trim line = "--".
Proof.
  destruct line as [|a [|b r]]; try discriminate.
  - simpl. by repeat case_match.
  - simpl. intros H.
    assert (a = "-"%char ∧ b = "-"%char ∧ allChars Js.isSpace r = true)
      as (-> & -> & Hr).
    { repeat case_match; try discriminate; done. }
    unfold Js.trim. simpl. by rewrite (trimEnd_blank r Hr).
Qed.

(** Hence it is neither a quote marker nor a quote-prefixed line. *)
Lemma matchesSignature_exclusive line :
  matchesSignature line = true →
  isQuoteMarker line = false ∧ matchesQuotePrefix (Js.trim line) = false.
Proof.
  intros H. unfold isQuoteMarker.
  rewrite (matchesSignature_trim line H). by vm_compute.
Qed.

Lemma stripLoop_quoted lines result : stripLoop lines true result = result.
Proof.
  induction lines as [|line rest IH]; simpl; [done|].
  by repeat case_match.
Qed.

(** The loop of [stripQuotedContent] computes the pipeline [keptLines]
    with its own signature pattern. *)
Lemma stripLoop_keptLines lines result :
  stripLoop lines false result = result ++ keptLines matchesSignature lines.
Proof.
  unfold keptLines. revert result.
  induction lines as [|line rest IH]; intros result; simpl.
  { by rewrite app_nil_r. }
  unfold isQuoteMarker at 1.
  destruct (matchesOnWrote (Js.trim line)) eqn:Hon; simpl.
  { by rewrite stripLoop_quoted, app_nil_r. }
  destruct (matchesOriginalMessage (Js.trim line)) eqn:Hom; simpl.
  { by rewrite stripLoop_quoted, app_nil_r. }
  destruct (matchesQuotePrefix (Js.trim line)) eqn:Hq.
  - destruct (matchesSignature line) eqn:Hsig.
    { apply matchesSignature_exclusive in Hsig as [_ Hsig]. congruence. }
    rewrite filter_cons_False by congruence. apply IH.
  - destruct (matchesSignature line) eqn:Hsig.
    { by rewrite app_nil_r. }
    simpl. rewrite filter_cons_True by done.
    rewrite IH. by rewrite <- app_assoc.
Qed.

Lemma linesBefore_stop stop pre line post :
  stop line = true →
  linesBefore stop (pre ++ line :: post) = linesBefore stop pre.
Proof.
  intros Hstop. induction pre as [|x pre IH]; simpl.
  - by rewrite Hstop.
  - destruct (stop x); [done|]. by rewrite IH.
Qed.

(** C9, as the code has it. Quote stripping keeps, of the lines in front
    of the first quote marker ("On ... wrote:" or an "Original Message"
    separator) or signature delimiter, those that are not [>]-prefixed;
    the delimiter is a line of exactly two hyphens followed only by white
    space. So whatever follows a marker or a delimiter never shows, and
    no [>]-prefixed line does. *)
Theorem stripQuotedContent_kept (text : string) :
  stripQuotedContent text
  = Js.trim (Js.join (String newline EmptyString)
               (keptLines matchesSignature (Js.split newline text)))
  ∧ (∀ pre line post,
       matchesOnWrote (Js.trim line) = true →
       stripLoop (pre ++ line :: post) false [] = stripLoop pre false [])
  ∧ (∀ lines line,
       line ∈ stripLoop lines false [] → matchesQuotePrefix (Js.trim line) = false)
  ∧ (∀ pre line post,
       matchesSignature line = true →
       stripLoop (pre ++ line :: post) false [] = stripLoop pre false []).
Proof.
  split; [|split; [|split]].
  - unfold stripQuotedContent. by rewrite stripLoop_keptLines.
  - intros pre line post Hm. rewrite !stripLoop_keptLines. simpl.
    unfold keptLines. rewrite linesBefore_stop; [done|].
    unfold isQuoteMarker. by rewrite Hm.
  - intros lines line. rewrite stripLoop_keptLines. simpl.
    unfold keptLines. by intros [? _]%list_elem_of_filter.
  - intros pre line post Hs. rewrite !stripLoop_keptLines. simpl.
    unfold keptLines. rewrite linesBefore_stop; [done|].
    rewrite Hs. apply orb_true_r.
Qed.

Lemma stripQuotedContent_kept_witness :
  stripLoop (["Thanks."; "Bye"] ++ "On Mon, 3 Jun, Bob wrote:" :: ["> earlier"; "more"])
    false []
  = ["Thanks."; "Bye"]
  ∧ stripLoop (["Thanks."] ++ "-- " :: ["Alice"]) false [] = ["Thanks."].
Proof.
  destruct (stripQuotedContent_kept EmptyString) as (_ & Hmarker & _ & Hsig).
  split.
  - rewrite Hmarker; [|vm_compute]; reflexivity.
  - rewrite Hsig; [|vm_compute]; reflexivity.
Defined.

(** C9, as stated, fails: a line of three hyphens is a "two-hyphen-or-more"
    line, yet the text is not cut there. *)
Lemma stripQuotedContent_counterexample :
  let text := "Hi" +:+ Samples.lf +:+ "---" +:+ Samples.lf +:+ "PS: see you" in
  hyphenDelimiterAsSpecified "---" = true
  ∧ stripAsSpecified text = "Hi"
  ∧ stripQuotedContent text = text
  ∧ stripQuotedContent text ≠ stripAsSpecified text.
Proof. vm_compute. repeat split; discriminate. Qed.

(** ** Durable state store *)

Lemma loadState_eq w : loadState w = (Normal (currentStore w), loaded w).
Proof. unfold loadState, loaded, currentStore. by destruct (stateCache w). Qed.

Lemma currentStore_loaded w : currentStore (loaded w) = currentStore w.
Proof. unfold loaded, currentStore. by destruct (stateCache w) eqn:E; simpl; rewrite ?E. Qed.

Lemma stateCache_loaded w : stateCache (loaded w) = Some (currentStore w).
Proof. unfold loaded, currentStore. by destruct (stateCache w) eqn:E; simpl; rewrite ?E. Qed.

Lemma loaded_frame w :
  surroundings (loaded w) = surroundings w ∧ outbox (loaded w) = outbox w
  ∧ stateFile (loaded w) = stateFile w ∧ diskWrites (loaded w) = diskWrites w
  ∧ clock (loaded w) = clock w ∧ clockReads (loaded w) = clockReads w.
Proof. unfold loaded. by destruct (stateCache w). Qed.

Lemma saveState_eq state w :
  saveState state w
  = let saved := savedStore (clock w (clockReads w)) state in
    let w' := withStateCache (Some saved) (withClockRead w) in
    if diskWritable w then (Normal tt, withStateFileWritten saved w')
    else (Abrupt (ThrownError "EACCES: permission denied"), w').
Proof.
  unfold saveState, mbind, Eff_bind, bind, dateNow, modify, writeStateFile.
  simpl. by destruct (diskWritable w).
Qed.

Lemma trimProcessedIds_sublist ids : trimProcessedIds ids `sublist_of` ids.
Proof.
  unfold trimProcessedIds. case_match; [|done].
  unfold Js.sliceFrom. apply sublist_drop.
Qed.

Lemma trimProcessedIds_length ids :
  Z.of_nat (length (trimProcessedIds ids)) ≤ MAX_PROCESSED_IDS.
Proof.
  unfold trimProcessedIds.
  destruct (Z.ltb_spec MAX_PROCESSED_IDS (Z.of_nat (length ids))); [|done].
  rewrite sliceFrom_neg_drop by done. rewrite length_drop.
  unfold MAX_PROCESSED_IDS in *. lia.
Qed.

Lemma trimProcessedIds_over ids :
  MAX_PROCESSED_IDS < Z.of_nat (length ids) →
  trimProcessedIds ids = drop (length ids - Z.to_nat MAX_PROCESSED_IDS) ids.
Proof.
  intros H. unfold trimProcessedIds.
  destruct (Z.ltb_spec MAX_PROCESSED_IDS (Z.of_nat (length ids))); [|lia].
  by apply sliceFrom_neg_drop.
Qed.

Lemma trimProcessedIds_last ids id : id ∈ trimProcessedIds (ids ++ [id]).
Proof.
  unfold trimProcessedIds.
  destruct (Z.ltb_spec MAX_PROCESSED_IDS (Z.of_nat (length (ids ++ [id])))).
  - rewrite sliceFrom_neg_drop by done.
    rewrite length_app in *. simpl in *.
    rewrite drop_app_le by (unfold MAX_PROCESSED_IDS in *; lia).
    apply elem_of_app. right. by left.
  - apply elem_of_app. right. by left.
Qed.

(** C4. Whatever store [saveState] is given, the store it caches, and
    writes out when the disk accepts the write, holds at most
    [MAX_PROCESSED_IDS] ids; when the store held more than that, exactly
    [MAX_PROCESSED_IDS] remain and they are the last ones of the list, in
    their order: only oldest entries are dropped. *)
Theorem saveState_caps_processedIds (state : ProcessedMessageStore) (w : World) :
  let w' := (saveState state w).2 in
  let ids := processedIds state in
  ∃ saved,
    stateCache w' = Some saved
    ∧ (diskWritable w = true → stateFile w' = FileStore saved)
    ∧ Z.of_nat (length (processedIds saved)) ≤ MAX_PROCESSED_IDS
    ∧ (MAX_PROCESSED_IDS < Z.of_nat (length ids) →
       Z.of_nat (length (processedIds saved)) = MAX_PROCESSED_IDS
       ∧ processedIds saved = drop (length ids - Z.to_nat MAX_PROCESSED_IDS) ids)
    ∧ (∃ dropped, ids = dropped ++ processedIds saved).
Proof.
  intros w' ids. subst w'. rewrite saveState_eq.
  exists (savedStore (clock w (clockReads w)) state).
  split; [by destruct (diskWritable w)|].
  split; [by intros ->|].
  split; [apply trimProcessedIds_length|].
  simpl. fold ids. split.
  - intros Hover. rewrite (trimProcessedIds_over ids Hover).
    split; [|done]. rewrite length_drop. unfold MAX_PROCESSED_IDS in *. lia.
  - unfold trimProcessedIds. case_match.
    + unfold Js.sliceFrom. eexists. symmetry. apply take_drop.
    + by exists [].
Qed.

Lemma saveState_caps_processedIds_witness :
  ∃ saved,
    stateFile
      (saveState (Samples.storeWith Samples.manyIds ∅)
         (Samples.world emptyStore [] 0 (Delivered "<r@x>"))).2
    = FileStore saved
    ∧ Z.of_nat (length (processedIds saved)) = MAX_PROCESSED_IDS.
Proof.
  destruct (saveState_caps_processedIds (Samples.storeWith Samples.manyIds ∅)
              (Samples.world emptyStore [] 0 (Delivered "<r@x>")))
    as (saved & _ & Hfile & _ & Hover & _).
  exists saved. split.
  - apply Hfile. reflexivity.
  - apply Hover. vm_compute. reflexivity.
Defined.

Lemma currentStore_saveState state w :
  currentStore (saveState state w).2 = savedStore (clock w (clockReads w)) state.
Proof. rewrite saveState_eq. simpl. by destruct (diskWritable w). Qed.

Lemma saveState_frame state w :
  surroundings (saveState state w).2 = surroundings w
  ∧ outbox (saveState state w).2 = outbox w.
Proof. rewrite saveState_eq. simpl. by destruct (diskWritable w). Qed.

Lemma saveState_writable state w :
  diskWritable w = true → (saveState state w).1 = Normal tt.
Proof. intros H. rewrite saveState_eq. simpl. by rewrite H. Qed.

Lemma markMessageProcessed_eq id w :
  markMessageProcessed id w
  = let state := currentStore w in
    if Js.arrayIncludes (processedIds state) id then (Normal tt, loaded w)
    else
      let state' := {| processedIds := processedIds state ++ [id];
                       rateLimits := rateLimits state;
                       lastPollTime := lastPollTime state |} in
      saveState state' (withStateCache (Some state') (loaded w)).
Proof.
  unfold markMessageProcessed, mbind, Eff_bind, bind.
  rewrite loadState_eq. simpl.
  by destruct (Js.arrayIncludes (processedIds (currentStore w)) id).
Qed.

Lemma markMessageProcessed_ids id w :
  processedIds (currentStore (markMessageProcessed id w).2)
  = if Js.arrayIncludes (processedIds (currentStore w)) id
    then processedIds (currentStore w)
    else trimProcessedIds (processedIds (currentStore w) ++ [id]).
Proof.
  rewrite markMessageProcessed_eq. cbv zeta.
  destruct (Js.arrayIncludes (processedIds (currentStore w)) id).
  - simpl. by rewrite currentStore_loaded.
  - by rewrite currentStore_saveState.
Qed.

Lemma markMessageProcessed_NoDup id w :
  NoDup (processedIds (currentStore w)) →
  NoDup (processedIds (currentStore (markMessageProcessed id w).2)).
Proof.
  intros Hnd. rewrite markMessageProcessed_ids.
  destruct (Js.arrayIncludes (processedIds (currentStore w)) id) eqn:Hin; [done|].
  apply arrayIncludes_false in Hin.
  eapply sublist_NoDup; [|apply trimProcessedIds_sublist].
  apply NoDup_app. repeat split; [done| |apply NoDup_singleton].
  by intros x Hx ->%list_elem_of_singleton.
Qed.

(** C10. Starting from a store without duplicate ids, no sequence of
    [markMessageProcessed] calls produces a duplicate; and a call with an
    id that is already present completes without appending or saving:
    the store, the state file and the number of writes stay as they
    were (the call at most fills the cache from the file). *)
Theorem markMessageProcessed_no_duplicates (w : World) :
  NoDup (processedIds (currentStore w)) →
  (∀ ids, NoDup (processedIds (currentStore (markAll ids w))))
  ∧ (∀ id, id ∈ processedIds (currentStore w) →
       markMessageProcessed id w = (Normal tt, loaded w)
       ∧ currentStore (loaded w) = currentStore w
       ∧ stateFile (loaded w) = stateFile w
       ∧ diskWrites (loaded w) = diskWrites w
       ∧ (is_Some (stateCache w) → loaded w = w)).
Proof.
  intros Hnd. split.
  - intros ids. revert w Hnd.
    induction ids as [|id ids IH]; intros w Hnd; simpl; [done|].
    apply IH. by apply markMessageProcessed_NoDup.
  - intros id Hin. apply arrayIncludes_true in Hin.
    rewrite markMessageProcessed_eq. simpl. rewrite Hin.
    split; [done|]. split; [apply currentStore_loaded|].
    destruct (loaded_frame w) as (_ & _ & Hfile & Hwrites & _).
    repeat split; [done..|].
    intros [s Hs]. unfold loaded. by rewrite Hs.
Qed.

Lemma markMessageProcessed_no_duplicates_witness :
  NoDup (processedIds (currentStore
    (markAll ["<b@x>"; "<a@x>"; "<b@x>"; "<c@x>"]
       (Samples.world (Samples.storeWith ["<a@x>"] ∅) [] 0 (Delivered "<r@x>")))))
  ∧ markMessageProcessed "<a@x>"
      (Samples.world (Samples.storeWith ["<a@x>"] ∅) [] 0 (Delivered "<r@x>"))
    = (Normal tt,
       Samples.world (Samples.storeWith ["<a@x>"] ∅) [] 0 (Delivered "<r@x>")).
Proof.
  assert (Hnd : NoDup (processedIds (currentStore
            (Samples.world (Samples.storeWith ["<a@x>"] ∅) [] 0 (Delivered "<r@x>"))))).
  { simpl. apply NoDup_singleton. }
  destruct (markMessageProcessed_no_duplicates _ Hnd) as [Hall Hsame].
  split.
  - apply Hall.
  - destruct (Hsame "<a@x>") as (Heq & _); [simpl; by left|].
    exact Heq.
Defined.

(** ** Fetching unread messages *)

(** C7, failing input. A folder holds, in sequence order, an unseen
    message with uid 2, a seen message with uid 3 and an unseen message
    with uid 5. The search gives the uids 2 and 5, which the fetch then
    reads as sequence numbers: the message returned is the second of the
    folder, the seen one, and neither unseen message is returned. *)
Theorem fetchUnreadEmails_returns_seen_message :
  let w := Samples.world emptyStore
             [Samples.unseen 2 "a"; Samples.seen 3 "b"; Samples.unseen 5 "c"]
             0 (Delivered "<r@x>") in
  ∃ emails w',
    fetchUnreadEmails Samples.simpleParser (fun html => html) "INBOX" 20 w
    = (Normal emails, w')
    ∧ uid <$> emails = [3]
    ∧ messageId <$> emails = ["<b@x>"]
    ∧ isSeen 3 w = true
    ∧ imapLog w'
      = [LockAcquired "INBOX"; Searched; Fetched [2; 5]; LockReleased "INBOX"].
Proof.
  eexists _, _. split; [vm_compute; reflexivity|].
  vm_compute. done.
Qed.

(** ** Steps that leave the responder and the transport alone *)

Lemma quiet_refl w : quiet w w.
Proof. by repeat split. Qed.

Lemma quiet_trans w1 w2 w3 : quiet w1 w2 → quiet w2 w3 → quiet w1 w3.
Proof.
  intros (Hr1 & Ho1 & Ht1) (Hr2 & Ho2 & Ht2). repeat split; [congruence..|].
  intros sender. etrans; [apply Ht2|apply Ht1].
Qed.

Lemma quiet_loaded w : quiet w (loaded w).
Proof.
  destruct (loaded_frame w) as (Hs & Ho & _). repeat split; [|done|].
  - by injection Hs.
  - intros sender. by rewrite currentStore_loaded.
Qed.

Lemma purgeRateLimits_sublist now limits sender :
  default [] (purgeRateLimits now limits !! sender)
  `sublist_of` default [] (limits !! sender).
Proof.
  unfold purgeRateLimits. rewrite lookup_omap.
  destruct (limits !! sender) as [timestamps|]; simpl; [|done].
  destruct (recentTimestamps now timestamps) as [|ts kept] eqn:Hrecent; simpl.
  - apply sublist_nil_l.
  - rewrite <- Hrecent. apply sublist_filter.
Qed.

Lemma quiet_markMessageProcessed id w : quiet w (markMessageProcessed id w).2.
Proof.
  rewrite markMessageProcessed_eq. cbv zeta.
  destruct (Js.arrayIncludes (processedIds (currentStore w)) id).
  { apply quiet_loaded. }
  eapply quiet_trans; [apply quiet_loaded|].
  match goal with |- quiet _ (saveState ?s ?v).2 =>
    destruct (saveState_frame s v) as (Hs & Ho);
    pose proof (currentStore_saveState s v) as Hc
  end.
  repeat split.
  - by injection Hs.
  - done.
  - intros sender. rewrite Hc. unfold timestampsOf. simpl.
    rewrite currentStore_loaded. apply purgeRateLimits_sublist.
Qed.

Lemma markMessageProcessed_frame id w :
  surroundings (markMessageProcessed id w).2 = surroundings w.
Proof.
  rewrite markMessageProcessed_eq. cbv zeta.
  destruct (Js.arrayIncludes (processedIds (currentStore w)) id).
  { apply loaded_frame. }
  match goal with |- surroundings (saveState ?s ?v).2 = _ =>
    destruct (saveState_frame s v) as (Hs & _); rewrite Hs
  end.
  simpl. apply loaded_frame.
Qed.

Lemma markMessageProcessed_ok id w :
  diskWritable w = true →
  (markMessageProcessed id w).1 = Normal tt
  ∧ id ∈ processedIds (currentStore (markMessageProcessed id w).2).
Proof.
  intros Hdisk. split.
  - rewrite markMessageProcessed_eq. cbv zeta.
    destruct (Js.arrayIncludes (processedIds (currentStore w)) id); [done|].
    apply saveState_writable. simpl.
    destruct (loaded_frame w) as (Hs & _). injection Hs as -> _ _ _ _. done.
  - rewrite markMessageProcessed_ids.
    destruct (Js.arrayIncludes (processedIds (currentStore w)) id) eqn:Hin.
    + by apply arrayIncludes_true.
    + apply trimProcessedIds_last.
Qed.

Lemma isSeen_marked (u : Z) (box : list MailboxEntry) :
  forallb (fun m => if bool_decide (entryUid m = u) then entrySeen m else true)
    ((fun m => if bool_decide (entryUid m = u)
               then {| entryUid := entryUid m; entrySeen := true;
                       entrySource := entrySource m |}
               else m) <$> box)
  = true.
Proof.
  induction box as [|m box IH]; [done|].
  rewrite fmap_cons. cbn [forallb]. rewrite IH, andb_true_r.
  destruct (bool_decide (entryUid m = u)) eqn:Hm; simpl; by rewrite Hm.
Qed.

Lemma markAsRead_props folder u w :
  let w' := (markAsRead folder u w).2 in
  currentStore w' = currentStore w
  ∧ responderCalls w' = responderCalls w
  ∧ outbox w' = outbox w
  ∧ (imapUp w = true → (markAsRead folder u w).1 = Normal tt ∧ isSeen u w' = true)
  ∧ (imapUp w = false → markAsRead folder u w = (Abrupt imapUnavailable, w)).
Proof.
  unfold markAsRead, mbind, Eff_bind, bind, tryFinally, getMailboxLock,
    messageFlagsAddSeen, isSeen.
  destruct (imapUp w) eqn:Hup; simpl; rewrite ?Hup; simpl.
  - repeat split; try done. apply isSeen_marked.
  - repeat split; done.
Qed.

Lemma quiet_markAsRead folder u w : quiet w (markAsRead folder u w).2.
Proof.
  destruct (markAsRead_props folder u w) as (Hc & Hr & Ho & _).
  repeat split; [done..|]. intros sender. by rewrite Hc.
Qed.

Lemma consume_eq folder msg w :
  consume folder msg w
  = match markMessageProcessed (messageId msg) w with
    | (Normal _, w') => markAsRead folder (uid msg) w'
    | (Abrupt e, w') => (Abrupt e, w')
    end.
Proof. reflexivity. Qed.

Lemma quiet_consume folder msg w : quiet w (consume folder msg w).2.
Proof.
  rewrite consume_eq.
  pose proof (quiet_markMessageProcessed (messageId msg) w) as Hq.
  destruct (markMessageProcessed (messageId msg) w) as [[[]|e] w1]; simpl in *.
  - eapply quiet_trans; [exact Hq|apply quiet_markAsRead].
  - exact Hq.
Qed.

Lemma consume_ok folder msg w :
  diskWritable w = true → imapUp w = true →
  (consume folder msg w).1 = Normal tt
  ∧ messageId msg ∈ processedIds (currentStore (consume folder msg w).2)
  ∧ isSeen (uid msg) (consume folder msg w).2 = true.
Proof.
  intros Hdisk Hup. rewrite consume_eq.
  destruct (markMessageProcessed_ok (messageId msg) w Hdisk) as [Hok Hin].
  pose proof (markMessageProcessed_frame (messageId msg) w) as Hframe.
  destruct (markMessageProcessed (messageId msg) w) as [c w1]; simpl in *.
  subst c. injection Hframe as _ Hup1 _ _ _. rewrite Hup in Hup1.
  destruct (markAsRead_props folder (uid msg) w1) as (Hc & _ & _ & Hgood & _).
  destruct (Hgood Hup1) as [Hn Hseen].
  split; [done|]. split; [by rewrite Hc|done].
Qed.

(** ** Sending *)

Lemma sendEmail_eq opts w :
  sendEmail opts w
  = (Normal
       match smtpServer w (length (outbox w)) (se_transporter opts)
               (buildMessageOptions opts) with
       | Delivered id => {| ok := true; sentMessageId := Some id; error := None |}
       | Rejected e =>
           {| ok := false; sentMessageId := None; error := Some (errorText e) |}
       end,
     withSubmission (se_transporter opts) (buildMessageOptions opts) w).
Proof.
  unfold sendEmail, tryCatch, mbind, Eff_bind, bind, sendMail.
  by destruct (smtpServer w _ _ _).
Qed.

Lemma recordReply_frame sender w :
  surroundings (recordReply sender w).2 = surroundings w.
Proof.
  unfold recordReply, mbind, Eff_bind, bind. rewrite loadState_eq.
  unfold dateNow, modify. simpl.
  destruct (readsInherited _ _); simpl; [apply loaded_frame|].
  match goal with |- surroundings (saveState ?s ?v).2 = _ =>
    destruct (saveState_frame s v) as (Hs & _); rewrite Hs
  end.
  simpl. apply loaded_frame.
Qed.

Lemma replyClosure_frame account msg text w :
  surroundings (replyClosure account msg text w).2 = surroundings w.
Proof.
  unfold replyClosure, mbind, Eff_bind, bind, getSmtpTransporter, dateNow,
    randomDigits.
  destruct (transporterCache w !! _); simpl; rewrite sendEmail_eq; simpl.
  all: match goal with |- context [ok ?r] => destruct (ok r) end.
  all: match goal with
       | |- context [recordReply ?s ?v] =>
           pose proof (recordReply_frame s v) as Hf;
           destruct (recordReply s v) as [[[]|e] w1]; simpl in *; by rewrite Hf
       | |- _ => done
       end.
Qed.

Lemma runResponder_frame (reply : string → Eff SendResult) (r : Responder) :
  (∀ text w, surroundings (reply text w).2 = surroundings w) →
  ∀ w, surroundings (runResponder reply r w).2 = surroundings w.
Proof.
  intros Hreply. induction r as [|e|text next IH]; intros w; simpl; [done..|].
  specialize (Hreply text w).
  destruct (reply text w) as [c w1]. simpl in Hreply.
  by rewrite IH.
Qed.

Lemma runResponder_neverRejects (reply : string → Eff SendResult) (r : Responder) :
  neverRejects r → ∀ w, (runResponder reply r w).1 = Normal tt.
Proof.
  induction 1 as [|text next _ IH]; intros w; simpl; [done|].
  destruct (reply text w) as [c w1]. apply IH.
Qed.

(** ** Processing one message *)

Lemma loaded_idem w : loaded (loaded w) = loaded w.
Proof. unfold loaded at 1. by rewrite stateCache_loaded. Qed.

Lemma checkRateLimit_eq sender ceiling w :
  checkRateLimit sender ceiling w
  = (if readsInherited (rateLimits (currentStore w)) sender
     then Abrupt (notAFunction "timestamps.filter")
     else Normal (Z.of_nat (length (recentTimestamps (clock w (clockReads w))
                                      (timestampsOf sender (currentStore w))))
                  <? ceiling),
     withClockRead (loaded w)).
Proof.
  unfold checkRateLimit, mbind, Eff_bind, bind. rewrite loadState_eq.
  unfold dateNow, mret, Eff_ret, pure, timestampsOf.
  destruct (loaded_frame w) as (_ & _ & _ & _ & -> & ->).
  by destruct (readsInherited _ _).
Qed.

Lemma readsInherited_own limits sender timestamps :
  limits !! sender = Some timestamps → readsInherited limits sender = false.
Proof.
  intros Hown. unfold readsInherited.
  rewrite bool_decide_eq_false_2; [done|]. by rewrite Hown.
Qed.

Lemma processEmail_eq runtime account maxReplies folder msg w :
  processEmail runtime account maxReplies folder msg w
  = match firstMatchingRule account maxReplies msg w with
    | Some AlreadyProcessed => (Normal tt, loaded w)
    | Some OwnAddress | Some AutoReply | Some IgnoredSender =>
        consume folder msg (loaded w)
    | Some RateLimited => consume folder msg (withClockRead (loaded w))
    | None =>
        if readsInherited (rateLimits (currentStore w)) (from msg)
        then (Abrupt (notAFunction "timestamps.filter"), withClockRead (loaded w))
        else (processInbound runtime account msg;; consume folder msg)
               (withClockRead (loaded w))
    end.
Proof.
  unfold processEmail, firstMatchingRule, isMessageProcessed, mbind, Eff_bind, bind.
  rewrite loadState_eq. unfold mret, Eff_ret, pure.
  destruct (Js.arrayIncludes (processedIds (currentStore w)) (messageId msg)); [done|].
  destruct (bool_decide (Js.toLowerCase (from msg) = Js.toLowerCase (email account)));
    [done|].
  destruct (isAutoReply msg); [done|].
  destruct (isIgnoredSender (from msg)); [done|].
  rewrite checkRateLimit_eq.
  rewrite currentStore_loaded.
  destruct (loaded_frame w) as (_ & _ & _ & _ & -> & ->).
  unfold timestampsOf. rewrite loaded_idem.
  destruct (readsInherited (rateLimits (currentStore w)) (from msg)); [done|].
  by destruct (_ <? maxReplies).
Qed.

Lemma quiet_clockRead w : quiet w (withClockRead (loaded w)).
Proof.
  destruct (quiet_loaded w) as (Hr & Ho & Ht). repeat split; [done..|].
  intros sender. apply Ht.
Qed.

Lemma processInbound_props runtime account msg v :
  let r := processInbound runtime account msg v in
  diskWritable r.2 = diskWritable v
  ∧ imapUp r.2 = imapUp v
  ∧ responderCalls r.2 = responderCalls v ++ [inboundContext account msg]
  ∧ (neverRejects (runtime (inboundContext account msg)) → r.1 = Normal tt).
Proof.
  unfold processInbound, mbind, Eff_bind, bind, modify. simpl.
  set (v1 := withResponderCall (inboundContext account msg) v).
  pose proof (runResponder_frame (replyClosure account msg)
                (runtime (inboundContext account msg))
                (replyClosure_frame account msg) v1) as Hf.
  injection Hf as Hd Hu Hr _ _.
  repeat split; [done..|].
  intros Hnever. by apply runResponder_neverRejects.
Qed.

Lemma isAutoReplyAsSpecified_isAutoReply msg :
  isAutoReplyAsSpecified msg = true → isAutoReply msg = true.
Proof.
  unfold isAutoReplyAsSpecified. intros Hspec.
  apply existsb_exists in Hspec as (header & Hin & Hmatch).
  apply isAutoReply_iff.
  destruct (headers msg !! header) as [value|] eqn:Hvalue; [|done].
  apply andb_true_iff in Hmatch as [Htruthy _].
  exists header, value. split; [by apply list_elem_of_In|].
  split; [done|]. by apply truthy_true.
Qed.

Lemma isIgnoredSenderAsSpecified_isIgnoredSender sender :
  isIgnoredSenderAsSpecified sender = true → isIgnoredSender sender = true.
Proof.
  unfold isIgnoredSenderAsSpecified, isIgnoredSender. cbv zeta.
  generalize (Js.toLowerCase sender) as s. intros s.
  cbn [existsb].
  generalize (Js.startsWith s "noreply@"), (Js.startsWith s "no-reply@"),
    (Js.startsWith s "mailer-daemon@"), (Js.startsWith s "postmaster@"),
    (Js.startsWith s "bounce"), (Js.startsWith s "notification@"),
    (Js.startsWith s "notifications@"), (Js.startsWith s "donotreply@"),
    (Js.startsWith s "do-not-reply@"), (Js.includes s "@").
  intros [] [] [] [] [] [] [] [] [] []; done.
Qed.

(** What the code does with a message that a rule of the specification
    matches: it takes one of its own skipping branches, the same kind
    (the first, or one of the other four), unless the rule is the rate
    limit under a ceiling below 1 and the sender reads an inherited
    property, in which case [checkRateLimit] throws. *)
Lemma firstMatchingRule_of_specified account maxReplies msg w rule :
  ruleAsSpecified account maxReplies msg w = Some rule →
  (rule = AlreadyProcessed
   ∧ firstMatchingRule account maxReplies msg w = Some AlreadyProcessed)
  ∨ (rule ≠ AlreadyProcessed
     ∧ ((∃ rule', firstMatchingRule account maxReplies msg w = Some rule'
                  ∧ rule' ≠ AlreadyProcessed)
        ∨ (rule = RateLimited
           ∧ maxReplies ≤ 0
           ∧ firstMatchingRule account maxReplies msg w = None
           ∧ readsInherited (rateLimits (currentStore w)) (from msg) = true))).
Proof.
  unfold ruleAsSpecified, firstMatchingRule. rewrite loadState_eq.
  destruct (Js.arrayIncludes (processedIds (currentStore w)) (messageId msg)).
  { intros [= <-]. by left. }
  destruct (bool_decide (Js.toLowerCase (from msg) = Js.toLowerCase (email account))).
  { intros [= <-]. right. split; [done|]. left. by eexists. }
  destruct (isAutoReplyAsSpecified msg) eqn:Hauto.
  { intros [= <-]. right. split; [done|]. left.
    rewrite (isAutoReplyAsSpecified_isAutoReply _ Hauto). by eexists. }
  destruct (isIgnoredSenderAsSpecified (from msg)) eqn:Hignored.
  { intros [= <-]. right. split; [done|]. left.
    rewrite (isIgnoredSenderAsSpecified_isIgnoredSender _ Hignored).
    destruct (isAutoReply msg); by eexists. }
  fold (timestampsOf (from msg) (currentStore w)).
  destruct (Z.leb_spec maxReplies
              (Z.of_nat (length (recentTimestamps (clock w (clockReads w))
                                   (timestampsOf (from msg) (currentStore w))))))
    as [Hfull|Hroom]; [|done].
  intros [= <-]. right. split; [done|].
  destruct (isAutoReply msg); [left; by eexists|].
  destruct (isIgnoredSender (from msg)); [left; by eexists|].
  destruct (readsInherited (rateLimits (currentStore w)) (from msg)) eqn:Hread.
  - right. split; [done|]. split; [|done].
    unfold readsInherited in Hread. apply andb_true_iff in Hread as [Hnone _].
    apply bool_decide_eq_true in Hnone.
    unfold timestampsOf in Hfull. rewrite Hnone in Hfull. simpl in Hfull. lia.
  - left. destruct (Z.ltb_spec
                      (Z.of_nat (length (recentTimestamps (clock w (clockReads w))
                                           (timestampsOf (from msg) (currentStore w)))))
                      maxReplies); [lia|by eexists].
Qed.

(** Every skipping branch but the first. *)
Lemma processEmail_skips runtime account maxReplies folder msg w rule :
  firstMatchingRule account maxReplies msg w = Some rule →
  rule ≠ AlreadyProcessed →
  let result := processEmail runtime account maxReplies folder msg w in
  responderCalls result.2 = responderCalls w
  ∧ outbox result.2 = outbox w
  ∧ (diskWritable w = true → imapUp w = true →
     result.1 = Normal tt
     ∧ messageId msg ∈ processedIds (currentStore result.2)
     ∧ isSeen (uid msg) result.2 = true).
Proof.
  intros Hrule Hnot result. subst result. rewrite processEmail_eq, Hrule.
  destruct (loaded_frame w) as (Hs & _). injection Hs as Hd1 Hu1 _ _ _.
  assert (Hgoal : ∀ v, quiet w v → diskWritable v = diskWritable w →
                       imapUp v = imapUp w →
            responderCalls (consume folder msg v).2 = responderCalls w
            ∧ outbox (consume folder msg v).2 = outbox w
            ∧ (diskWritable w = true → imapUp w = true →
               (consume folder msg v).1 = Normal tt
               ∧ messageId msg ∈ processedIds (currentStore (consume folder msg v).2)
               ∧ isSeen (uid msg) (consume folder msg v).2 = true)).
  { intros v Hq Hd Hu.
    destruct (quiet_trans _ _ _ Hq (quiet_consume folder msg v)) as (Hr & Ho & _).
    split; [done|]. split; [done|]. intros Hdisk Hup.
    destruct (consume_ok folder msg v) as (Hn & Hin & Hseen); [congruence..|].
    done. }
  destruct rule; [done|..].
  - apply Hgoal; [apply quiet_loaded|done..].
  - apply Hgoal; [apply quiet_loaded|done..].
  - apply Hgoal; [apply quiet_loaded|done..].
  - apply Hgoal; [apply quiet_clockRead|done..].
Qed.

(** C1, as the code has it. Whenever one of the five rules of the
    specification matches, processing short-circuits and the responder is
    not invoked. When the first rule that matches is rule 1 (the id is
    already in [processedIds]) processing returns at once: besides loading
    the state nothing changes, so nothing is recorded and the message is
    not flagged seen. When it is one of rules 2 to 5 no mail is submitted
    either, and, provided the state file and the mailbox accept the updates
    (and, for rule 5, the ceiling is at least 1), the id is recorded in
    [processedIds] and the message is flagged seen. *)
Theorem processEmail_filter_pipeline runtime account (maxReplies : Z) folder msg
    (w : World) :
  let result := processEmail runtime account maxReplies folder msg w in
  match ruleAsSpecified account maxReplies msg w with
  | Some AlreadyProcessed =>
      result = (Normal tt, loaded w)
      ∧ messageId msg ∈ processedIds (currentStore w)
      ∧ responderCalls result.2 = responderCalls w
      ∧ outbox result.2 = outbox w
      ∧ currentStore result.2 = currentStore w
      ∧ diskWrites result.2 = diskWrites w
      ∧ mailbox result.2 = mailbox w
      ∧ imapLog result.2 = imapLog w
  | Some rule =>
      responderCalls result.2 = responderCalls w
      ∧ outbox result.2 = outbox w
      ∧ (diskWritable w = true → imapUp w = true →
         (rule = RateLimited → 1 ≤ maxReplies) →
         result.1 = Normal tt
         ∧ messageId msg ∈ processedIds (currentStore result.2)
         ∧ isSeen (uid msg) result.2 = true)
  | None => True
  end.
Proof.
  intros result.
  destruct (ruleAsSpecified account maxReplies msg w) as [rule|] eqn:Hspec;
    [|done].
  destruct (firstMatchingRule_of_specified _ _ _ _ _ Hspec)
    as [[-> Hcode]|[Hnot [(rule' & Hcode & Hnot')|(-> & Hlow & Hcode & Hread)]]].
  - subst result. rewrite processEmail_eq, Hcode. split; [done|].
    split.
    { unfold ruleAsSpecified in Hspec.
      destruct (Js.arrayIncludes (processedIds (currentStore w)) (messageId msg))
        eqn:Hin; [by apply arrayIncludes_true|].
      repeat case_match; discriminate. }
    simpl. rewrite currentStore_loaded.
    destruct (loaded_frame w) as (Hs & Ho & _ & Hwrites & _).
    injection Hs as _ _ Hcalls Hbox Hlog. done.
  - destruct (processEmail_skips runtime account maxReplies folder msg w rule'
                Hcode Hnot') as (Hr & Ho & Hio).
    fold result in Hr, Ho, Hio.
    destruct rule; [done|..]; (split; [done|]); (split; [done|]);
      intros Hdisk Hup _; by apply Hio.
  - subst result. rewrite processEmail_eq, Hcode, Hread. simpl.
    destruct (quiet_loaded w) as (Hr & Ho & _).
    split; [done|]. split; [done|].
    intros _ _ Hceiling. specialize (Hceiling eq_refl). lia.
Qed.

Lemma processEmail_filter_pipeline_witness :
  let w := Samples.world (Samples.storeWith [] ∅) [Samples.unseen 7 "a"] 0
             (Delivered "<r@x>") in
  let msg := Samples.message "<m1@x>" "noreply@vendor.com" 7 ∅ None in
  let result := processEmail Samples.repliesOnce Samples.bot 5 "INBOX" msg w in
  result.1 = Normal tt
  ∧ "<m1@x>" ∈ processedIds (currentStore result.2)
  ∧ isSeen 7 result.2 = true.
Proof.
  intros w msg result.
  destruct (processEmail_filter_pipeline Samples.repliesOnce Samples.bot 5 "INBOX"
              msg w) as (_ & _ & Hio).
  apply Hio; [reflexivity|reflexivity|discriminate].
Defined.

(** C1, as stated, fails for rule 1: a message whose id is already in
    [processedIds] but which is still unseen in the mailbox is skipped
    without being flagged seen. *)
Lemma processEmail_filter_pipeline_counterexample :
  let w := Samples.world (Samples.storeWith ["<m1@x>"] ∅) [Samples.unseen 7 "a"] 0
             (Delivered "<r@x>") in
  let msg := Samples.message "<m1@x>" "alice@example.com" 7 ∅ None in
  let result := processEmail Samples.repliesOnce Samples.bot 5 "INBOX" msg w in
  ruleAsSpecified Samples.bot 5 msg w = Some AlreadyProcessed
  ∧ isSeen 7 w = false
  ∧ isSeen 7 result.2 = false
  ∧ imapLog result.2 = [].
Proof. vm_compute. done. Qed.

Lemma recentTimestamps_old now before ts after :
  RATE_LIMIT_WINDOW_MS ≤ now - ts →
  recentTimestamps now (before ++ ts :: after) = recentTimestamps now (before ++ after).
Proof.
  intros Hold. unfold recentTimestamps.
  rewrite !filter_app. f_equal.
  rewrite filter_cons_False; [done|].
  unfold withinWindow. intros H. apply Z.ltb_lt in H. lia.
Qed.

(** C2. When the sender's reply timestamps that lie within the window,
    at the time of the check, number at least the ceiling, processing the
    message invokes no responder, submits no mail and leaves the sender
    with no timestamp it did not have before. And a timestamp at least a
    window old at the time of a check is not counted by it. *)
Theorem rate_limited_sender_is_skipped runtime account (maxReplies : Z) folder msg
    (w : World) :
  let now := clock w (clockReads w) in
  maxReplies ≤ Z.of_nat (length (recentTimestamps now
                                   (timestampsOf (from msg) (currentStore w)))) →
  let w' := (processEmail runtime account maxReplies folder msg w).2 in
  responderCalls w' = responderCalls w
  ∧ outbox w' = outbox w
  ∧ timestampsOf (from msg) (currentStore w')
    `sublist_of` timestampsOf (from msg) (currentStore w)
  ∧ (∀ sender ceiling before ts after,
       rateLimits (currentStore w) !! sender = Some (before ++ ts :: after) →
       RATE_LIMIT_WINDOW_MS ≤ now - ts →
       (checkRateLimit sender ceiling w).1
       = Normal (Z.of_nat (length (recentTimestamps now (before ++ after)))
                 <? ceiling)).
Proof.
  intros now Hfull w'. subst w'.
  assert (Hquiet : quiet w (processEmail runtime account maxReplies folder msg w).2).
  { rewrite processEmail_eq.
    destruct (firstMatchingRule account maxReplies msg w) as [rule|] eqn:Hrule.
    - destruct rule.
      + apply quiet_loaded.
      + eapply quiet_trans; [apply quiet_loaded|apply quiet_consume].
      + eapply quiet_trans; [apply quiet_loaded|apply quiet_consume].
      + eapply quiet_trans; [apply quiet_loaded|apply quiet_consume].
      + eapply quiet_trans; [apply quiet_clockRead|apply quiet_consume].
    - destruct (readsInherited (rateLimits (currentStore w)) (from msg)) eqn:Hread.
      { apply quiet_clockRead. }
      exfalso. unfold firstMatchingRule in Hrule.
      rewrite loadState_eq, Hread in Hrule.
      fold (timestampsOf (from msg) (currentStore w)) in Hrule. fold now in Hrule.
      destruct (Z.ltb_spec
                  (Z.of_nat (length (recentTimestamps now
                                       (timestampsOf (from msg) (currentStore w)))))
                  maxReplies); [lia|].
      repeat case_match; discriminate. }
  destruct Hquiet as (Hr & Ho & Ht).
  split; [done|]. split; [done|]. split; [apply Ht|].
  intros sender ceiling before ts after Hlookup Hold.
  rewrite checkRateLimit_eq, (readsInherited_own _ _ _ Hlookup). simpl.
  unfold timestampsOf. rewrite Hlookup. simpl.
  fold now. by rewrite recentTimestamps_old.
Qed.

Lemma rate_limited_sender_is_skipped_witness :
  let limits : gmap string (list Z) :=
    {[ "alice@example.com" := [100; 4000000; 4100000] ]} in
  let w := Samples.world (Samples.storeWith [] limits) [Samples.unseen 7 "a"]
             4200000 (Delivered "<r@x>") in
  let msg := Samples.message "<m1@x>" "alice@example.com" 7 ∅ None in
  let w' := (processEmail Samples.repliesOnce Samples.bot 2 "INBOX" msg w).2 in
  (responderCalls w' = [] ∧ outbox w' = [])
  ∧ (checkRateLimit "alice@example.com" 3 w).1 = Normal true.
Proof.
  intros limits w msg w'.
  destruct (rate_limited_sender_is_skipped Samples.repliesOnce Samples.bot 2
              "INBOX" msg w) as (Hr & Ho & _ & Hold).
  - vm_compute. discriminate.
  - split; [split; [exact Hr|exact Ho]|].
    rewrite (Hold "alice@example.com" 3 [] 100 [4000000; 4100000]).
    + reflexivity.
    + reflexivity.
    + vm_compute. discriminate.
Defined.

(** C6. [sendEmail] always completes normally: with [ok = true] and the
    transport's message id when the submission is accepted; with
    [ok = false] and, in [error], the message of the error the transport
    failed with (the string image of any other value thrown) when it is
    rejected. And a message that [processEmail] hands to the responder is
    recorded in [processedIds] once the responder has resolved, whatever
    the transport did with the replies, provided the state file and the
    mailbox accept the updates. *)
Theorem sendEmail_never_throws (opts : SendEmailOptions) (w : World) :
  (∃ result,
     (sendEmail opts w).1 = Normal result
     ∧ match smtpServer w (length (outbox w)) (se_transporter opts)
               (buildMessageOptions opts) with
       | Delivered id =>
           result = {| ok := true; sentMessageId := Some id; error := None |}
       | Rejected (ThrownError message) =>
           result = {| ok := false; sentMessageId := None;
                       error := Some message |}
       | Rejected (ThrownValue image) =>
           result = {| ok := false; sentMessageId := None;
                       error := Some image |}
       end)
  ∧ (∀ runtime account maxReplies folder msg,
       diskWritable w = true →
       imapUp w = true →
       firstMatchingRule account maxReplies msg w = None →
       readsInherited (rateLimits (currentStore w)) (from msg) = false →
       neverRejects (runtime (inboundContext account msg)) →
       let result := processEmail runtime account maxReplies folder msg w in
       result.1 = Normal tt
       ∧ messageId msg ∈ processedIds (currentStore result.2)).
Proof.
  split.
  - rewrite sendEmail_eq. eexists. split; [reflexivity|].
    by destruct (smtpServer w _ _ _) as [id|[message|image]].
  - intros runtime account maxReplies folder msg Hdisk Hup Hrule Hread Hnever result.
    subst result. rewrite processEmail_eq, Hrule, Hread.
    unfold mbind, Eff_bind, bind.
    destruct (processInbound_props runtime account msg (withClockRead (loaded w)))
      as (Hd & Hu & _ & Hn).
    specialize (Hn Hnever).
    destruct (loaded_frame w) as (Hs & _). injection Hs as Hd1 Hu1 _ _ _.
    destruct (processInbound runtime account msg (withClockRead (loaded w)))
      as [c w1]; simpl in *. subst c.
    destruct (consume_ok folder msg w1) as (Hok & Hin & _); [congruence..|].
    done.
Qed.

Lemma sendEmail_never_throws_witness :
  let w := Samples.world (Samples.storeWith [] ∅) [Samples.unseen 7 "a"] 0
             (Rejected (ThrownError "ECONNREFUSED")) in
  let msg := Samples.message "<m1@x>" "alice@example.com" 7 ∅ None in
  let result := processEmail Samples.repliesOnce Samples.bot 5 "INBOX" msg w in
  result.1 = Normal tt
  ∧ "<m1@x>" ∈ processedIds (currentStore result.2)
  ∧ length (outbox result.2) = 1%nat
  ∧ timestampsOf "alice@example.com" (currentStore result.2) = [].
Proof.
  intros w msg result.
  destruct (sendEmail_never_throws
              {| se_transporter :=
                   {| so_host := "smtp.example.com"; so_port := 587;
                      so_user := "bot@example.com"; so_password := "secret";
                      so_tls := false; so_startTls := true |};
                 se_from := "bot@example.com"; se_fromName := None;
                 se_to := "alice@example.com"; se_subject := "Re: Question";
                 se_text := "Thanks for your message."; se_html := None;
                 se_threadInfo := None; se_signature := None |} w)
    as [_ Hcaller].
  destruct (Hcaller Samples.repliesOnce Samples.bot 5 "INBOX" msg)
    as [Hn Hin].
  - reflexivity.
  - reflexivity.
  - vm_compute. reflexivity.
  - vm_compute. reflexivity.
  - apply neverRejects_reply. intros c. apply neverRejects_resolves.
  - split; [exact Hn|]. split; [exact Hin|].
    vm_compute. split; reflexivity.
Defined.

(** * Properties of the further code *)

(** ** What a save keeps *)

Lemma purgeRateLimits_lookup now limits sender kept :
  purgeRateLimits now limits !! sender = Some kept →
  ∃ old, limits !! sender = Some old
         ∧ kept = recentTimestamps now old ∧ kept ≠ [].
Proof.
  unfold purgeRateLimits. rewrite lookup_omap.
  destruct (limits !! sender) as [old|]; simpl; [|discriminate].
  destruct (recentTimestamps now old) as [|ts rest] eqn:Hrecent; [discriminate|].
  intros [= <-]. exists old. by rewrite Hrecent.
Qed.

Lemma timestampsOf_purged now (limits : gmap string (list Z)) sender :
  default [] (purgeRateLimits now limits !! sender)
  = recentTimestamps now (default [] (limits !! sender)).
Proof.
  unfold purgeRateLimits. rewrite lookup_omap.
  destruct (limits !! sender) as [old|]; simpl; [|done].
  by destruct (recentTimestamps now old).
Qed.

(** X1. After [saveState], whether or not the write succeeds, every
    sender left in [rateLimits] has a non-empty list, which is its former
    list filtered to the timestamps less than a window older than the
    save-time clock reading; no sender is added. *)
Theorem saveState_purges_rateLimits (state : ProcessedMessageStore) (w : World) :
  let now := clock w (clockReads w) in
  let saved := currentStore (saveState state w).2 in
  ∀ sender kept,
    rateLimits saved !! sender = Some kept →
    kept ≠ []
    ∧ (∀ ts, ts ∈ kept → now - ts < RATE_LIMIT_WINDOW_MS)
    ∧ ∃ old, rateLimits state !! sender = Some old
             ∧ kept = recentTimestamps now old.
Proof.
  intros now saved sender kept. subst saved.
  rewrite currentStore_saveState. simpl. fold now.
  intros (old & Hold & -> & Hne)%purgeRateLimits_lookup.
  split; [done|]. split; [|by exists old].
  intros ts [Hin _]%list_elem_of_filter.
  unfold withinWindow in Hin. by apply Z.ltb_lt.
Qed.

Lemma saveState_purges_rateLimits_witness :
  rateLimits
    (currentStore
       (saveState
          (Samples.storeWith []
             {[ "alice@example.com" := [100; 4000000];
                "bob@example.com" := [200] ]})
          (Samples.world emptyStore [] 4200000 (Delivered "<r@x>"))).2)
  !! "alice@example.com"
  = Some [4000000].
Proof.
  set (st := Samples.storeWith []
               {[ "alice@example.com" := [100; 4000000];
                  "bob@example.com" := [200] ]}).
  set (w := Samples.world emptyStore [] 4200000 (Delivered "<r@x>")).
  assert (Hl : ∃ kept, rateLimits (currentStore (saveState st w).2)
                       !! "alice@example.com" = Some kept).
  { vm_compute. by eexists. }
  destruct Hl as [kept Hl].
  destruct (saveState_purges_rateLimits st w _ _ Hl) as (_ & _ & old & Hold & ->).
  rewrite Hl. vm_compute in Hold. injection Hold as <-. reflexivity.
Defined.

(** ** Persistence *)

Lemma currentStore_restarted w :
  currentStore (restarted w)
  = match stateFile w with
    | FileStore s => s
    | FileAbsent | FileUnreadable => emptyStore
    end.
Proof. reflexivity. Qed.



Lemma isMessageProcessed_eq id w :
  isMessageProcessed id w
  = (Normal (Js.arrayIncludes (processedIds (currentStore w)) id), loaded w).
Proof.
  unfold isMessageProcessed, mbind, Eff_bind, bind. by rewrite loadState_eq.
Qed.

Lemma markMessageProcessed_file id w :
  diskWritable w = true →
  id ∉ processedIds (currentStore w) →
  stateFile (markMessageProcessed id w).2
  = FileStore (currentStore (markMessageProcessed id w).2).
Proof.
  intros Hdisk Hnew. apply arrayIncludes_false in Hnew.
  rewrite markMessageProcessed_eq. cbv zeta. rewrite Hnew.
  rewrite saveState_eq. cbv zeta. simpl.
  destruct (loaded_frame w) as (Hs & _). injection Hs as -> _ _ _ _.
  by rewrite Hdisk.
Qed.

(** X3. An id that has been marked is reported as processed by the same
    process even when the write failed; and when the id was new and the
    write went through it is still reported as processed after a restart. *)
Theorem markMessageProcessed_then_isMessageProcessed (id : string) (w : World) :
  let w' := (markMessageProcessed id w).2 in
  (isMessageProcessed id w').1 = Normal true
  ∧ (diskWritable w = true → id ∉ processedIds (currentStore w) →
     (isMessageProcessed id (restarted w')).1 = Normal true).
Proof.
  intros w'. subst w'.
  assert (Hin : id ∈ processedIds (currentStore (markMessageProcessed id w).2)).
  { rewrite markMessageProcessed_ids.
    destruct (Js.arrayIncludes (processedIds (currentStore w)) id) eqn:Hin.
    - by apply arrayIncludes_true.
    - apply trimProcessedIds_last. }
  split.
  - rewrite isMessageProcessed_eq. simpl. f_equal. by apply arrayIncludes_true.
  - intros Hdisk Hnew. rewrite isMessageProcessed_eq. simpl. f_equal.
    apply arrayIncludes_true. rewrite currentStore_restarted.
    by rewrite (markMessageProcessed_file id w Hdisk Hnew).
Qed.

Lemma markMessageProcessed_then_isMessageProcessed_witness :
  (isMessageProcessed "<m2@x>"
     (restarted
        (markMessageProcessed "<m2@x>"
           (Samples.world (Samples.storeWith ["<m1@x>"] ∅) [] 0
              (Delivered "<r@x>"))).2)).1
  = Normal true.
Proof.
  destruct (markMessageProcessed_then_isMessageProcessed "<m2@x>"
              (Samples.world (Samples.storeWith ["<m1@x>"] ∅) [] 0
                 (Delivered "<r@x>"))) as [_ Hrestart].
  apply Hrestart; [reflexivity|].
  apply (bool_decide_unpack _). vm_compute. exact I.
Defined.

(** X4. Marking a new id appends it when the store holds fewer than
    [MAX_PROCESSED_IDS] ids. When the store is full the new id is appended
    and the oldest id is dropped, so that, in a duplicate-free store, the
    oldest message is no longer known as processed. *)
Theorem markMessageProcessed_evicts_oldest (id : string) (w : World) :
  let ids := processedIds (currentStore w) in
  let ids' := processedIds (currentStore (markMessageProcessed id w).2) in
  id ∉ ids →
  (Z.of_nat (length ids) < MAX_PROCESSED_IDS → ids' = ids ++ [id])
  ∧ (Z.of_nat (length ids) = MAX_PROCESSED_IDS →
     ids' = drop 1 ids ++ [id]
     ∧ ∀ oldest rest, ids = oldest :: rest → NoDup ids → oldest ∉ ids').
Proof.
  intros ids ids' Hnew. subst ids'.
  rewrite markMessageProcessed_ids. fold ids.
  apply arrayIncludes_false in Hnew as Hinc. rewrite Hinc.
  unfold trimProcessedIds. rewrite length_app. simpl.
  split; intros Hlen.
  - destruct (Z.ltb_spec MAX_PROCESSED_IDS (Z.of_nat (length ids + 1))); [lia|done].
  - destruct (Z.ltb_spec MAX_PROCESSED_IDS (Z.of_nat (length ids + 1))); [|lia].
    rewrite sliceFrom_neg_drop by done.
    rewrite length_app. simpl.
    replace (length ids + 1 - Z.to_nat MAX_PROCESSED_IDS)%nat with 1%nat by lia.
    assert (Hdrop : drop 1 (ids ++ [id]) = drop 1 ids ++ [id]).
    { destruct ids; [|done]. simpl in Hlen.
      unfold MAX_PROCESSED_IDS in Hlen. lia. }
    split; [done|].
    intros oldest rest Hids Hnd. rewrite Hdrop, Hids. simpl.
    rewrite Hids in Hnd, Hnew. apply NoDup_cons in Hnd as [Hnotin _].
    intros [Hin|Hin%list_elem_of_singleton]%elem_of_app; [done|].
    subst id. apply Hnew. by left.
Qed.

Lemma markMessageProcessed_evicts_oldest_witness :
  processedIds (currentStore
    (markMessageProcessed "<new@x>"
       (Samples.world
          (Samples.storeWith (replicate (Z.to_nat 10000) "<m@x>") ∅) [] 0
          (Delivered "<r@x>"))).2)
  = drop 1 (replicate (Z.to_nat 10000) "<m@x>") ++ ["<new@x>"]
  ∧ processedIds (currentStore
      (markMessageProcessed "<m2@x>"
         (Samples.world (Samples.storeWith ["<m1@x>"] ∅) [] 0
            (Delivered "<r@x>"))).2)
    = ["<m1@x>"; "<m2@x>"].
Proof.
  split.
  - destruct (markMessageProcessed_evicts_oldest "<new@x>"
                (Samples.world
                   (Samples.storeWith (replicate (Z.to_nat 10000) "<m@x>") ∅) [] 0
                   (Delivered "<r@x>"))) as [_ Hfull].
    + apply (bool_decide_unpack _). vm_compute. exact I.
    + destruct Hfull as [Heq _]; [vm_compute; reflexivity|]. exact Heq.
  - destruct (markMessageProcessed_evicts_oldest "<m2@x>"
                (Samples.world (Samples.storeWith ["<m1@x>"] ∅) [] 0
                   (Delivered "<r@x>"))) as [Happend _].
    + apply (bool_decide_unpack _). vm_compute. exact I.
    + apply Happend. vm_compute. reflexivity.
Defined.

(** ** Reply bookkeeping *)

Lemma recordReply_inherited sender w :
  readsInherited (rateLimits (currentStore w)) sender = true →
  recordReply sender w
  = (Abrupt (notAFunction "state.rateLimits[sender].push"),
     withClockRead (loaded w)).
Proof.
  intros Hread. unfold recordReply, mbind, Eff_bind, bind.
  rewrite loadState_eq. unfold dateNow. by rewrite Hread.
Qed.

Lemma recordReply_store sender w :
  readsInherited (rateLimits (currentStore w)) sender = false →
  currentStore (recordReply sender w).2
  = savedStore (clock w (S (clockReads w)))
      {| processedIds := processedIds (currentStore w);
         rateLimits := <[sender := timestampsOf sender (currentStore w)
                                   ++ [clock w (clockReads w)]]>
                         (rateLimits (currentStore w));
         lastPollTime := lastPollTime (currentStore w) |}.
Proof.
  intros Hread. unfold recordReply, mbind, Eff_bind, bind. rewrite loadState_eq.
  unfold dateNow, modify. rewrite Hread. simpl.
  rewrite currentStore_saveState. simpl.
  destruct (loaded_frame w) as (_ & _ & _ & _ & -> & ->). done.
Qed.

(** X5. For a sender with an entry of its own, or one not called like a
    property of [Object.prototype], [recordReply] pushes the current
    clock reading onto the sender's list and then saves: afterwards each
    sender's list is its former list (with the new reading for the sender
    replied to) filtered to the window around the save-time reading, and
    the processed ids are only trimmed; in particular the new reading is
    kept when the save happens less than a window after it. For a sender
    that reads an inherited property, such as "constructor", the call
    throws before anything is pushed or saved. *)
Theorem recordReply_pushes_timestamp (sender : string) (w : World) :
  let pushed := clock w (clockReads w) in
  let saveTime := clock w (S (clockReads w)) in
  let before := currentStore w in
  let after := currentStore (recordReply sender w).2 in
  (readsInherited (rateLimits before) sender = false →
     timestampsOf sender after
     = recentTimestamps saveTime (timestampsOf sender before ++ [pushed])
     ∧ (∀ other, other ≠ sender →
          timestampsOf other after
          = recentTimestamps saveTime (timestampsOf other before))
     ∧ processedIds after = trimProcessedIds (processedIds before)
     ∧ (saveTime - pushed < RATE_LIMIT_WINDOW_MS →
        pushed ∈ timestampsOf sender after))
  ∧ (readsInherited (rateLimits before) sender = true →
     (recordReply sender w).1
     = Abrupt (notAFunction "state.rateLimits[sender].push")
     ∧ after = before
     ∧ stateFile (recordReply sender w).2 = stateFile w
     ∧ diskWrites (recordReply sender w).2 = diskWrites w).
Proof.
  intros pushed saveTime before after. subst after. split.
  - intros Hread. rewrite (recordReply_store _ _ Hread).
    fold pushed saveTime before.
    assert (Hsender :
      timestampsOf sender
        (savedStore saveTime
           {| processedIds := processedIds before;
              rateLimits := <[sender := timestampsOf sender before ++ [pushed]]>
                              (rateLimits before);
              lastPollTime := lastPollTime before |})
      = recentTimestamps saveTime (timestampsOf sender before ++ [pushed])).
    { unfold timestampsOf at 1. simpl. rewrite timestampsOf_purged.
      by rewrite lookup_insert_eq. }
    split; [exact Hsender|]. split; [|split; [done|]].
    + intros other Hne. unfold timestampsOf at 1. simpl.
      rewrite timestampsOf_purged. by rewrite lookup_insert_ne.
    + intros Hwin. rewrite Hsender. apply list_elem_of_filter. split.
      * unfold withinWindow. by apply Z.ltb_lt.
      * apply elem_of_app. right. by left.
  - intros Hread. rewrite (recordReply_inherited _ _ Hread). simpl.
    split; [done|]. split; [apply currentStore_loaded|].
    destruct (loaded_frame w) as (_ & _ & Hfile & Hwrites & _). done.
Qed.

Lemma recordReply_pushes_timestamp_witness :
  4200000 ∈ timestampsOf "alice@example.com"
    (currentStore
       (recordReply "alice@example.com"
          (Samples.world
             (Samples.storeWith [] {[ "alice@example.com" := [100] ]}) []
             4200000 (Delivered "<r@x>"))).2)
  ∧ (recordReply "constructor"
       (Samples.world (Samples.storeWith [] ∅) [] 4200000 (Delivered "<r@x>"))).1
    = Abrupt (notAFunction "state.rateLimits[sender].push").
Proof.
  split.
  - destruct (recordReply_pushes_timestamp "alice@example.com"
                (Samples.world
                   (Samples.storeWith [] {[ "alice@example.com" := [100] ]}) []
                   4200000 (Delivered "<r@x>"))) as [Hown _].
    destruct Hown as (_ & _ & _ & Hkept); [vm_compute; reflexivity|].
    apply Hkept. vm_compute. reflexivity.
  - destruct (recordReply_pushes_timestamp "constructor"
                (Samples.world (Samples.storeWith [] ∅) [] 4200000
                   (Delivered "<r@x>"))) as [_ Hinherited].
    apply Hinherited. vm_compute. reflexivity.
Defined.

(** ** Rate-limit status *)

Lemma minOf_le first others x : x ∈ first :: others → minOf first others ≤ x.
Proof.
  unfold minOf. induction others as [|y others IH]; simpl.
  - intros ->%list_elem_of_singleton. lia.
  - intros [->|[->|Hin]%elem_of_cons]%elem_of_cons.
    + assert (foldr Z.min first others ≤ first) by (apply IH; by left). lia.
    + lia.
    + assert (foldr Z.min first others ≤ x) by (apply IH; by right). lia.
Qed.

Lemma minOf_elem first others : minOf first others ∈ first :: others.
Proof.
  unfold minOf. induction others as [|y others IH]; simpl; [by left|].
  destruct (Z.min_spec y (foldr Z.min first others)) as [[_ ->]|[_ ->]].
  - right. by left.
  - apply elem_of_cons in IH as [->|Hin]; [by left|]. right. by right.
Qed.

Lemma getRateLimitStatus_eq spreadable sender w :
  getRateLimitStatus spreadable sender w
  = let now := clock w (clockReads w) in
    let recent := recentTimestamps now (timestampsOf sender (currentStore w)) in
    (if readsInherited (rateLimits (currentStore w)) sender
     then Abrupt (notAFunction "timestamps.filter")
     else match recent with
          | [] =>
              Normal {| count := 0; remaining := Z.max 0 (5 - 0);
                        resetMs := Z.max 0 ((now + RATE_LIMIT_WINDOW_MS) - now) |}
          | first :: others =>
              if spreadable (length recent)
              then Normal {| count := Z.of_nat (length recent);
                             remaining := Z.max 0 (5 - Z.of_nat (length recent));
                             resetMs := Z.max 0 ((minOf first others
                                                  + RATE_LIMIT_WINDOW_MS) - now) |}
              else Abrupt stackExceeded
          end,
     withClockRead (loaded w)).
Proof.
  unfold getRateLimitStatus, mbind, Eff_bind, bind. rewrite loadState_eq.
  unfold dateNow, mret, Eff_ret, pure, timestampsOf.
  destruct (loaded_frame w) as (_ & _ & _ & _ & -> & ->). cbv zeta.
  destruct (readsInherited _ _); [done|].
  destruct (recentTimestamps _ _) as [|first others]; [done|].
  unfold spreadMin, mret, Eff_ret, pure, throw. simpl.
  by destruct (spreadable _).
Qed.

(** X6. [getRateLimitStatus] reads the store and the clock as
    [checkRateLimit] does and throws where it throws, for a sender that
    reads an inherited property of the [rateLimits] object; it also
    throws when the engine refuses to spread the counted timestamps into
    the arguments of [Math.min]. Otherwise it returns a status whose
    [count] is what [checkRateLimit] compares with the ceiling, whose
    [remaining] is measured against the fixed figure 5, whatever ceiling
    the account has, and whose [resetMs] is a full window when nothing is
    counted, is positive when something is, and is at most a window
    unless a counted timestamp lies in the future. *)
Theorem getRateLimitStatus_agrees_with_checkRateLimit (spreadable : nat → bool)
    (sender : string) (w : World) :
  let now := clock w (clockReads w) in
  let recent := recentTimestamps now (timestampsOf sender (currentStore w)) in
  let run := getRateLimitStatus spreadable sender w in
  (∀ ceiling, run.2 = (checkRateLimit sender ceiling w).2)
  ∧ (readsInherited (rateLimits (currentStore w)) sender = true →
     run.1 = Abrupt (notAFunction "timestamps.filter")
     ∧ ∀ ceiling, (checkRateLimit sender ceiling w).1
                  = Abrupt (notAFunction "timestamps.filter"))
  ∧ (readsInherited (rateLimits (currentStore w)) sender = false →
     recent ≠ [] → spreadable (length recent) = false →
     run.1 = Abrupt stackExceeded)
  ∧ (readsInherited (rateLimits (currentStore w)) sender = false →
     recent = [] ∨ spreadable (length recent) = true →
     ∃ status,
       run.1 = Normal status
       ∧ (∀ ceiling, (checkRateLimit sender ceiling w).1
                     = Normal (count status <? ceiling))
       ∧ count status = Z.of_nat (length recent)
       ∧ remaining status = Z.max 0 (5 - count status)
       ∧ (count status = 0 → resetMs status = RATE_LIMIT_WINDOW_MS)
       ∧ (0 < count status → 0 < resetMs status)
       ∧ ((∀ ts, ts ∈ timestampsOf sender (currentStore w) → ts ≤ now) →
          resetMs status ≤ RATE_LIMIT_WINDOW_MS)).
Proof.
  intros now recent run. subst run.
  rewrite getRateLimitStatus_eq. cbv zeta. fold now. fold recent.
  split; [intros ceiling; by rewrite checkRateLimit_eq|].
  split; [|split].
  - intros Hread. simpl. rewrite Hread. split; [done|].
    intros ceiling. by rewrite checkRateLimit_eq, Hread.
  - intros Hread Hsome Hrefused. simpl. rewrite Hread.
    destruct recent as [|first others]; [done|]. by rewrite Hrefused.
  - intros Hread Hfits. simpl. rewrite Hread.
    assert (Hrecent : ∀ ts, ts ∈ recent →
              now - ts < RATE_LIMIT_WINDOW_MS
              ∧ ts ∈ timestampsOf sender (currentStore w)).
    { intros ts [Hin ?]%list_elem_of_filter. split; [|done].
      unfold withinWindow in Hin. by apply Z.ltb_lt. }
    assert (Hcheck : ∀ ceiling, (checkRateLimit sender ceiling w).1
                                = Normal (Z.of_nat (length recent) <? ceiling)).
    { intros ceiling. by rewrite checkRateLimit_eq, Hread. }
    destruct recent as [|first others] eqn:Hlist.
    + eexists. split; [reflexivity|]. simpl.
      split; [exact Hcheck|]. split; [done|]. split; [done|].
      split; [intros _; unfold RATE_LIMIT_WINDOW_MS; lia|].
      split; [lia|]. intros _. unfold RATE_LIMIT_WINDOW_MS. lia.
    + destruct Hfits as [|Hfits]; [done|]. rewrite Hfits.
      eexists. split; [reflexivity|]. cbn [count remaining resetMs].
      split; [exact Hcheck|]. split; [done|]. split; [done|].
      pose proof (minOf_elem first others) as Hmin.
      destruct (Hrecent _ Hmin) as [Hwin Hold].
      split; [simpl; lia|]. split; [lia|].
      intros Hpast. specialize (Hpast _ Hold). lia.
Qed.

Lemma getRateLimitStatus_agrees_with_checkRateLimit_witness :
  ∃ status,
    (getRateLimitStatus (fun n => n <? 1000)%nat "alice@example.com"
       (Samples.world
          (Samples.storeWith []
             {[ "alice@example.com" := [100; 4000000; 4100000] ]}) []
          4200000 (Delivered "<r@x>"))).1
    = Normal status
    ∧ count status = 2 ∧ remaining status = 3
    ∧ 0 < resetMs status ≤ RATE_LIMIT_WINDOW_MS.
Proof.
  destruct (getRateLimitStatus_agrees_with_checkRateLimit
              (fun n => n <? 1000)%nat "alice@example.com"
              (Samples.world
                 (Samples.storeWith []
                    {[ "alice@example.com" := [100; 4000000; 4100000] ]}) []
                 4200000 (Delivered "<r@x>")))
    as (_ & _ & _ & Hreturns).
  destruct Hreturns as (status & Heq & _ & Hcount & Hrem & _ & Hpos & Hbound).
  - vm_compute. reflexivity.
  - right. vm_compute. reflexivity.
  - exists status. split; [exact Heq|].
    assert (Hcount' : count status = 2).
    { rewrite Hcount. vm_compute. reflexivity. }
    split; [exact Hcount'|]. split; [rewrite Hrem, Hcount'; reflexivity|].
    split.
    + apply Hpos. rewrite Hcount'. reflexivity.
    + apply Hbound. intros ts Hts. vm_compute in Hts.
      apply (bool_decide_unpack _).
      repeat (apply elem_of_cons in Hts as [->|Hts]; [vm_compute; exact I|]).
      by apply elem_of_nil in Hts.
Defined.

(** ** Clearing *)

Lemma clearState_cases w :
  (diskWritable w = true ∨ stateFile w = FileAbsent →
   ∃ v, clearState w = (Normal tt, v)
        ∧ stateCache v = None ∧ stateFile v = FileAbsent
        ∧ clock v = clock w ∧ clockReads v = clockReads w)
  ∧ (diskWritable w = false → stateFile w ≠ FileAbsent →
     ∃ e, clearState w = (Abrupt e, withStateCache None w)).
Proof.
  unfold clearState, unlinkStateFile, mbind, Eff_bind, bind, modify.
  cbn [stateFile diskWritable withStateCache].
  split.
  - intros Hok. destruct (stateFile w) eqn:Hfile.
    + eexists. split; [reflexivity|]. by simpl.
    + destruct Hok as [->|]; [|done]. eexists. split; [reflexivity|]. by simpl.
    + destruct Hok as [->|]; [|done]. eexists. split; [reflexivity|]. by simpl.
  - intros -> Hfile. destruct (stateFile w); [done|by eexists..].
Qed.

Lemma currentStore_blank v :
  stateCache v = None → stateFile v = FileAbsent → currentStore v = emptyStore.
Proof. intros Hc Hf. unfold currentStore. by rewrite Hc, Hf. Qed.

(** X7. [clearState] drops the cache in any case. When the state file
    is absent or can be removed nothing is remembered afterwards, in this
    process or in one started later: no id is reported as processed and
    every sender passes the rate limit of any positive ceiling, except
    the senders called like a property of [Object.prototype], for which
    [checkRateLimit] throws on the empty store. When the file cannot be
    removed the call throws and the next [loadState] brings back what the
    file holds. *)
Theorem clearState_forgets (w : World) :
  let w' := (clearState w).2 in
  (diskWritable w = true ∨ stateFile w = FileAbsent →
     (clearState w).1 = Normal tt
     ∧ stateFile w' = FileAbsent
     ∧ currentStore w' = emptyStore
     ∧ (∀ id, (isMessageProcessed id w').1 = Normal false)
     ∧ (∀ sender ceiling,
          (checkRateLimit sender ceiling w').1
          = if Js.arrayIncludes objectPrototypeKeys sender
            then Abrupt (notAFunction "timestamps.filter")
            else Normal (0 <? ceiling)))
  ∧ (diskWritable w = false → stateFile w ≠ FileAbsent →
     (∃ e, (clearState w).1 = Abrupt e)
     ∧ stateFile w' = stateFile w
     ∧ currentStore w' = currentStore (restarted w)).
Proof.
  intros w'. subst w'. destruct (clearState_cases w) as [Hgone Hstays]. split.
  - intros Hok. destruct (Hgone Hok) as (v & -> & Hc & Hf & _).
    pose proof (currentStore_blank v Hc Hf) as Hempty. simpl.
    split; [done|]. split; [done|]. split; [done|]. split.
    + intros id. rewrite isMessageProcessed_eq. simpl. by rewrite Hempty.
    + intros sender ceiling. rewrite checkRateLimit_eq. simpl.
      unfold timestampsOf, readsInherited. rewrite Hempty. simpl.
      rewrite lookup_empty, bool_decide_eq_true_2 by done. simpl.
      by destruct (Js.arrayIncludes objectPrototypeKeys sender).
  - intros Hdisk Hfile. destruct (Hstays Hdisk Hfile) as (e & ->). simpl.
    split; [by eexists|]. done.
Qed.

Lemma clearState_forgets_witness :
  (isMessageProcessed "<m1@x>"
     (clearState
        (Samples.world (Samples.storeWith ["<m1@x>"] ∅) [] 0
           (Delivered "<r@x>"))).2).1
  = Normal false.
Proof.
  destruct (clearState_forgets
              (Samples.world (Samples.storeWith ["<m1@x>"] ∅) [] 0
                 (Delivered "<r@x>"))) as [Hgone _].
  destruct Hgone as (_ & _ & _ & Hids & _); [left; reflexivity|].
  apply Hids.
Defined.

(** ** Marking and fetching *)

Lemma markAsRead_eq folder u w :
  markAsRead folder u w
  = if imapUp w then
      (Normal tt,
       withImapEvent (LockReleased folder)
         (withImapEvent (FlagsAdded u)
            (withMailbox
               ((fun m => if bool_decide (entryUid m = u)
                          then {| entryUid := entryUid m; entrySeen := true;
                                  entrySource := entrySource m |}
                          else m) <$> mailbox w)
               (withImapEvent (LockAcquired folder) w))))
    else (Abrupt imapUnavailable, w).
Proof.
  unfold markAsRead, mbind, Eff_bind, bind, tryFinally, getMailboxLock,
    messageFlagsAddSeen, releaseLock.
  destruct (imapUp w) eqn:Hup; simpl; by rewrite ?Hup.
Qed.

(** X8. With a working connection [markAsRead] sets the seen flag of the
    messages carrying the given uid and of no other: every message keeps
    its place, its uid and its source, and a message with another uid
    keeps its flag. The flag command is the only one issued between taking
    and releasing the folder lock. Without a connection the call throws
    and nothing changes. *)
Theorem markAsRead_flags_only_target (folder : string) (u : Z) (w : World) :
  let w' := (markAsRead folder u w).2 in
  (imapUp w = true →
     (markAsRead folder u w).1 = Normal tt
     ∧ length (mailbox w') = length (mailbox w)
     ∧ (∀ i m, mailbox w !! i = Some m →
          ∃ m', mailbox w' !! i = Some m'
                ∧ entryUid m' = entryUid m
                ∧ entrySource m' = entrySource m
                ∧ entrySeen m' = (if bool_decide (entryUid m = u) then true
                                  else entrySeen m))
     ∧ imapLog w'
       = imapLog w ++ [LockAcquired folder; FlagsAdded u; LockReleased folder])
  ∧ (imapUp w = false → markAsRead folder u w = (Abrupt imapUnavailable, w)).
Proof.
  intros w'. subst w'. rewrite markAsRead_eq. split; intros ->; [|done].
  simpl. split; [done|]. split; [by rewrite length_fmap|].
  split; [|by rewrite <- !app_assoc].
  intros i m Hm. rewrite list_lookup_fmap, Hm. simpl.
  eexists. split; [reflexivity|]. by case_bool_decide.
Qed.

Lemma markAsRead_flags_only_target_witness :
  mailbox (markAsRead "INBOX" 3
             (Samples.world emptyStore Samples.inbox 0 (Delivered "<r@x>"))).2
  = [Samples.unseen 1 "a"; Samples.seen 2 "b"; Samples.seen 3 "c";
     Samples.unseen 4 "d"].
Proof.
  destruct (markAsRead_flags_only_target "INBOX" 3
              (Samples.world emptyStore Samples.inbox 0 (Delivered "<r@x>")))
    as [Hup _].
  destruct (Hup eq_refl) as (_ & _ & _ & _).
  vm_compute. reflexivity.
Defined.

(** ** Sender addresses *)

Lemma lowerChar_idem c : Js.lowerChar (Js.lowerChar c) = Js.lowerChar c.
Proof. by destruct c as [[] [] [] [] [] [] [] []]. Qed.

Lemma lowerChar_space c : Js.isSpace (Js.lowerChar c) = Js.isSpace c.
Proof. by destruct c as [[] [] [] [] [] [] [] []]. Qed.

Lemma toLowerCase_idem s : Js.toLowerCase (Js.toLowerCase s) = Js.toLowerCase s.
Proof. induction s as [|c s IH]; simpl; [done|]. by rewrite lowerChar_idem, IH. Qed.

Lemma toLowerCase_trimStart s :
  Js.toLowerCase (Js.trimStart s) = Js.trimStart (Js.toLowerCase s).
Proof.
  induction s as [|c s IH]; simpl; [done|].
  rewrite lowerChar_space. by destruct (Js.isSpace c).
Qed.

Lemma toLowerCase_trimEnd s :
  Js.toLowerCase (Js.trimEnd s) = Js.trimEnd (Js.toLowerCase s).
Proof.
  induction s as [|c s IH]; simpl; [done|].
  rewrite <- IH, lowerChar_space.
  destruct (Js.trimEnd s); simpl; [by destruct (Js.isSpace c)|done].
Qed.

Lemma trimEnd_idem s : Js.trimEnd (Js.trimEnd s) = Js.trimEnd s.
Proof.
  induction s as [|c s IH]; simpl; [done|].
  destruct (Js.trimEnd s) as [|d r] eqn:Hr.
  - destruct (Js.isSpace c) eqn:Hc; simpl; [done|]. by rewrite Hc.
  - simpl in *. by rewrite IH.
Qed.

Lemma trimStart_solid s : startsSolid (Js.trimStart s).
Proof.
  induction s as [|c s IH]; simpl; [done|].
  by destruct (Js.isSpace c) eqn:Hc.
Qed.

Lemma trimEnd_solid s : startsSolid s → startsSolid (Js.trimEnd s).
Proof.
  destruct s as [|c s]; simpl; [done|]. intros Hc.
  destruct (Js.trimEnd s); [by rewrite Hc|done].
Qed.

Lemma trimStart_of_solid s : startsSolid s → Js.trimStart s = s.
Proof. destruct s as [|c s]; simpl; [done|]. by intros ->. Qed.

Lemma trim_idem s : Js.trim (Js.trim s) = Js.trim s.
Proof.
  unfold Js.trim.
  rewrite (trimStart_of_solid (Js.trimEnd (Js.trimStart s)))
    by apply trimEnd_solid, trimStart_solid.
  apply trimEnd_idem.
Qed.

Lemma toLowerCase_trim s : Js.toLowerCase (Js.trim s) = Js.trim (Js.toLowerCase s).
Proof. unfold Js.trim. by rewrite toLowerCase_trimEnd, toLowerCase_trimStart. Qed.

Lemma angleCapture_lacks s : lacks "<" s = true → angleCapture s = None.
Proof.
  unfold lacks. induction s as [|c s IH]; simpl; [done|].
  intros [Hc Hs]%andb_true_iff. apply negb_true_iff in Hc. rewrite Hc. by apply IH.
Qed.

Lemma takeUntil_closing addr rest :
  lacks ">" addr = true →
  takeUntil ">" (addr +:+ ">" +:+ rest) = Some addr.
Proof.
  unfold lacks. induction addr as [|c addr IH]; [done|].
  rewrite append_cons. simpl.
  intros [Hc Hs]%andb_true_iff. apply negb_true_iff in Hc. rewrite Hc.
  by rewrite (IH Hs).
Qed.

Lemma angleCapture_display display addr rest :
  lacks "<" display = true →
  addr ≠ EmptyString →
  lacks ">" addr = true →
  angleCapture (display +:+ "<" +:+ addr +:+ ">" +:+ rest) = Some addr.
Proof.
  intros Hd Hne Ha. unfold lacks in Hd.
  induction display as [|c display IH].
  - change (angleCapture (String "<" (addr +:+ ">" +:+ rest)) = Some addr).
    simpl. rewrite (takeUntil_closing addr rest Ha).
    by destruct addr.
  - rewrite append_cons. simpl. simpl in Hd.
    apply andb_true_iff in Hd as [Hc Hd]. apply negb_true_iff in Hc.
    rewrite Hc. by apply IH.
Qed.

(** X11. What [extractEmailAddress] returns is in normal form: lower
    case, with no white space at either end. For a display-name form
    [Name <addr>] it is the normalised [addr]; for an input without [<]
    it is the normalised input, which is what [normalizeEmailAddress]
    gives, and normalising twice changes nothing. *)
Theorem extractEmailAddress_normal_form (input : string) :
  let result := extractEmailAddress input in
  Js.toLowerCase result = result
  ∧ Js.trim result = result
  ∧ (∀ display addr rest,
       input = display +:+ "<" +:+ addr +:+ ">" +:+ rest →
       lacks "<" display = true → addr ≠ EmptyString → lacks ">" addr = true →
       result = normalizeEmailAddress addr)
  ∧ (lacks "<" input = true → result = normalizeEmailAddress input)
  ∧ normalizeEmailAddress (normalizeEmailAddress input) = normalizeEmailAddress input.
Proof.
  intros result. subst result. unfold extractEmailAddress, normalizeEmailAddress.
  split; [by rewrite toLowerCase_trim, toLowerCase_idem|].
  split; [apply trim_idem|]. split; [|split].
  - intros display addr rest -> Hd Hne Ha.
    by rewrite (angleCapture_display display addr rest Hd Hne Ha).
  - intros Hbare. by rewrite (angleCapture_lacks input Hbare).
  - by rewrite toLowerCase_trim, toLowerCase_idem, trim_idem.
Qed.

Lemma extractEmailAddress_normal_form_witness :
  extractEmailAddress "Bob Smith <Bob.Smith@Example.ORG >, x"
  = "bob.smith@example.org"
  ∧ extractEmailAddress "  Carol@Example.org" = "carol@example.org".
Proof.
  split.
  - destruct (extractEmailAddress_normal_form
                "Bob Smith <Bob.Smith@Example.ORG >, x") as (_ & _ & Hform & _).
    rewrite (Hform "Bob Smith " "Bob.Smith@Example.ORG " ", x");
      [reflexivity..|discriminate|reflexivity].
  - destruct (extractEmailAddress_normal_form "  Carol@Example.org")
      as (_ & _ & _ & Hbare & _).
    rewrite Hbare; reflexivity.
Defined.

(** ** Normalising a parsed mail *)

Lemma orElse_truthy x fallback :
  fallback ≠ EmptyString → orElse x fallback ≠ EmptyString.
Proof.
  unfold orElse, truthyString. intros Hf.
  destruct x as [s|]; simpl; [|done].
  destruct (Js.truthy s) eqn:Hs; simpl; [|done]. by apply truthy_true.
Qed.

Lemma truthyString_Some x s : truthyString x = Some s → s ≠ EmptyString.
Proof.
  unfold truthyString. destruct x as [t|]; [|discriminate].
  destruct (Js.truthy t) eqn:Ht; [|discriminate].
  intros [= <-]. by apply truthy_true.
Qed.

Lemma parseMailToEmail_eq convert parsed target w :
  let sender := extractEmailAddress (orElse (firstSender parsed ≫= address) "") in
  let '(id, w1) :=
    match truthyString (pm_messageId parsed) with
    | Some id => (id, w)
    | None => ("generated-" +:+ pretty target +:+ "-"
               +:+ pretty (clock w (clockReads w)), withClockRead w)
    end in
  parseMailToEmail convert parsed target w
  = if negb (Js.truthy sender) then (Normal None, w1)
    else
      let '(received, w2) :=
        match pm_date parsed with
        | Some d => (d, w1)
        | None => (clock w1 (clockReads w1), withClockRead w1)
        end in
      (Normal (Some
         {| messageId := id;
            from := sender;
            fromName := firstSender parsed ≫= name;
            to := addressesOf (pm_to parsed);
            cc := addressesOf (pm_cc parsed);
            subject := orElse (pm_subject parsed) "(no subject)";
            textBody := stripQuotedContent (chosenText convert parsed);
            htmlBody := truthyString (pm_html parsed);
            date := received;
            inReplyTo := truthyString (pm_inReplyTo parsed);
            references :=
              match pm_references parsed with
              | Some (OneReference r) => if Js.truthy r then Some [r] else None
              | Some (ManyReferences rs) => Some rs
              | None => None
              end;
            headers := collectHeaders (rawHeaders parsed);
            uid := target |}), w2).
Proof.
  unfold parseMailToEmail, mbind, Eff_bind, bind, mret, Eff_ret, pure, dateNow.
  destruct (truthyString (pm_messageId parsed)); simpl.
  all: destruct (Js.truthy (extractEmailAddress _)); simpl; [|done].
  all: by destruct (pm_date parsed).
Qed.

(** X12. [parseMailToEmail] never throws. It drops the mail (returns
    null) exactly when no sender address is left after extraction;
    otherwise the message it returns has the extracted sender, in normal
    form, the uid it was given, a non-empty message id and subject, and as
    body the quote-stripped plain text, or the quote-stripped conversion
    of the HTML when the mail has no plain text. *)
Theorem parseMailToEmail_normalises convert (parsed : ParsedMail) (target : Z)
    (w : World) :
  let sender := extractEmailAddress (orElse (firstSender parsed ≫= address) "") in
  let outcome := (parseMailToEmail convert parsed target w).1 in
  (sender = EmptyString → outcome = Normal None)
  ∧ (sender ≠ EmptyString →
     ∃ e, outcome = Normal (Some e)
          ∧ from e = sender
          ∧ Js.toLowerCase (from e) = from e ∧ Js.trim (from e) = from e
          ∧ uid e = target
          ∧ messageId e ≠ EmptyString
          ∧ subject e ≠ EmptyString
          ∧ textBody e
            = stripQuotedContent
                match truthyString (pm_text parsed), truthyString (pm_html parsed) with
                | Some text, _ => text
                | None, Some html => convert html
                | None, None => EmptyString
                end).
Proof.
  intros sender outcome. subst outcome.
  pose proof (parseMailToEmail_eq convert parsed target w) as Heq.
  cbv zeta in Heq. fold sender in Heq.
  destruct (extractEmailAddress_normal_form
              (orElse (firstSender parsed ≫= address) "")) as (Hlow & Htrim & _).
  fold sender in Hlow, Htrim.
  split.
  - intros Hs. rewrite Hs in Heq.
    destruct (truthyString (pm_messageId parsed)); by rewrite Heq.
  - intros Hs. apply truthy_true in Hs as Ht. rewrite Ht in Heq. simpl in Heq.
    assert (Htext : chosenText convert parsed
              = match truthyString (pm_text parsed), truthyString (pm_html parsed) with
                | Some text, _ => text
                | None, Some html => convert html
                | None, None => EmptyString
                end).
    { unfold chosenText, orElse.
      destruct (truthyString (pm_text parsed)) as [text|] eqn:Hx; simpl.
      - apply truthyString_Some, truthy_true in Hx. by rewrite Hx.
      - by destruct (truthyString (pm_html parsed)). }
    rewrite <- Htext.
    destruct (truthyString (pm_messageId parsed)) as [id|] eqn:Hid;
      destruct (pm_date parsed); rewrite Heq; simpl;
      eexists; (split; [reflexivity|]); simpl;
      repeat split; try done.
    all: try (by apply orElse_truthy).
    all: by apply truthyString_Some in Hid.
Qed.

Lemma parseMailToEmail_normalises_witness :
  let parsed :=
    {| pm_messageId := Some "<m1@x>";
       pm_from := Some {| value := [{| address := Some "Alice@Example.com";
                                       name := Some "Alice" |}] |};
       pm_to := []; pm_cc := [];
       pm_text := None;
       pm_html := Some "<p>Hi</p>";
       pm_subject := None; pm_date := Some 5; pm_inReplyTo := None;
       pm_references := None; rawHeaders := [] |} in
  ∃ e,
    (parseMailToEmail (fun _ => "Hi") parsed 7
       (Samples.world emptyStore [] 0 (Delivered "<r@x>"))).1
    = Normal (Some e)
    ∧ from e = "alice@example.com"
    ∧ textBody e = "Hi".
Proof.
  intros parsed.
  destruct (parseMailToEmail_normalises (fun _ => "Hi") parsed 7
              (Samples.world emptyStore [] 0 (Delivered "<r@x>")))
    as [_ Hkept].
  destruct Hkept as (e & Heq & Hfrom & _ & _ & _ & _ & _ & Hbody).
  - vm_compute. discriminate.
  - exists e. split; [exact Heq|]. split; [rewrite Hfrom|rewrite Hbody];
      vm_compute; reflexivity.
Defined.
Lemma parseMailToEmail_generated_id convert parsed target w e :
  truthyString (pm_messageId parsed) = None →
  (parseMailToEmail convert parsed target w).1 = Normal (Some e) →
  messageId e
  = "generated-" +:+ pretty target +:+ "-" +:+ pretty (clock w (clockReads w)).
Proof.
  intros Hid. pose proof (parseMailToEmail_eq convert parsed target w) as Heq.
  cbv zeta in Heq. rewrite Hid in Heq. rewrite Heq.
  destruct (Js.truthy (extractEmailAddress _)); simpl; [|discriminate].
  destruct (pm_date parsed); simpl; by intros [= <-].
Qed.


(** X13. A mail without a message id gets an id made of its uid and the
    clock reading, so normalising the same mail again at another clock
    reading gives another id: having marked the first id as processed does
    not make the second one known. *)
Theorem generated_message_id_is_not_stable convert (parsed : ParsedMail)
    (target : Z) (w1 w2 : World) (e1 e2 : ParsedEmail) :
  truthyString (pm_messageId parsed) = None →
  (parseMailToEmail convert parsed target w1).1 = Normal (Some e1) →
  (parseMailToEmail convert parsed target w2).1 = Normal (Some e2) →
  clock w1 (clockReads w1) ≠ clock w2 (clockReads w2) →
  messageId e1 ≠ messageId e2
  ∧ ∀ w, messageId e2 ∉ processedIds (currentStore w) →
         (isMessageProcessed (messageId e2)
            (markMessageProcessed (messageId e1) w).2).1
         = Normal false.
Proof.
  intros Hid H1 H2 Hclock.
  rewrite (parseMailToEmail_generated_id _ _ _ _ _ Hid H1).
  rewrite (parseMailToEmail_generated_id _ _ _ _ _ Hid H2).
  assert (Hne : "generated-" +:+ pretty target +:+ "-"
                +:+ pretty (clock w1 (clockReads w1))
                ≠ "generated-" +:+ pretty target +:+ "-"
                  +:+ pretty (clock w2 (clockReads w2))).
  { intros Heq. apply Hclock.
    do 3 apply (inj (String.app _)) in Heq. by apply (inj pretty) in Heq. }
  split; [exact Hne|].
  intros w Hnew. rewrite isMessageProcessed_eq. simpl. f_equal.
  apply arrayIncludes_false. rewrite markMessageProcessed_ids.
  destruct (Js.arrayIncludes _ _); [done|].
  intros Hin. eapply elem_of_sublist in Hin; [|apply trimProcessedIds_sublist].
  apply elem_of_app in Hin as [Hin|Hin%list_elem_of_singleton]; [done|].
  by apply Hne.
Qed.

Lemma generated_message_id_is_not_stable_witness :
  let parsed :=
    {| pm_messageId := None;
       pm_from := Some {| value := [{| address := Some "alice@example.com";
                                       name := None |}] |};
       pm_to := []; pm_cc := []; pm_text := Some "Hello"; pm_html := None;
       pm_subject := Some "Question"; pm_date := Some 5; pm_inReplyTo := None;
       pm_references := None; rawHeaders := [] |} in
  ∃ e1 e2,
    (parseMailToEmail (fun html => html) parsed 7
       (Samples.world emptyStore [] 1000 (Delivered "<r@x>"))).1
    = Normal (Some e1)
    ∧ (parseMailToEmail (fun html => html) parsed 7
         (Samples.world emptyStore [] 61000 (Delivered "<r@x>"))).1
      = Normal (Some e2)
    ∧ messageId e1 = "generated-7-1000"
    ∧ messageId e1 ≠ messageId e2.
Proof.
  intros parsed. eexists _, _.
  split; [vm_compute; reflexivity|]. split; [vm_compute; reflexivity|].
  split; [vm_compute; reflexivity|].
  refine (proj1 (generated_message_id_is_not_stable (fun html => html) parsed 7
                   (Samples.world emptyStore [] 1000 (Delivered "<r@x>"))
                   (Samples.world emptyStore [] 61000 (Delivered "<r@x>"))
                   _ _ eq_refl _ _ _)).
  - vm_compute. reflexivity.
  - vm_compute. reflexivity.
  - vm_compute. discriminate.
Defined.

(** ** Header names *)






(** ** Fetching *)

Lemma sliceFrom_elem {A} (start : Z) (xs : list A) x :
  x ∈ Js.sliceFrom start xs → x ∈ xs.
Proof.
  unfold Js.sliceFrom. intros Hx.
  eapply elem_of_sublist; [exact Hx|apply sublist_drop].
Qed.

Lemma atSequenceNumbers_elem next range box m :
  m ∈ atSequenceNumbers next range box
  ↔ ∃ i, box !! i = Some m ∧ next + Z.of_nat i ∈ range.
Proof.
  revert next. induction box as [|m0 box IH]; intros next; simpl.
  - split; [by intros []%elem_of_nil|]. by intros (i & Hi & _).
  - assert (Hrest : m ∈ atSequenceNumbers (next + 1) range box
                    ↔ ∃ i, (m0 :: box) !! S i = Some m
                           ∧ next + Z.of_nat (S i) ∈ range).
    { rewrite IH. split; intros (i & Hi & Hin); exists i; (split; [done|]).
      - by replace (next + Z.of_nat (S i)) with (next + 1 + Z.of_nat i) by lia.
      - by replace (next + 1 + Z.of_nat i) with (next + Z.of_nat (S i)) by lia. }
    case_bool_decide as Hnext.
    + rewrite elem_of_cons, Hrest. split.
      * intros [->|(i & Hi & Hin)]; [|by exists (S i)].
        exists 0%nat. split; [done|]. by rewrite Z.add_0_r.
      * intros ([|i] & Hi & Hin); [left; by injection Hi|right; by exists i].
    + rewrite Hrest. split.
      * intros (i & Hi & Hin). by exists (S i).
      * intros ([|i] & Hi & Hin); [|by exists i].
        exfalso. apply Hnext. by rewrite Z.add_0_r in Hin.
Qed.

Lemma parseMailToEmail_frame convert parsed target w :
  let r := parseMailToEmail convert parsed target w in
  (∃ o, r.1 = Normal o ∧ ∀ e, o = Some e → uid e = target)
  ∧ exceptClockReads r.2 = exceptClockReads w
  ∧ (clockReads w ≤ clockReads r.2)%nat.
Proof.
  cbv zeta. pose proof (parseMailToEmail_eq convert parsed target w) as Heq.
  cbv zeta in Heq.
  destruct (truthyString (pm_messageId parsed)); rewrite Heq; clear Heq;
    (destruct (Js.truthy (extractEmailAddress _)); simpl;
     [destruct (pm_date parsed); simpl|]);
    (split;
     [eexists; split; [reflexivity|first [by intros e [= <-]|done]]
     |split; [done|lia]]).
Qed.

Lemma parseMessage_frame simpleParser convert message w :
  let r := parseMessage simpleParser convert message w in
  (∃ o, r.1 = Normal o ∧ ∀ e, o = Some e → uid e = entryUid message)
  ∧ exceptClockReads r.2 = exceptClockReads w
  ∧ (clockReads w ≤ clockReads r.2)%nat.
Proof.
  cbv zeta. unfold parseMessage, tryCatch, mbind, Eff_bind, bind.
  destruct (simpleParser (entrySource message)) as [parsed|err]; simpl.
  - destruct (parseMailToEmail_frame convert parsed (entryUid message) w)
      as ((o & Ho & Huid) & Hframe & Hreads).
    destruct (parseMailToEmail convert parsed (entryUid message) w) as [c v].
    simpl in *. subst c. simpl. split; [by exists o|done].
  - split; [exists None; split; [done|discriminate]|done].
Qed.

Lemma parseFetched_frame simpleParser convert messages w :
  let r := parseFetched simpleParser convert messages w in
  (∃ emails, r.1 = Normal emails
             ∧ ∀ e, e ∈ emails → ∃ m, m ∈ messages ∧ uid e = entryUid m)
  ∧ exceptClockReads r.2 = exceptClockReads w
  ∧ (clockReads w ≤ clockReads r.2)%nat.
Proof.
  cbv zeta. revert w. induction messages as [|m messages IH]; intros w.
  - simpl. split; [exists []; split; [done|by intros e []%elem_of_nil]|done].
  - cbn [parseFetched]. unfold mbind, Eff_bind, bind.
    destruct (parseMessage_frame simpleParser convert m w)
      as ((o & Ho & Huid) & Hframe & Hreads).
    destruct (parseMessage simpleParser convert m w) as [c v]. simpl in *.
    subst c.
    destruct (IH v) as ((emails & Hemails & Hfrom) & Hframe' & Hreads').
    destruct (parseFetched simpleParser convert messages v) as [c' v'].
    simpl in *. subst c'. simpl.
    split; [|split; [congruence|lia]].
    eexists. split; [reflexivity|].
    intros e [He|He]%elem_of_app.
    + exists m. split; [by left|]. apply Huid.
      destruct o; [by apply list_elem_of_singleton in He as ->|].
      by apply elem_of_nil in He.
    + destruct (Hfrom e He) as (m' & Hm' & Hu). exists m'. split; [by right|done].
Qed.

(** What a fetch over a working connection comes to. *)
Lemma fetchUnreadEmails_eq simpleParser convert folder limit w :
  imapUp w = true →
  let uids := entryUid <$> filter (fun m => entrySeen m = false) (mailbox w) in
  let range := Js.sliceFrom (- limit) uids in
  ∃ emails w',
    fetchUnreadEmails simpleParser convert folder limit w = (Normal emails, w')
    ∧ (stateCache w', stateFile w', diskWritable w', diskWrites w', clock w',
       entropy w', entropyReads w', mailbox w', imapUp w',
       transporterCache w', smtpServer w', outbox w', responderCalls w')
      = (stateCache w, stateFile w, diskWritable w, diskWrites w, clock w,
         entropy w, entropyReads w, mailbox w, imapUp w,
         transporterCache w, smtpServer w, outbox w, responderCalls w)
    ∧ (clockReads w ≤ clockReads w')%nat
    ∧ (uids = [] →
       emails = [] ∧ clockReads w' = clockReads w
       ∧ imapLog w'
         = imapLog w ++ [LockAcquired folder; Searched; LockReleased folder])
    ∧ (uids ≠ [] →
       imapLog w'
       = imapLog w ++ [LockAcquired folder; Searched; Fetched range;
                       LockReleased folder]
       ∧ ∀ e, e ∈ emails →
              ∃ m, m ∈ atSequenceNumbers 1 range (mailbox w) ∧ uid e = entryUid m).
Proof.
  intros Hup uids range.
  unfold fetchUnreadEmails, mbind, Eff_bind, bind, tryFinally, getMailboxLock,
    searchUnseen, fetchMessages, mret, Eff_ret, pure, releaseLock.
  simpl. rewrite Hup. simpl. rewrite Hup. fold uids.
  case_bool_decide as Hlen.
  - apply nil_length_inv in Hlen.
    eexists _, _. split; [reflexivity|]. simpl.
    split; [by rewrite ?Hup|]. split; [lia|]. split; [|done].
    intros _. split; [done|]. split; [done|]. by rewrite <- !app_assoc.
  - simpl. rewrite Hup. fold range.
    match goal with |- context [parseFetched _ _ ?ms ?v] =>
      destruct (parseFetched_frame simpleParser convert ms v)
        as ((emails & Hemails & Hfrom) & Hframe & Hreads);
      destruct (parseFetched simpleParser convert ms v) as [c v']
    end.
    simpl in *. subst c.
    injection Hframe as Hc Hf Hd Hdw Hk He Her Hb Hu Hl Ht Hs Ho Hr.
    eexists _, _. split; [reflexivity|]. simpl.
    split; [by rewrite Hc, Hf, Hd, Hdw, Hk, He, Her, Hb, Hu, Ht, Hs, Ho, Hr, ?Hup|].
    split; [lia|]. split; [by intros ->|].
    intros _. split; [rewrite Hl; by rewrite <- !app_assoc|done].
Qed.

(** X9. After [markAsRead], a fetch on the same folder returns normally,
    and every message it returns sits at a sequence number that is the
    uid of an unseen message. Hence, in a folder where every message has
    its sequence number for uid (nothing was ever expunged), a message
    that has been marked as read is not fetched again. *)
Theorem marked_message_is_not_fetched_again simpleParser convert
    (folder : string) (limit u : Z) (w : World) :
  imapUp w = true →
  let marked := (markAsRead folder u w).2 in
  ∃ emails,
    (fetchUnreadEmails simpleParser convert folder limit marked).1 = Normal emails
    ∧ (∀ e, e ∈ emails →
         ∃ i m m',
           mailbox marked !! i = Some m ∧ uid e = entryUid m
           ∧ m' ∈ mailbox marked ∧ entrySeen m' = false
           ∧ entryUid m' = Z.of_nat (S i))
    ∧ ((∀ i m, mailbox w !! i = Some m → entryUid m = Z.of_nat (S i)) →
       ∀ e, e ∈ emails → uid e ≠ u).
Proof.
  intros Hup marked.
  assert (Hmarked : imapUp marked = true
            ∧ mailbox marked
              = (fun m => if bool_decide (entryUid m = u)
                          then {| entryUid := entryUid m; entrySeen := true;
                                  entrySource := entrySource m |}
                          else m) <$> mailbox w).
  { subst marked. rewrite markAsRead_eq, Hup. done. }
  destruct Hmarked as [Hup' Hbox].
  destruct (fetchUnreadEmails_eq simpleParser convert folder limit marked Hup')
    as (emails & w' & Heq & _ & _ & Hnone & Hsome).
  exists emails. rewrite Heq. split; [done|].
  assert (Hat : ∀ e, e ∈ emails →
            ∃ i m m',
              mailbox marked !! i = Some m ∧ uid e = entryUid m
              ∧ m' ∈ mailbox marked ∧ entrySeen m' = false
              ∧ entryUid m' = Z.of_nat (S i)).
  { intros e He.
    destruct (decide (entryUid <$> filter (fun m => entrySeen m = false)
                                     (mailbox marked) = [])) as [Hempty|Hfull].
    { destruct (Hnone Hempty) as (-> & _). by apply elem_of_nil in He. }
    destruct (Hsome Hfull) as (_ & Hfrom).
    destruct (Hfrom e He) as (m & Hm & Huid).
    apply atSequenceNumbers_elem in Hm as (i & Hi & Hrange).
    apply sliceFrom_elem, list_elem_of_fmap_1 in Hrange as (m' & Hu & Hm').
    apply list_elem_of_filter in Hm' as [Hunseen Hin].
    exists i, m, m'. repeat split; [done..|]. rewrite <- Hu. lia. }
  split; [exact Hat|].
  intros Hseq e He Hu.
  destruct (Hat e He) as (i & m & m' & Hi & Huid & Hin & Hunseen & Hnum).
  apply list_elem_of_lookup in Hin as (j & Hj).
  rewrite Hbox, list_lookup_fmap in Hi, Hj.
  destruct (mailbox w !! i) as [m0|] eqn:Hm0; [|done].
  destruct (mailbox w !! j) as [m0'|] eqn:Hm0'; [|done].
  simpl in Hi, Hj. injection Hi as <-. injection Hj as <-.
  pose proof (Hseq _ _ Hm0) as Hu0. pose proof (Hseq _ _ Hm0') as Hu0'.
  assert (j = i) as ->.
  { destruct (bool_decide (entryUid m0' = u)); simpl in Hnum; lia. }
  assert (m0' = m0) as -> by congruence.
  destruct (bool_decide (entryUid m0 = u)) eqn:Hdec; simpl in *; [done|].
  apply bool_decide_eq_false in Hdec. congruence.
Qed.

Lemma marked_message_is_not_fetched_again_witness :
  ∃ emails,
    (fetchUnreadEmails Samples.simpleParser (fun html => html) "INBOX" 20
       (markAsRead "INBOX" 3
          (Samples.world emptyStore Samples.inbox 0 (Delivered "<r@x>"))).2).1
    = Normal emails
    ∧ Forall (fun e => uid e ≠ 3) emails.
Proof.
  destruct (marked_message_is_not_fetched_again Samples.simpleParser
              (fun html => html) "INBOX" 20 3
              (Samples.world emptyStore Samples.inbox 0 (Delivered "<r@x>"))
              eq_refl) as (emails & Heq & _ & Hnot).
  exists emails. split; [exact Heq|].
  apply Forall_forall. apply Hnot.
  intros i m Hm.
  repeat (destruct i as [|i]; [injection Hm as <-; reflexivity|]).
  discriminate Hm.
Defined.

(** X10. Fetching only reads: the folder, and the clock, which the
    normaliser consults for a mail without message id or date. With a
    working connection the call returns normally and leaves the flags of
    every message, the state store, the transport and the responder as
    they were; the commands issued are a search and, when some message is
    unseen, one fetch, between taking and releasing the folder lock. When
    no message is unseen it returns the empty list after the search alone
    and the clock is not read. Without a connection it throws before any
    command is issued. *)
Theorem fetchUnreadEmails_only_reads simpleParser convert (folder : string)
    (limit : Z) (w : World) :
  (imapUp w = true →
     ∃ emails w',
       fetchUnreadEmails simpleParser convert folder limit w = (Normal emails, w')
       ∧ mailbox w' = mailbox w
       ∧ stateCache w' = stateCache w ∧ stateFile w' = stateFile w
       ∧ outbox w' = outbox w ∧ responderCalls w' = responderCalls w
       ∧ clock w' = clock w ∧ (clockReads w ≤ clockReads w')%nat
       ∧ (∃ commands,
            imapLog w'
            = imapLog w ++ [LockAcquired folder] ++ commands
              ++ [LockReleased folder]
            ∧ (commands = [Searched]
               ∨ ∃ range, commands = [Searched; Fetched range]))
       ∧ ((∀ m, m ∈ mailbox w → entrySeen m = true) →
          emails = [] ∧ clockReads w' = clockReads w
          ∧ imapLog w'
            = imapLog w ++ [LockAcquired folder; Searched; LockReleased folder]))
  ∧ (imapUp w = false →
     fetchUnreadEmails simpleParser convert folder limit w
     = (Abrupt imapUnavailable, w)).
Proof.
  split.
  - intros Hup.
    destruct (fetchUnreadEmails_eq simpleParser convert folder limit w Hup)
      as (emails & w' & Heq & Hframe & Hreads & Hnone & Hsome).
    injection Hframe as Hcache Hfile _ _ Hclock _ _ Hbox _ _ _ Hout Hcalls.
    exists emails, w'. split; [done|]. repeat (split; [done|]). split.
    + destruct (decide (entryUid <$> filter (fun m => entrySeen m = false)
                                       (mailbox w) = [])) as [Hempty|Hfull].
      * destruct (Hnone Hempty) as (_ & _ & Hlog).
        exists [Searched]. split; [exact Hlog|by left].
      * destruct (Hsome Hfull) as (Hlog & _).
        exists [Searched; Fetched (Js.sliceFrom (- limit)
                                     (entryUid <$> filter (fun m => entrySeen m = false)
                                                     (mailbox w)))].
        split; [exact Hlog|]. right. by eexists.
    + intros Hseen. apply Hnone. clear -Hseen. revert Hseen.
      generalize (mailbox w) as box.
      induction box as [|m box IH]; intros Hseen; [done|].
      rewrite filter_cons_False.
      * apply IH. intros m' Hm'. apply Hseen. by right.
      * rewrite (Hseen m); [done|by left].
  - intros Hdown.
    unfold fetchUnreadEmails, mbind, Eff_bind, bind, getMailboxLock.
    by rewrite Hdown.
Qed.

Lemma fetchUnreadEmails_only_reads_witness :
  ∃ emails w',
    fetchUnreadEmails Samples.simpleParser (fun html => html) "INBOX" 2
      (Samples.world emptyStore [Samples.seen 1 "a"; Samples.seen 2 "b"] 0
         (Delivered "<r@x>"))
    = (Normal emails, w')
    ∧ emails = []
    ∧ imapLog w' = [LockAcquired "INBOX"; Searched; LockReleased "INBOX"].
Proof.
  destruct (fetchUnreadEmails_only_reads Samples.simpleParser (fun html => html)
              "INBOX" 2
              (Samples.world emptyStore [Samples.seen 1 "a"; Samples.seen 2 "b"] 0
                 (Delivered "<r@x>"))) as [Hup _].
  destruct (Hup eq_refl) as (emails & w' & Heq & _ & _ & _ & _ & _ & _ & _ & _ & Hseen).
  exists emails, w'. split; [exact Heq|].
  destruct Hseen as (Hnone & _ & Hlog).
  - intros m Hm.
    repeat (apply elem_of_cons in Hm as [->|Hm]; [reflexivity|]).
    by apply elem_of_nil in Hm.
  - split; [exact Hnone|exact Hlog].
Defined.

(** ** Transport handles *)

(** X15. Transport handles are cached under host, port and user alone.
    The first call for a key returns a handle made from the options given
    and caches it; a later call whose host, port and user are the same
    returns that first handle and leaves the cache as it is, even when the
    password or the TLS settings differ. After [clearTransporterCache] a
    handle is made from the new options. *)
Theorem getSmtpTransporter_memoises (opts opts' : SmtpOptions) (w : World) :
  so_host opts' = so_host opts →
  so_port opts' = so_port opts →
  so_user opts' = so_user opts →
  let first := getSmtpTransporter opts w in
  getSmtpTransporter opts' first.2 = first
  ∧ (transporterCache w = ∅ → first.1 = Normal opts)
  ∧ (getSmtpTransporter opts' (clearTransporterCache first.2).2).1 = Normal opts'.
Proof.
  intros Hhost Hport Huser first. subst first.
  unfold getSmtpTransporter, clearTransporterCache, modify.
  rewrite Hhost, Hport, Huser.
  set (key := so_host opts +:+ ":" +:+ pretty (so_port opts) +:+ ":" +:+ so_user opts).
  split; [|split].
  - destruct (transporterCache w !! key) as [t|] eqn:Hkey; simpl.
    + by rewrite Hkey.
    + by rewrite lookup_insert_eq.
  - intros Hempty. by rewrite Hempty, lookup_empty.
  - simpl. by rewrite lookup_empty.
Qed.

Lemma getSmtpTransporter_memoises_witness :
  let current :=
    {| so_host := "smtp.example.com"; so_port := 587; so_user := "bot@example.com";
       so_password := "old"; so_tls := false; so_startTls := true |} in
  let changed :=
    {| so_host := "smtp.example.com"; so_port := 587; so_user := "bot@example.com";
       so_password := "new"; so_tls := false; so_startTls := true |} in
  (getSmtpTransporter changed
     (getSmtpTransporter current
        (Samples.world emptyStore [] 0 (Delivered "<r@x>"))).2).1
  = Normal current.
Proof.
  intros current changed.
  destruct (getSmtpTransporter_memoises current changed
              (Samples.world emptyStore [] 0 (Delivered "<r@x>"))
              eq_refl eq_refl eq_refl) as (Hsame & Hfirst & _).
  rewrite Hsame. apply Hfirst. reflexivity.
Defined.

(** ** The reply closure *)

(** The options [processEmail] asks a transport handle for. *)
Lemma replyClosure_eq account msg text w :
  let cfg := config account in
  let opts :=
    {| so_host := smtpHost cfg;
       so_port := default 587 (smtpPort cfg);
       so_user := default (imapUser cfg) (smtpUser cfg);
       so_password := default (imapPassword cfg) (smtpPassword cfg);
       so_tls := default false (smtpTls cfg);
       so_startTls := default true (smtpStartTls cfg) |} in
  let '(transporter, w1) :=
    match getSmtpTransporter opts w with
    | (Normal t, v) => (t, v)
    | (Abrupt _, v) => (opts, v)
    end in
  let message :=
    buildMessageOptions
      {| se_transporter := transporter;
         se_from := email account;
         se_fromName := None;
         se_to := from msg;
         se_subject := buildReplySubject (subject msg)
                         (default defaultReplyPrefix (replyPrefix cfg));
         se_text := text;
         se_html := None;
         se_threadInfo :=
           Some (buildThreadInfo (clock w (clockReads w))
                   (entropy w (entropyReads w)) (messageId msg) (references msg));
         se_signature := signature cfg |} in
  let w2 := withSubmission transporter message
              (withEntropyRead (withClockRead w1)) in
  replyClosure account msg text w
  = match smtpServer w (length (outbox w)) transporter message with
    | Delivered id =>
        match recordReply (from msg) w2 with
        | (Normal _, w3) =>
            (Normal {| ok := true; sentMessageId := Some id; error := None |}, w3)
        | (Abrupt e, w3) => (Abrupt e, w3)
        end
    | Rejected e =>
        (Normal {| ok := false; sentMessageId := None;
                   error := Some (errorText e) |}, w2)
    end.
Proof.
  unfold replyClosure, mbind, Eff_bind, bind, getSmtpTransporter, dateNow,
    randomDigits.
  destruct (transporterCache w !! _); simpl; rewrite sendEmail_eq; simpl.
  all: destruct (smtpServer w _ _ _); simpl; [|done].
  all: by destruct (recordReply _ _) as [[[]|] ?].
Qed.

Lemma getSmtpTransporter_frame opts w :
  ∃ t v, getSmtpTransporter opts w = (Normal t, v)
         ∧ stateCache v = stateCache w ∧ stateFile v = stateFile w
         ∧ diskWritable v = diskWritable w ∧ diskWrites v = diskWrites w
         ∧ clock v = clock w ∧ clockReads v = clockReads w
         ∧ outbox v = outbox w.
Proof.
  unfold getSmtpTransporter.
  destruct (transporterCache w !! _); eexists _, _; (split; [reflexivity|done]).
Qed.

Lemma recordReply_outbox sender w : outbox (recordReply sender w).2 = outbox w.
Proof.
  unfold recordReply, mbind, Eff_bind, bind. rewrite loadState_eq.
  unfold dateNow, modify. simpl.
  destruct (readsInherited _ _); simpl; [apply loaded_frame|].
  match goal with |- outbox (saveState ?s ?v).2 = _ =>
    destruct (saveState_frame s v) as (_ & ->)
  end.
  simpl. apply loaded_frame.
Qed.

Lemma recordReply_throws sender w e :
  (recordReply sender w).1 = Abrupt e →
  readsInherited (rateLimits (currentStore w)) sender = false →
  diskWritable w = false.
Proof.
  intros Hthrows Hread. revert Hthrows.
  unfold recordReply, mbind, Eff_bind, bind. rewrite loadState_eq.
  unfold dateNow, modify. rewrite Hread. simpl. rewrite saveState_eq. simpl.
  destruct (loaded_frame w) as (Hs & _). injection Hs as -> _ _ _ _.
  by destruct (diskWritable w).
Qed.

Lemma append_empty_r (s : string) : s +:+ EmptyString = s.
Proof. induction s as [|c s IH]; [done|]. by rewrite append_cons, IH. Qed.

Lemma buildMessageOptions_headers opts ti :
  se_threadInfo opts = Some ti →
  ti_inReplyTo ti ≠ EmptyString →
  ti_references ti ≠ [] →
  ∃ hdrs, mo_headers (buildMessageOptions opts) = Some hdrs
          ∧ hdrs !! "In-Reply-To" = Some (ti_inReplyTo ti)
          ∧ hdrs !! "References" = Some (Js.join " " (ti_references ti)).
Proof.
  intros Hti Hid Hrefs. unfold buildMessageOptions. simpl. rewrite Hti.
  apply truthy_true in Hid. rewrite Hid.
  rewrite bool_decide_eq_true_2 by (destruct (ti_references ti); [done|simpl; lia]).
  eexists. split; [reflexivity|]. split; [|apply lookup_insert_eq].
  rewrite lookup_insert_ne by done. apply lookup_insert_eq.
Qed.

(** X16. The reply built for a message with a non-empty id is submitted
    exactly once, whatever becomes of it: it goes from the account's
    address to the sender of the message, under the reply subject, its
    text starts with the responder's text, and it carries the id of the
    message in [In-Reply-To] and, after the references of the message, in
    [References]. *)
Theorem reply_is_threaded (account : ResolvedEmailAccount) (msg : ParsedEmail)
    (text : string) (w : World) :
  messageId msg ≠ EmptyString →
  ∃ transporter message hdrs refs tail,
    outbox (replyClosure account msg text w).2
    = outbox w ++ [(transporter, message)]
    ∧ mo_from message = email account
    ∧ mo_to message = from msg
    ∧ mo_subject message
      = buildReplySubject (subject msg)
          (default defaultReplyPrefix (replyPrefix (config account)))
    ∧ mo_text message = text +:+ tail
    ∧ mo_headers message = Some hdrs
    ∧ hdrs !! "In-Reply-To" = Some (messageId msg)
    ∧ hdrs !! "References" = Some (Js.join " " refs)
    ∧ default [] (references msg) `prefix_of` refs
    ∧ messageId msg ∈ refs.
Proof.
  intros Hid.
  pose proof (replyClosure_eq account msg text w) as Heq. cbv zeta in Heq.
  destruct (getSmtpTransporter_frame
              {| so_host := smtpHost (config account);
                 so_port := default 587 (smtpPort (config account));
                 so_user := default (imapUser (config account))
                              (smtpUser (config account));
                 so_password := default (imapPassword (config account))
                                  (smtpPassword (config account));
                 so_tls := default false (smtpTls (config account));
                 so_startTls := default true (smtpStartTls (config account)) |} w)
    as (t & v & Hget & _ & _ & _ & _ & _ & _ & Hout).
  rewrite Hget in Heq.
  set (refs := ti_references
                 (buildThreadInfo (clock w (clockReads w))
                    (entropy w (entropyReads w)) (messageId msg) (references msg))).
  assert (Hrefs : default [] (references msg) `prefix_of` refs ∧ messageId msg ∈ refs).
  { subst refs. rewrite references_of_buildThreadInfo. case_bool_decide as Hc.
    - split; [by apply prefix_app_r|]. apply elem_of_app. right. by left.
    - split; [done|].
      destruct (decide (messageId msg ∈ default [] (references msg))); [done|].
      by destruct Hc. }
  match type of Heq with
  | context [smtpServer w _ t (buildMessageOptions ?o)] =>
      destruct (buildMessageOptions_headers o _ eq_refl Hid) as (hdrs & Hh & Hirt & Href)
  end.
  { fold refs. destruct Hrefs as [_ Hin]. intros Hnil.
    rewrite Hnil in Hin. by apply elem_of_nil in Hin. }
  eexists t, _, hdrs, refs,
    match truthyString (signature (config account)) with
    | Some sig => String newline (String newline EmptyString) +:+ sig
    | None => EmptyString
    end.
  split.
  { rewrite Heq. destruct (smtpServer w _ _ _).
    - match goal with |- context [recordReply ?s ?x] =>
        pose proof (recordReply_outbox s x) as Hrec;
        destruct (recordReply s x) as [[[]|e] w3]
      end; simpl in *; rewrite Hrec; by rewrite Hout.
    - simpl. by rewrite Hout. }
  split; [reflexivity|]. split; [reflexivity|]. split; [reflexivity|].
  split.
  { simpl. destruct (truthyString (signature (config account)));
      [reflexivity|symmetry; apply append_empty_r]. }
  split; [exact Hh|]. split; [exact Hirt|]. split; [exact Href|].
  exact Hrefs.
Qed.

Lemma reply_is_threaded_witness :
  ∃ transporter message hdrs,
    outbox (replyClosure Samples.bot
              (Samples.message "<m1@x>" "alice@example.com" 7 ∅
                 (Some ["<m0@x>"]))
              "Thanks."
              (Samples.world emptyStore [] 0 (Delivered "<r@x>"))).2
    = [(transporter, message)]
    ∧ mo_headers message = Some hdrs
    ∧ hdrs !! "In-Reply-To" = Some "<m1@x>"
    ∧ hdrs !! "References" = Some "<m0@x> <m1@x>".
Proof.
  destruct (reply_is_threaded Samples.bot
              (Samples.message "<m1@x>" "alice@example.com" 7 ∅ (Some ["<m0@x>"]))
              "Thanks."
              (Samples.world emptyStore [] 0 (Delivered "<r@x>")))
    as (transporter & message & hdrs & refs & tail
        & Hout & _ & _ & _ & _ & Hh & Hirt & Href & _).
  - discriminate.
  - exists transporter, message, hdrs.
    split; [exact Hout|]. split; [exact Hh|]. split; [exact Hirt|].
    vm_compute in Hout. injection Hout as <- <-.
    vm_compute in Hh. injection Hh as <-. vm_compute. reflexivity.
Defined.

Lemma replyClosure_before_record (w1 w : World) transporter message :
  stateCache w1 = stateCache w → stateFile w1 = stateFile w →
  diskWritable w1 = diskWritable w →
  clock w1 = clock w → clockReads w1 = clockReads w →
  let w2 := withSubmission transporter message
              (withEntropyRead (withClockRead w1)) in
  currentStore w2 = currentStore w ∧ stateFile w2 = stateFile w
  ∧ stateCache w2 = stateCache w
  ∧ diskWritable w2 = diskWritable w
  ∧ clock w2 = clock w ∧ clockReads w2 = S (clockReads w).
Proof.
  intros Hc Hf Hd Hk Hr. unfold currentStore. simpl.
  by rewrite Hc, Hf, Hd, Hk, Hr.
Qed.

(** X17. A reply leaves a trace in the rate-limit store only when it was
    delivered. When the transport rejects the mail the closure returns
    [ok = false] and store and state file are untouched. When the
    transport accepts it and the closure returns, the sender's list has
    gained the clock reading taken at that moment, filtered to the window
    at save time. The closure throws only after a delivered mail, when
    saving fails or when the sender reads an inherited property of the
    [rateLimits] object, so that [recordReply] cannot push. *)
Theorem reply_is_recorded_when_delivered (account : ResolvedEmailAccount)
    (msg : ParsedEmail) (text : string) (w : World) :
  let run := replyClosure account msg text w in
  let pushed := clock w (S (clockReads w)) in
  let saveTime := clock w (S (S (clockReads w))) in
  (∀ result, run.1 = Normal result → ok result = false →
     stateCache run.2 = stateCache w ∧ stateFile run.2 = stateFile w)
  ∧ (∀ result, run.1 = Normal result → ok result = true →
       timestampsOf (from msg) (currentStore run.2)
       = recentTimestamps saveTime
           (timestampsOf (from msg) (currentStore w) ++ [pushed]))
  ∧ (∀ e, run.1 = Abrupt e →
       (diskWritable w = false
        ∨ readsInherited (rateLimits (currentStore w)) (from msg) = true)
       ∧ length (outbox run.2) = S (length (outbox w))).
Proof.
  intros run pushed saveTime. subst run.
  pose proof (replyClosure_eq account msg text w) as Heq. cbv zeta in Heq.
  destruct (getSmtpTransporter_frame
              {| so_host := smtpHost (config account);
                 so_port := default 587 (smtpPort (config account));
                 so_user := default (imapUser (config account))
                              (smtpUser (config account));
                 so_password := default (imapPassword (config account))
                                  (smtpPassword (config account));
                 so_tls := default false (smtpTls (config account));
                 so_startTls := default true (smtpStartTls (config account)) |} w)
    as (t & v & Hget & Hc & Hf & Hd & _ & Hk & Hr & Hout).
  rewrite Hget in Heq. rewrite Heq. clear Heq.
  match goal with |- context [withSubmission t ?m _] =>
    destruct (replyClosure_before_record v w t m Hc Hf Hd Hk Hr)
      as (Hstore & Hfile & Hcache & Hdisk & Hclock & Hreads);
    set (w2 := withSubmission t m (withEntropyRead (withClockRead v))) in *
  end.
  destruct (smtpServer w _ _ _) as [id|e0].
  - pose proof (recordReply_store (from msg) w2) as Hrec.
    pose proof (recordReply_inherited (from msg) w2) as Hinh.
    pose proof (recordReply_throws (from msg) w2) as Hthrow.
    pose proof (recordReply_outbox (from msg) w2) as Hbox.
    rewrite Hstore, Hclock, Hreads in Hrec. rewrite Hstore in Hinh, Hthrow.
    destruct (readsInherited (rateLimits (currentStore w)) (from msg)) eqn:Hread.
    { rewrite (Hinh eq_refl) in Hbox |- *. simpl in *.
      split; [by intros|]. split; [by intros|].
      intros e' _. split; [by right|].
      rewrite Hbox. subst w2. simpl. rewrite length_app. simpl.
      rewrite Hout. lia. }
    specialize (Hrec eq_refl).
    destruct (recordReply (from msg) w2) as [[[]|e] w3]; simpl in *.
    + split; [by intros result [= <-]|]. split; [|by intros].
      intros result _ _. rewrite Hrec. unfold timestampsOf at 1. simpl.
      rewrite timestampsOf_purged. by rewrite lookup_insert_eq.
    + split; [by intros|]. split; [by intros|].
      intros e' _. split.
      * left. rewrite <- Hdisk. by eapply Hthrow.
      * rewrite Hbox. subst w2. simpl. rewrite length_app. simpl.
        rewrite Hout. lia.
  - simpl. split; [|split; [by intros result [= <-]|by intros]].
    intros result _ _. done.
Qed.

Lemma reply_is_recorded_when_delivered_witness :
  timestampsOf "alice@example.com"
    (currentStore
       (replyClosure Samples.bot
          (Samples.message "<m1@x>" "alice@example.com" 7 ∅ None) "Thanks."
          (Samples.world (Samples.storeWith [] {[ "alice@example.com" := [50] ]})
             [] 100 (Delivered "<r@x>"))).2)
  = [50; 100]
  ∧ stateCache
      (replyClosure Samples.bot
         (Samples.message "<m1@x>" "alice@example.com" 7 ∅ None) "Thanks."
         (Samples.world (Samples.storeWith [] {[ "alice@example.com" := [50] ]})
            [] 100 (Rejected (ThrownError "ECONNREFUSED")))).2
    = Some (Samples.storeWith [] {[ "alice@example.com" := [50] ]}).
Proof.
  split.
  - destruct (reply_is_recorded_when_delivered Samples.bot
                (Samples.message "<m1@x>" "alice@example.com" 7 ∅ None) "Thanks."
                (Samples.world
                   (Samples.storeWith [] {[ "alice@example.com" := [50] ]})
                   [] 100 (Delivered "<r@x>"))) as (_ & Hdelivered & _).
    etrans;
      [exact (Hdelivered {| ok := true; sentMessageId := Some "<r@x>";
                            error := None |} eq_refl eq_refl)|].
    vm_compute. reflexivity.
  - destruct (reply_is_recorded_when_delivered Samples.bot
                (Samples.message "<m1@x>" "alice@example.com" 7 ∅ None) "Thanks."
                (Samples.world
                   (Samples.storeWith [] {[ "alice@example.com" := [50] ]})
                   [] 100 (Rejected (ThrownError "ECONNREFUSED"))))
      as (Hrejected & _).
    destruct (Hrejected {| ok := false; sentMessageId := None;
                           error := Some "ECONNREFUSED" |} eq_refl eq_refl)
      as [Hcache _].
    exact Hcache.
Defined.

(** ** Passes over the same message *)

Lemma markMessageProcessed_cache id w :
  stateCache (markMessageProcessed id w).2
  = Some (currentStore (markMessageProcessed id w).2).
Proof.
  rewrite markMessageProcessed_eq. cbv zeta.
  destruct (Js.arrayIncludes (processedIds (currentStore w)) id).
  - simpl. by rewrite stateCache_loaded, currentStore_loaded.
  - rewrite saveState_eq. cbv zeta. simpl.
    destruct (loaded_frame w) as (Hs & _). injection Hs as -> _ _ _ _.
    by destruct (diskWritable w).
Qed.

Lemma markAsRead_state folder u w :
  stateCache (markAsRead folder u w).2 = stateCache w
  ∧ stateFile (markAsRead folder u w).2 = stateFile w.
Proof. rewrite markAsRead_eq. by destruct (imapUp w). Qed.

(** Once [consume] has been entered the id is in the cached store,
    however the call ends. *)
Lemma consume_remembers folder msg v :
  let v' := (consume folder msg v).2 in
  stateCache v' = Some (currentStore v')
  ∧ messageId msg ∈ processedIds (currentStore v').
Proof.
  cbv zeta. rewrite consume_eq.
  pose proof (markMessageProcessed_cache (messageId msg) v) as Hcache.
  assert (Hin : messageId msg
                ∈ processedIds (currentStore (markMessageProcessed (messageId msg) v).2)).
  { rewrite markMessageProcessed_ids.
    destruct (Js.arrayIncludes _ _) eqn:Hinc;
      [by apply arrayIncludes_true|apply trimProcessedIds_last]. }
  destruct (markMessageProcessed (messageId msg) v) as [[[]|e] v1]; simpl in *;
    [|done].
  destruct (markAsRead_state folder (uid msg) v1) as [Hc Hf].
  destruct (markAsRead_props folder (uid msg) v1) as (Hstore & _).
  rewrite Hstore. split; [|done]. by rewrite Hc.
Qed.

Lemma processEmail_known runtime account maxReplies folder msg v :
  messageId msg ∈ processedIds (currentStore v) →
  is_Some (stateCache v) →
  processEmail runtime account maxReplies folder msg v = (Normal tt, v).
Proof.
  intros Hin [s Hs]. rewrite processEmail_eq.
  unfold firstMatchingRule. rewrite loadState_eq.
  apply arrayIncludes_true in Hin. rewrite Hin.
  unfold loaded. by rewrite Hs.
Qed.

(** X18. When [processEmail] completes normally for a message, by a skip
    or after the responder has resolved, processing a message with the
    same id again returns at once and changes nothing: no responder call,
    no mail, no mailbox command, no write. *)
Theorem second_pass_does_nothing runtime runtime' account account'
    (maxReplies maxReplies' : Z) (folder folder' : string)
    (msg msg' : ParsedEmail) (w : World) :
  let first := processEmail runtime account maxReplies folder msg w in
  first.1 = Normal tt →
  messageId msg' = messageId msg →
  processEmail runtime' account' maxReplies' folder' msg' first.2
  = (Normal tt, first.2).
Proof.
  intros first Hnormal Hid. subst first.
  assert (Hknown : messageId msg
                   ∈ processedIds
                       (currentStore
                          (processEmail runtime account maxReplies folder msg w).2)
                   ∧ is_Some (stateCache
                                (processEmail runtime account maxReplies folder msg w).2)).
  { revert Hnormal. rewrite processEmail_eq.
    destruct (firstMatchingRule account maxReplies msg w) as [rule|] eqn:Hrule.
    - destruct rule.
      + intros _. simpl. rewrite currentStore_loaded, stateCache_loaded.
        split; [|done]. unfold firstMatchingRule in Hrule.
        rewrite loadState_eq in Hrule.
        destruct (Js.arrayIncludes _ _) eqn:Hin; [by apply arrayIncludes_true|].
        repeat case_match; discriminate.
      + intros _. destruct (consume_remembers folder msg (loaded w)) as [-> ?]. done.
      + intros _. destruct (consume_remembers folder msg (loaded w)) as [-> ?]. done.
      + intros _. destruct (consume_remembers folder msg (loaded w)) as [-> ?]. done.
      + intros _.
        destruct (consume_remembers folder msg (withClockRead (loaded w))) as [-> ?].
        done.
    - destruct (readsInherited _ _); [discriminate|].
      unfold mbind, Eff_bind, bind.
      destruct (processInbound runtime account msg (withClockRead (loaded w)))
        as [[[]|e] v]; [|discriminate].
      intros _. destruct (consume_remembers folder msg v) as [-> ?]. done. }
  destruct Hknown as [Hin Hcache].
  apply processEmail_known; [by rewrite Hid|done].
Qed.

Lemma second_pass_does_nothing_witness :
  let w := Samples.world (Samples.storeWith [] ∅) [Samples.unseen 7 "a"] 0
             (Delivered "<r@x>") in
  let msg := Samples.message "<m1@x>" "alice@example.com" 7 ∅ None in
  let first := processEmail Samples.repliesOnce Samples.bot 5 "INBOX" msg w in
  length (responderCalls first.2) = 1%nat
  ∧ processEmail Samples.repliesOnce Samples.bot 5 "INBOX" msg first.2
    = (Normal tt, first.2).
Proof.
  intros w msg first. split; [vm_compute; reflexivity|].
  apply (second_pass_does_nothing Samples.repliesOnce Samples.repliesOnce
           Samples.bot Samples.bot 5 5 "INBOX" "INBOX" msg msg w).
  - vm_compute. reflexivity.
  - reflexivity.
Defined.

(** X19. A message for which one of the five tests of [processEmail]
    succeeds (they cover the five rules) never reaches the responder,
    whether or not disk and mailbox respond: processing it invokes no
    responder, submits no mail and gives no sender a reply timestamp it
    did not have. *)
Theorem filtered_message_never_reaches_responder runtime account (maxReplies : Z)
    (folder : string) (msg : ParsedEmail) (w : World) (rule : Rule) :
  firstMatchingRule account maxReplies msg w = Some rule →
  let w' := (processEmail runtime account maxReplies folder msg w).2 in
  responderCalls w' = responderCalls w
  ∧ outbox w' = outbox w
  ∧ ∀ sender, timestampsOf sender (currentStore w')
              `sublist_of` timestampsOf sender (currentStore w).
Proof.
  intros Hrule w'. subst w'. rewrite processEmail_eq, Hrule.
  change (quiet w (match rule with
                   | AlreadyProcessed => (Normal tt, loaded w)
                   | RateLimited => consume folder msg (withClockRead (loaded w))
                   | _ => consume folder msg (loaded w)
                   end).2).
  destruct rule.
  - apply quiet_loaded.
  - eapply quiet_trans; [apply quiet_loaded|apply quiet_consume].
  - eapply quiet_trans; [apply quiet_loaded|apply quiet_consume].
  - eapply quiet_trans; [apply quiet_loaded|apply quiet_consume].
  - eapply quiet_trans; [apply quiet_clockRead|apply quiet_consume].
Qed.

Lemma filtered_message_never_reaches_responder_witness :
  responderCalls
    (processEmail Samples.repliesOnce Samples.bot 5 "INBOX"
       (Samples.message "<m1@x>" "Mailer-Daemon@vendor.com" 7 ∅ None)
       {| stateCache := None; stateFile := FileUnreadable; diskWritable := false;
          diskWrites := 0; clock := fun _ => 0; clockReads := 0;
          entropy := fun _ => "k3x9"; entropyReads := 0;
          mailbox := [Samples.unseen 7 "a"]; imapUp := false; imapLog := [];
          transporterCache := ∅;
          smtpServer := fun _ _ _ => Delivered "<r@x>"; outbox := [];
          responderCalls := [] |}).2
  = [].
Proof.
  match goal with |- responderCalls (processEmail ?r ?a ?n ?f ?m ?v).2 = _ =>
    destruct (filtered_message_never_reaches_responder r a n f m v IgnoredSender)
      as (Hcalls & _)
  end.
  - vm_compute. reflexivity.
  - exact Hcalls.
Defined.

(** X20. When a rule other than the first matches but the state file or
    the mailbox refuses the update, [processEmail] throws and the message
    keeps its flags; the id is nevertheless in the cached store, so every
    later pass over the message in this process skips it by rule 1,
    without flagging it seen. *)
Theorem failed_skip_leaves_message_unseen runtime runtime' account account'
    (maxReplies maxReplies' : Z) (folder folder' : string) (msg : ParsedEmail)
    (w : World) (rule : Rule) :
  firstMatchingRule account maxReplies msg w = Some rule →
  rule ≠ AlreadyProcessed →
  diskWritable w = false ∨ imapUp w = false →
  let first := processEmail runtime account maxReplies folder msg w in
  (∃ e, first.1 = Abrupt e)
  ∧ mailbox first.2 = mailbox w
  ∧ messageId msg ∈ processedIds (currentStore first.2)
  ∧ processEmail runtime' account' maxReplies' folder' msg first.2
    = (Normal tt, first.2).
Proof.
  intros Hrule Hnot Hfail first. subst first.
  assert (Hnew : Js.arrayIncludes (processedIds (currentStore w)) (messageId msg)
                 = false).
  { unfold firstMatchingRule in Hrule. rewrite loadState_eq in Hrule.
    destruct (Js.arrayIncludes _ _); [|done]. by injection Hrule as <-. }
  assert (Hconsume : ∀ v,
    currentStore v = currentStore w → diskWritable v = diskWritable w →
    imapUp v = imapUp w → mailbox v = mailbox w →
    (∃ e, (consume folder msg v).1 = Abrupt e)
    ∧ mailbox (consume folder msg v).2 = mailbox w).
  { intros v Hstore Hdisk Hup Hbox. rewrite consume_eq.
    pose proof (markMessageProcessed_frame (messageId msg) v) as Hframe.
    pose proof (markMessageProcessed_eq (messageId msg) v) as Hmark.
    cbv zeta in Hmark. rewrite Hstore, Hnew in Hmark.
    rewrite saveState_eq in Hmark. cbv zeta in Hmark. simpl in Hmark.
    destruct (loaded_frame v) as (Hs & _). injection Hs as Hd _ _ _ _.
    rewrite Hd, Hdisk in Hmark.
    destruct (diskWritable w) eqn:Hw.
    - destruct Hfail as [?|Himap]; [done|].
      rewrite Hmark in *. simpl in Hframe. injection Hframe as _ Hu _ Hb _.
      rewrite markAsRead_eq. simpl.
      destruct (loaded_frame v) as (Hs & _). injection Hs as _ Hu' _ Hb' _.
      rewrite Hu', Hup, Himap. simpl. split; [by eexists|]. by rewrite Hb'.
    - rewrite Hmark. simpl. split; [by eexists|].
      destruct (loaded_frame v) as (Hs & _). injection Hs as _ _ _ Hb' _.
      by rewrite Hb'. }
  assert (Hloaded : currentStore (loaded w) = currentStore w
                    ∧ diskWritable (loaded w) = diskWritable w
                    ∧ imapUp (loaded w) = imapUp w
                    ∧ mailbox (loaded w) = mailbox w).
  { destruct (loaded_frame w) as (Hs & _). injection Hs as ? ? _ ? _.
    by rewrite currentStore_loaded. }
  destruct Hloaded as (Hl1 & Hl2 & Hl3 & Hl4).
  rewrite processEmail_eq, Hrule.
  destruct rule; [done|..].
  1-3: destruct (Hconsume (loaded w) Hl1 Hl2 Hl3 Hl4) as [Hthrow Hbox];
       destruct (consume_remembers folder msg (loaded w)) as [Hc Hin];
       split; [done|]; split; [done|]; split; [done|];
       apply processEmail_known; [done|by rewrite Hc].
  destruct (Hconsume (withClockRead (loaded w)) Hl1 Hl2 Hl3 Hl4) as [Hthrow Hbox].
  destruct (consume_remembers folder msg (withClockRead (loaded w))) as [Hc Hin].
  split; [done|]. split; [done|]. split; [done|].
  apply processEmail_known; [done|by rewrite Hc].
Qed.

Lemma failed_skip_leaves_message_unseen_witness :
  let w := {| stateCache := None; stateFile := FileAbsent; diskWritable := true;
              diskWrites := 0; clock := fun _ => 0; clockReads := 0;
              entropy := fun _ => "k3x9"; entropyReads := 0;
              mailbox := [Samples.unseen 7 "a"]; imapUp := false; imapLog := [];
              transporterCache := ∅;
              smtpServer := fun _ _ _ => Delivered "<r@x>"; outbox := [];
              responderCalls := [] |} in
  let msg := Samples.message "<m1@x>" "noreply@vendor.com" 7 ∅ None in
  let first := processEmail Samples.repliesOnce Samples.bot 5 "INBOX" msg w in
  isSeen 7 first.2 = false
  ∧ processEmail Samples.repliesOnce Samples.bot 5 "INBOX" msg first.2
    = (Normal tt, first.2).
Proof.
  intros w msg first. split; [vm_compute; reflexivity|].
  destruct (failed_skip_leaves_message_unseen Samples.repliesOnce
              Samples.repliesOnce Samples.bot Samples.bot 5 5 "INBOX" "INBOX"
              msg w IgnoredSender) as (_ & _ & _ & Hagain).
  - vm_compute. reflexivity.
  - discriminate.
  - right. reflexivity.
  - exact Hagain.
Defined.

(** ** Backoff *)

(** The delay in force after [k] refused attempts in a row. *)
Lemma backoff_step (k : Z) :
  0 ≤ k →
  Z.min (Z.min (baseRetryDelay * 2 ^ k) maxRetryDelay * 2) maxRetryDelay
  = Z.min (baseRetryDelay * 2 ^ (k + 1)) maxRetryDelay.
Proof.
  intros Hk. rewrite Z.pow_add_r, Z.pow_1_r by lia.
  unfold baseRetryDelay, maxRetryDelay.
  assert (0 < 2 ^ k) by (apply Z.pow_pos_nonneg; lia). lia.
Qed.

Lemma connectWithRetry_refused errs rest (k : Z) :
  0 ≤ k →
  ∃ tail,
    tail = connectWithRetry rest
             (Z.min (baseRetryDelay * 2 ^ (k + Z.of_nat (length errs))) maxRetryDelay)
    ∧ connectWithRetry ((ConnectRefused <$> errs) ++ rest)
        (Z.min (baseRetryDelay * 2 ^ k) maxRetryDelay)
      = {| outcome := outcome tail;
           retryDelayAfter := retryDelayAfter tail;
           slept := ((fun i => Z.min (baseRetryDelay * 2 ^ (k + Z.of_nat i))
                                 maxRetryDelay)
                       <$> seq 0 (length errs)) ++ slept tail;
           reported := ((fun e => StatusDisconnected (errorText e)) <$> errs)
                       ++ reported tail |}.
Proof.
  revert k. induction errs as [|e errs IH]; intros k Hk.
  - eexists. split; [reflexivity|]. cbn [fmap list_fmap app length seq].
    rewrite Z.add_0_r. by destruct (connectWithRetry _ _).
  - destruct (IH (k + 1)) as (tail & Htail & Hrun); [lia|].
    exists tail. split.
    { replace (k + Z.of_nat (length (e :: errs)))
        with (k + 1 + Z.of_nat (length errs)) by (rewrite length_cons; lia).
      exact Htail. }
    rewrite fmap_cons. cbn [app connectWithRetry].
    rewrite (backoff_step k Hk), Hrun. cbn [outcome retryDelayAfter slept reported].
    f_equal.
    cbn [length seq]. rewrite fmap_cons, Z.add_0_r. cbn [app]. f_equal. f_equal.
    rewrite <- fmap_S_seq, <- list_fmap_compose.
    apply list_fmap_ext. intros i x _. unfold compose.
    replace (k + 1 + Z.of_nat x) with (k + Z.of_nat (S x)) by lia. done.
Qed.

(** X21. Starting from the base delay, [connectWithRetry] sleeps
    [min(1000 * 2^i, 60000)] milliseconds after the [i]-th refused attempt
    in a row, so never less than a second nor more than a minute, and a
    minute from the seventh refusal on. When an attempt is accepted it
    returns with the delay back at the base; when the signal is found
    aborted it throws, having slept out every earlier delay in full. One
    disconnected status is reported per refusal. *)
Theorem connectWithRetry_backs_off (errs : list Thrown) (rest : list Attempt) :
  let schedule :=
    (fun i => Z.min (baseRetryDelay * 2 ^ Z.of_nat i) maxRetryDelay)
      <$> seq 0 (length errs) in
  let statuses := (fun e => StatusDisconnected (errorText e)) <$> errs in
  connectWithRetry ((ConnectRefused <$> errs) ++ ConnectAccepted :: rest)
    baseRetryDelay
  = {| outcome := Connected; retryDelayAfter := baseRetryDelay;
       slept := schedule; reported := statuses ++ [StatusConnected] |}
  ∧ outcome (connectWithRetry ((ConnectRefused <$> errs) ++ SignalAborted :: rest)
               baseRetryDelay) = ThrewAborted
  ∧ slept (connectWithRetry ((ConnectRefused <$> errs) ++ SignalAborted :: rest)
             baseRetryDelay) = schedule
  ∧ (∀ i d, schedule !! i = Some d →
       baseRetryDelay ≤ d ≤ maxRetryDelay
       ∧ (6 ≤ i → d = maxRetryDelay)%nat
       ∧ ∀ d', schedule !! S i = Some d' → d ≤ d').
Proof.
  intros schedule statuses.
  assert (Hbase : baseRetryDelay = Z.min (baseRetryDelay * 2 ^ 0) maxRetryDelay)
    by reflexivity.
  assert (Hlookup : ∀ i d, schedule !! i = Some d →
            d = Z.min (baseRetryDelay * 2 ^ Z.of_nat i) maxRetryDelay).
  { intros i d. subst schedule. rewrite list_lookup_fmap.
    destruct (seq 0 (length errs) !! i) as [j|] eqn:Hj; [|discriminate].
    apply lookup_seq in Hj as [-> _]. simpl. by intros [= <-]. }
  assert (Hrun : ∀ rest',
    ∃ tail,
      tail = connectWithRetry rest'
               (Z.min (baseRetryDelay * 2 ^ (0 + Z.of_nat (length errs)))
                  maxRetryDelay)
      ∧ connectWithRetry ((ConnectRefused <$> errs) ++ rest') baseRetryDelay
        = {| outcome := outcome tail; retryDelayAfter := retryDelayAfter tail;
             slept := schedule ++ slept tail;
             reported := statuses ++ reported tail |}).
  { intros rest'.
    destruct (connectWithRetry_refused errs rest' 0) as (tail & Htail & Heq); [lia|].
    exists tail. split; [done|]. rewrite Hbase at 1. rewrite Heq. done. }
  split; [|split; [|split]].
  - destruct (Hrun (ConnectAccepted :: rest)) as (tail & -> & ->).
    cbn [connectWithRetry outcome retryDelayAfter slept reported].
    by rewrite app_nil_r.
  - destruct (Hrun (SignalAborted :: rest)) as (tail & -> & ->). done.
  - destruct (Hrun (SignalAborted :: rest)) as (tail & -> & ->).
    cbn [connectWithRetry slept]. by rewrite app_nil_r.
  - intros i d Hd. apply Hlookup in Hd as ->.
    assert (Hpow : 1 ≤ 2 ^ Z.of_nat i).
    { assert (0 < 2 ^ Z.of_nat i) by (apply Z.pow_pos_nonneg; lia). lia. }
    split; [unfold baseRetryDelay, maxRetryDelay; lia|]. split.
    + intros Hi. assert (2 ^ 6 ≤ 2 ^ Z.of_nat i)
        by (apply Z.pow_le_mono_r; lia).
      unfold baseRetryDelay, maxRetryDelay. lia.
    + intros d' Hd'. apply Hlookup in Hd' as ->.
      assert (2 ^ Z.of_nat i ≤ 2 ^ Z.of_nat (S i))
        by (apply Z.pow_le_mono_r; lia).
      unfold baseRetryDelay, maxRetryDelay. lia.
Qed.

Lemma connectWithRetry_backs_off_witness :
  slept (connectWithRetry
           [ConnectRefused (ThrownError "ECONNREFUSED");
            ConnectRefused (ThrownError "ETIMEDOUT"); ConnectAccepted]
           baseRetryDelay)
  = [1000; 2000].
Proof.
  destruct (connectWithRetry_backs_off
              [ThrownError "ECONNREFUSED"; ThrownError "ETIMEDOUT"] [])
    as (Hrun & _).
  etrans; [exact (f_equal slept Hrun)|]. vm_compute. reflexivity.
Defined.

(** ** Batches *)

Lemma processBatch_app runtime account maxReplies folder aborted handled
    before after w :
  (∀ i, (handled ≤ i < handled + length before)%nat → aborted i = false) →
  processBatch runtime account maxReplies folder aborted handled (before ++ after) w
  = match processBatch runtime account maxReplies folder aborted handled before w with
    | (Normal _, v) =>
        processBatch runtime account maxReplies folder aborted
          (handled + length before) after v
    | (Abrupt e, v) => (Abrupt e, v)
    end.
Proof.
  revert handled w. induction before as [|msg before IH]; intros handled w Hrun.
  - simpl. by rewrite Nat.add_0_r.
  - cbn [app processBatch]. rewrite (Hrun handled) by (simpl; lia).
    unfold mbind, Eff_bind, bind.
    destruct (processEmail runtime account maxReplies folder msg w) as [[[]|e] v];
      [|done].
    rewrite IH by (intros i Hi; apply Hrun; simpl; lia).
    by replace (handled + length (msg :: before))%nat
         with (S handled + length before)%nat by (simpl; lia).
Qed.

(** X22. A batch is processed in order and ends at the first message
    whose processing throws: the exception leaves the loop, the world is
    as that message left it, and the messages behind it are not processed
    in this poll. The polling turn then reports the error and drops the
    client. *)
Theorem batch_stops_at_first_failure simpleParser convert runtime account
    (maxReplies : Z) (folder : string) (aborted : nat → bool)
    (before after : list ParsedEmail) (msg : ParsedEmail)
    (w0 w v v' : World) (err : Thrown) :
  (∀ i, (i ≤ length before)%nat → aborted i = false) →
  processBatch runtime account maxReplies folder aborted 0 before w = (Normal tt, v) →
  processEmail runtime account maxReplies folder msg v = (Abrupt err, v') →
  processBatch runtime account maxReplies folder aborted 0 (before ++ msg :: after) w
  = (Abrupt err, v')
  ∧ (fetchUnreadEmails simpleParser convert folder 20 w0
     = (Normal (before ++ msg :: after), w) →
     pollTurn simpleParser convert runtime account maxReplies folder aborted w0
     = (StatusFailed (errorText err), false, v')).
Proof.
  intros Hrun Hbefore Hmsg.
  assert (Hbatch :
    processBatch runtime account maxReplies folder aborted 0 (before ++ msg :: after) w
    = (Abrupt err, v')).
  { rewrite processBatch_app by (intros i Hi; apply Hrun; lia).
    rewrite Hbefore. cbn [processBatch].
    rewrite (Hrun (0 + length before)%nat) by lia.
    unfold mbind, Eff_bind, bind. by rewrite Hmsg. }
  split; [exact Hbatch|].
  intros Hfetch. unfold pollTurn, pollOnce, mbind, Eff_bind, bind.
  by rewrite Hfetch, Hbatch.
Qed.

Lemma batch_stops_at_first_failure_witness :
  let w := {| stateCache := None; stateFile := FileAbsent; diskWritable := true;
              diskWrites := 0; clock := fun _ => 0; clockReads := 0;
              entropy := fun _ => "k3x9"; entropyReads := 0;
              mailbox := [Samples.unseen 7 "a"; Samples.unseen 8 "b"];
              imapUp := true; imapLog := []; transporterCache := ∅;
              smtpServer := fun _ _ _ => Delivered "<r@x>"; outbox := [];
              responderCalls := [] |} in
  let first := Samples.message "<m1@x>" "alice@example.com" 7 ∅ None in
  let second := Samples.message "<m2@x>" "bob@example.com" 8 ∅ None in
  let failing (_ : InboundEmail) := Rejects (ThrownError "agent unavailable") in
  ∃ v',
    processBatch failing Samples.bot 5 "INBOX" (fun _ => false) 0 [first; second] w
    = (Abrupt (ThrownError "agent unavailable"), v')
    ∧ length (responderCalls v') = 1%nat.
Proof.
  intros w first second failing. eexists. split.
  - refine (proj1 (batch_stops_at_first_failure Samples.simpleParser
                     (fun html => html) failing Samples.bot
                     5 "INBOX" (fun _ => false) [] [second] first w w w _
                     (ThrownError "agent unavailable") _ _ _)).
    + reflexivity.
    + reflexivity.
    + vm_compute. reflexivity.
  - vm_compute. reflexivity.
Defined.

(** X23. When the abort signal is first observed after [k] messages of a
    batch, exactly those [k] messages are processed, as in a run that is
    never aborted, and the loop is left without an exception. *)
Theorem batch_stops_when_aborted runtime account (maxReplies : Z)
    (folder : string) (aborted : nat → bool) (k : nat)
    (emails : list ParsedEmail) (w : World) :
  (∀ i, (i < k)%nat → aborted i = false) →
  aborted k = true →
  (k < length emails)%nat →
  processBatch runtime account maxReplies folder aborted 0 emails w
  = processBatch runtime account maxReplies folder (fun _ => false) 0
      (take k emails) w.
Proof.
  intros Hbefore Hk Hlen.
  rewrite <- (take_drop k emails) at 1.
  rewrite processBatch_app
    by (intros i Hi; apply Hbefore; rewrite length_take in Hi; lia).
  assert (Hsame : ∀ handled batch v,
    (∀ i, (handled ≤ i < handled + length batch)%nat → aborted i = false) →
    processBatch runtime account maxReplies folder aborted handled batch v
    = processBatch runtime account maxReplies folder (fun _ => false) handled batch v).
  { intros handled batch. revert handled.
    induction batch as [|msg batch IH]; intros handled v Hrun; [done|].
    cbn [processBatch]. rewrite (Hrun handled) by (simpl; lia).
    unfold mbind, Eff_bind, bind.
    destruct (processEmail runtime account maxReplies folder msg v) as [[[]|e] v1];
      [|done].
    apply IH. intros i Hi. apply Hrun. simpl. lia. }
  rewrite Hsame by (intros i Hi; apply Hbefore; rewrite length_take in Hi; lia).
  destruct (processBatch _ _ _ _ (fun _ => false) 0 (take k emails) w)
    as [[[]|e] v]; [|done].
  rewrite length_take. replace (0 + k `min` length emails)%nat with k by lia.
  destruct (drop k emails) as [|msg rest] eqn:Hdrop.
  - apply (f_equal length) in Hdrop. rewrite length_drop in Hdrop. simpl in Hdrop. lia.
  - cbn [processBatch]. by rewrite Hk.
Qed.

Lemma batch_stops_when_aborted_witness :
  let w := Samples.world (Samples.storeWith [] ∅)
             [Samples.unseen 7 "a"; Samples.unseen 8 "b"] 0 (Delivered "<r@x>") in
  let first := Samples.message "<m1@x>" "alice@example.com" 7 ∅ None in
  let second := Samples.message "<m2@x>" "bob@example.com" 8 ∅ None in
  responderCalls
    (processBatch Samples.repliesOnce Samples.bot 5 "INBOX"
       (fun handled => bool_decide (1 ≤ handled)%nat) 0 [first; second] w).2
  = [inboundContext Samples.bot first].
Proof.
  intros w first second.
  rewrite (batch_stops_when_aborted Samples.repliesOnce Samples.bot 5 "INBOX"
             (fun handled => bool_decide (1 ≤ handled)%nat) 1 [first; second] w).
  - vm_compute. reflexivity.
  - intros i Hi. apply bool_decide_eq_false. lia.
  - reflexivity.
  - simpl. lia.
Defined.

(** ** From a reply to the next message *)

Lemma markMessageProcessed_new id v :
  Js.arrayIncludes (processedIds (currentStore v)) id = false →
  let v' := (markMessageProcessed id v).2 in
  rateLimits (currentStore v')
  = purgeRateLimits (clock v (clockReads v)) (rateLimits (currentStore v))
  ∧ clock v' = clock v ∧ clockReads v' = S (clockReads v).
Proof.
  intros Hnew. cbv zeta. rewrite markMessageProcessed_eq. cbv zeta. rewrite Hnew.
  destruct (loaded_frame v) as (_ & _ & _ & _ & Hk & Hr).
  split.
  - rewrite currentStore_saveState. simpl. by rewrite Hk, Hr.
  - rewrite saveState_eq. cbv zeta.
    destruct (diskWritable _); simpl; by rewrite Hk, Hr.
Qed.

Lemma markAsRead_clock folder u v :
  clock (markAsRead folder u v).2 = clock v
  ∧ clockReads (markAsRead folder u v).2 = clockReads v.
Proof. rewrite markAsRead_eq. by destruct (imapUp v). Qed.

Lemma recordReply_clock sender v :
  readsInherited (rateLimits (currentStore v)) sender = false →
  clock (recordReply sender v).2 = clock v
  ∧ clockReads (recordReply sender v).2 = S (S (clockReads v)).
Proof.
  intros Hread. unfold recordReply, mbind, Eff_bind, bind. rewrite loadState_eq.
  unfold dateNow, modify. rewrite Hread. simpl. rewrite saveState_eq. cbv zeta.
  destruct (loaded_frame v) as (_ & _ & _ & _ & Hk & Hr).
  destruct (diskWritable _); simpl; by rewrite Hk, Hr.
Qed.

Lemma recentTimestamps_elem now ts timestamps :
  ts ∈ recentTimestamps now timestamps
  ↔ now - ts < RATE_LIMIT_WINDOW_MS ∧ ts ∈ timestamps.
Proof.
  unfold recentTimestamps. rewrite list_elem_of_filter.
  unfold withinWindow. by rewrite Z.ltb_lt.
Qed.

(** X24. A delivered reply counts against the sender's next message.
    Take a message that [processEmail] hands to the responder (no test
    of the chain succeeds and [checkRateLimit] returns), a responder that
    replies once and resolves, and a transport that accepts the mail.
    Afterwards the sender's list is its former list with the clock
    reading taken at recording time, filtered at the two saves that
    follow; and a next message from that sender, processed under a
    ceiling not above what a check then counts, invokes no responder and
    sends no mail. The reading just recorded is counted as long as saves
    and check fall within a window of it. *)
Theorem delivered_reply_counts_against_sender runtime runtime' account account'
    (maxReplies maxReplies' : Z) (folder folder' : string)
    (msg msg' : ParsedEmail) (text : string) (w : World) :
  firstMatchingRule account maxReplies msg w = None →
  readsInherited (rateLimits (currentStore w)) (from msg) = false →
  runtime (inboundContext account msg) = CallsReply text (fun _ => Resolves) →
  (∀ n t m, ∃ id, smtpServer w n t m = Delivered id) →
  from msg' = from msg →
  let reading i := clock w (clockReads w + i)%nat in
  let first := processEmail runtime account maxReplies folder msg w in
  let counted := recentTimestamps (reading 5%nat)
                   (timestampsOf (from msg) (currentStore first.2)) in
  timestampsOf (from msg) (currentStore first.2)
  = recentTimestamps (reading 4%nat)
      (recentTimestamps (reading 3%nat)
         (timestampsOf (from msg) (currentStore w) ++ [reading 2%nat]))
  ∧ ((∀ i, (3 ≤ i ≤ 5)%nat → reading i - reading 2%nat < RATE_LIMIT_WINDOW_MS) →
     reading 2%nat ∈ counted)
  ∧ (maxReplies' ≤ Z.of_nat (length counted) →
     let second := processEmail runtime' account' maxReplies' folder' msg' first.2 in
     responderCalls second.2 = responderCalls first.2
     ∧ outbox second.2 = outbox first.2).
Proof.
  intros Hrule Hread Hresp Haccept Hfrom reading first counted.
  assert (Hnew : Js.arrayIncludes (processedIds (currentStore w)) (messageId msg)
                 = false).
  { unfold firstMatchingRule in Hrule. rewrite loadState_eq in Hrule.
    by destruct (Js.arrayIncludes _ _). }
  (* the world when the responder is called *)
  set (v1 := withResponderCall (inboundContext account msg)
               (withClockRead (loaded w))).
  assert (Hv1 : currentStore v1 = currentStore w ∧ stateCache v1 = stateCache (loaded w)
                ∧ stateFile v1 = stateFile w
                ∧ diskWritable v1 = diskWritable w
                ∧ clock v1 = clock w ∧ clockReads v1 = S (clockReads w)
                ∧ smtpServer v1 = smtpServer w).
  { destruct (loaded_frame w) as (Hs & _ & Hf & _ & Hk & Hr).
    injection Hs as Hd _ _ _ _. subst v1. unfold currentStore at 1. simpl.
    fold (currentStore (loaded w)). rewrite currentStore_loaded.
    repeat split; try done. by rewrite Hr.
    unfold loaded. by destruct (stateCache w). }
  destruct Hv1 as (Hs1 & _ & Hf1 & Hd1 & Hk1 & Hr1 & Hsrv1).
  (* the reply *)
  pose proof (replyClosure_eq account msg text v1) as Hreply. cbv zeta in Hreply.
  destruct (getSmtpTransporter_frame
              {| so_host := smtpHost (config account);
                 so_port := default 587 (smtpPort (config account));
                 so_user := default (imapUser (config account))
                              (smtpUser (config account));
                 so_password := default (imapPassword (config account))
                                  (smtpPassword (config account));
                 so_tls := default false (smtpTls (config account));
                 so_startTls := default true (smtpStartTls (config account)) |} v1)
    as (t & v & Hget & Hc & Hf & Hd & _ & Hk & Hr & _).
  rewrite Hget in Hreply.
  match type of Hreply with context [withSubmission t ?m _] =>
    destruct (replyClosure_before_record v v1 t m Hc Hf Hd Hk Hr)
      as (Hstore2 & _ & _ & _ & Hclock2 & Hreads2);
    set (w2 := withSubmission t m (withEntropyRead (withClockRead v))) in *;
    destruct (Haccept (length (outbox v1)) t m) as [id Hdelivered]
  end.
  rewrite Hsrv1, Hdelivered in Hreply.
  assert (Hread2 : readsInherited (rateLimits (currentStore w2)) (from msg) = false).
  { by rewrite Hstore2, Hs1. }
  pose proof (recordReply_store (from msg) w2 Hread2) as Hrec.
  destruct (recordReply_clock (from msg) w2 Hread2) as [Hclock3 Hreads3].
  rewrite Hstore2, Hclock2, Hreads2, Hs1, Hk1, Hr1 in Hrec.
  rewrite Hclock2, Hk1 in Hclock3. rewrite Hreads2, Hr1 in Hreads3.
  set (w3 := (recordReply (from msg) w2).2) in *.
  assert (Hinbound : ∃ c, processInbound runtime account msg (withClockRead (loaded w))
                          = (c, w3)).
  { unfold processInbound, mbind, Eff_bind, bind, modify. fold v1.
    rewrite Hresp. cbn [runResponder]. rewrite Hreply. subst w3.
    destruct (recordReply (from msg) w2) as [[[]|e] w3']; by eexists. }
  destruct Hinbound as [c Hinbound].
  (* consuming the message *)
  assert (Hnew3 : Js.arrayIncludes (processedIds (currentStore w3)) (messageId msg)
                  = false).
  { rewrite Hrec. simpl. apply arrayIncludes_false. intros Hin.
    eapply elem_of_sublist in Hin; [|apply trimProcessedIds_sublist].
    by apply arrayIncludes_false in Hnew. }
  destruct (markMessageProcessed_new (messageId msg) w3 Hnew3) as (Hrl4 & Hclock4 & Hreads4).
  set (w4 := (markMessageProcessed (messageId msg) w3).2) in *.
  assert (Hfinal : ∃ w5, first.2 = w5
                         ∧ currentStore w5 = currentStore w4
                         ∧ clock w5 = clock w4 ∧ clockReads w5 = clockReads w4).
  { subst first. rewrite processEmail_eq, Hrule, Hread.
    unfold mbind, Eff_bind, bind. rewrite Hinbound.
    destruct c as [[]|e].
    - rewrite consume_eq. subst w4.
      destruct (markMessageProcessed (messageId msg) w3) as [[[]|e] w4'] eqn:Hm;
        simpl.
      + destruct (markAsRead_props folder (uid msg) w4') as (Hst & _).
        destruct (markAsRead_clock folder (uid msg) w4') as [Hck Hrd].
        by eexists.
      + by eexists.
    - (* the reply threw: the closure still resolves, so this cannot be *)
      exfalso. revert Hinbound.
      unfold processInbound, mbind, Eff_bind, bind, modify. fold v1.
      rewrite Hresp. cbn [runResponder]. rewrite Hreply.
      by destruct (recordReply (from msg) w2) as [[[]|e'] w3']. }
  destruct Hfinal as (w5 & Hw5 & Hstore5 & Hclock5 & Hreads5).
  assert (Hlist : timestampsOf (from msg) (currentStore first.2)
            = recentTimestamps (reading 4%nat)
                (recentTimestamps (reading 3%nat)
                   (timestampsOf (from msg) (currentStore w) ++ [reading 2%nat]))).
  { rewrite Hw5, Hstore5. unfold timestampsOf at 1. rewrite Hrl4.
    rewrite timestampsOf_purged, Hclock3, Hreads3.
    rewrite Hrec. simpl. rewrite timestampsOf_purged, lookup_insert_eq. simpl.
    subst reading. cbv beta.
    by replace (clockReads w + 4)%nat with (S (S (S (S (clockReads w))))) by lia;
       replace (clockReads w + 3)%nat with (S (S (S (clockReads w)))) by lia;
       replace (clockReads w + 2)%nat with (S (S (clockReads w))) by lia. }
  split; [exact Hlist|]. split.
  - intros Hwindow. subst counted. rewrite Hlist.
    rewrite !recentTimestamps_elem.
    split; [apply Hwindow; lia|]. split; [apply Hwindow; lia|].
    split; [apply Hwindow; lia|]. apply elem_of_app. right. by left.
  - intros Hceiling second. subst second.
    assert (Hnow : clock first.2 (clockReads first.2) = reading 5%nat).
    { rewrite Hw5, Hclock5, Hreads5, Hclock4, Hreads4, Hclock3, Hreads3.
      subst reading. cbv beta. f_equal. lia. }
    assert (Hq : quiet first.2
              (processEmail runtime' account' maxReplies' folder' msg' first.2).2).
    { rewrite processEmail_eq.
      destruct (firstMatchingRule account' maxReplies' msg' first.2)
        as [rule|] eqn:Hmatch.
      - destruct rule.
        + apply quiet_loaded.
        + eapply quiet_trans; [apply quiet_loaded|apply quiet_consume].
        + eapply quiet_trans; [apply quiet_loaded|apply quiet_consume].
        + eapply quiet_trans; [apply quiet_loaded|apply quiet_consume].
        + eapply quiet_trans; [apply quiet_clockRead|apply quiet_consume].
      - destruct (readsInherited (rateLimits (currentStore first.2)) (from msg'))
          eqn:Hread'.
        { apply quiet_clockRead. }
        exfalso. unfold firstMatchingRule in Hmatch.
        rewrite loadState_eq, Hread' in Hmatch.
        fold (timestampsOf (from msg') (currentStore first.2)) in Hmatch.
        rewrite Hnow, Hfrom in Hmatch. fold counted in Hmatch.
        destruct (Z.ltb_spec (Z.of_nat (length counted)) maxReplies'); [lia|].
        repeat case_match; discriminate. }
    destruct Hq as (Hcalls & Hout & _). done.
Qed.

Lemma delivered_reply_counts_against_sender_witness :
  responderCalls
    (processEmail Samples.repliesOnce Samples.bot 1 "INBOX"
       (Samples.message "<m2@x>" "alice@example.com" 8 ∅ None)
       (processEmail Samples.repliesOnce Samples.bot 1 "INBOX"
          (Samples.message "<m1@x>" "alice@example.com" 7 ∅ None)
          (Samples.world (Samples.storeWith [] ∅)
             [Samples.unseen 7 "a"; Samples.unseen 8 "b"] 100
             (Delivered "<r@x>"))).2).2
  = responderCalls
      (processEmail Samples.repliesOnce Samples.bot 1 "INBOX"
         (Samples.message "<m1@x>" "alice@example.com" 7 ∅ None)
         (Samples.world (Samples.storeWith [] ∅)
            [Samples.unseen 7 "a"; Samples.unseen 8 "b"] 100
            (Delivered "<r@x>"))).2.
Proof.
  assert (Hserver : ∀ n t m, ∃ id,
            smtpServer (Samples.world (Samples.storeWith [] ∅)
                          [Samples.unseen 7 "a"; Samples.unseen 8 "b"] 100
                          (Delivered "<r@x>")) n t m = Delivered id).
  { intros. by eexists. }
  assert (Hrule : firstMatchingRule Samples.bot 1
                    (Samples.message "<m1@x>" "alice@example.com" 7 ∅ None)
                    (Samples.world (Samples.storeWith [] ∅)
                       [Samples.unseen 7 "a"; Samples.unseen 8 "b"] 100
                       (Delivered "<r@x>")) = None).
  { vm_compute. reflexivity. }
  assert (Hread : readsInherited
                    (rateLimits
                       (currentStore
                          (Samples.world (Samples.storeWith [] ∅)
                             [Samples.unseen 7 "a"; Samples.unseen 8 "b"] 100
                             (Delivered "<r@x>"))))
                    "alice@example.com" = false).
  { vm_compute. reflexivity. }
  destruct (delivered_reply_counts_against_sender
              Samples.repliesOnce Samples.repliesOnce Samples.bot Samples.bot
              1 1 "INBOX" "INBOX"
              (Samples.message "<m1@x>" "alice@example.com" 7 ∅ None)
              (Samples.message "<m2@x>" "alice@example.com" 8 ∅ None)
              "Thanks for your message."
              (Samples.world (Samples.storeWith [] ∅)
                 [Samples.unseen 7 "a"; Samples.unseen 8 "b"] 100
                 (Delivered "<r@x>"))
              Hrule Hread eq_refl Hserver eq_refl) as (_ & _ & Hsecond).
  apply Hsecond. vm_compute. discriminate.
Defined.

(** ** Account ids *)

Lemma not_self_snoc {A} (l : list A) (x : A) : l ≠ l ++ [x].
Proof.
  intros Heq. apply (f_equal length) in Heq.
  rewrite length_app in Heq. simpl in Heq. lia.
Qed.

(** X25. With an email channel configured, [listEmailAccountIds] lists
    every key of [accounts], in the order of the object, followed by at
    most one more id, "default"; the list is never empty, and it has no
    duplicates as long as the keys have none. "default" is added exactly
    when no account is called so and either there is no account at all
    or a top-level imapHost or imapUser is set. *)
Theorem listEmailAccountIds_keeps_accounts (c : EmailChannelConfig) :
  let keys := default [] (accountKeys c) in
  let ids := listEmailAccountIds (Some c) in
  let implied := bool_decide (is_Some (truthyString (topImapHost c)))
                 || bool_decide (is_Some (truthyString (topImapUser c))) in
  ids ≠ []
  ∧ (ids = keys ∨ ids = keys ++ [DEFAULT_ACCOUNT_ID])
  ∧ ((ids = keys ++ [DEFAULT_ACCOUNT_ID])
     ↔ ((DEFAULT_ACCOUNT_ID ∉ keys) ∧ (keys = [] ∨ implied = true)))
  ∧ (NoDup keys → NoDup ids).
Proof.
  intros keys ids implied. subst ids. unfold listEmailAccountIds.
  fold keys. fold implied.
  destruct implied.
  - destruct (Js.arrayIncludes keys DEFAULT_ACCOUNT_ID) eqn:Hin;
      cbn [negb].
    + apply arrayIncludes_true in Hin.
      destruct keys as [|k keys']; [by apply elem_of_nil in Hin|].
      rewrite bool_decide_eq_false_2 by done.
      split; [done|]. split; [by left|]. split; [|done].
      split; [|by intros [? _]].
      intros Heq. by apply not_self_snoc in Heq.
    + apply arrayIncludes_false in Hin.
      rewrite bool_decide_eq_false_2
        by (rewrite length_app; simpl; lia).
      split; [by destruct keys|]. split; [by right|].
      split; [split; [intros _; split; [done|by right]|done]|].
      intros Hnd. apply NoDup_app. split; [done|]. split; [|apply NoDup_singleton].
      intros x Hx ->%list_elem_of_singleton. done.
  - destruct keys as [|k keys'].
    + rewrite bool_decide_eq_true_2 by done.
      split; [done|]. split; [by right|]. split; [|intros; apply NoDup_singleton].
      split; [|done]. intros _. split; [apply not_elem_of_nil|by left].
    + rewrite bool_decide_eq_false_2 by done.
      split; [done|]. split; [by left|]. split; [|done].
      split.
      * intros Heq. by apply not_self_snoc in Heq.
      * intros [_ [?|?]]; done.
Qed.

Lemma listEmailAccountIds_keeps_accounts_witness :
  NoDup (listEmailAccountIds
           (Some {| accountKeys := Some ["work"; "home"];
                    topImapHost := Some "imap.example.com";
                    topImapUser := None |})).
Proof.
  apply (listEmailAccountIds_keeps_accounts
           {| accountKeys := Some ["work"; "home"];
              topImapHost := Some "imap.example.com";
              topImapUser := None |}).
  simpl. apply (bool_decide_unpack _). vm_compute. exact I.
Defined.

Lemma listEmailAccountIds_nonempty channelConfig :
  listEmailAccountIds channelConfig ≠ [].
Proof.
  destruct channelConfig as [c|]; [|done].
  unfold listEmailAccountIds.
  case_bool_decide as Hlen; [done|].
  intros Heq. apply Hlen. by rewrite Heq.
Qed.

(** X26. [resolveDefaultEmailAccountId] returns "default" whenever that
    id is listed, and the first listed id otherwise; what it returns is
    one of the listed ids unless the first listed id is the empty string,
    in which case "default" is returned although no such account is
    listed. *)
Theorem resolveDefaultEmailAccountId_listed
    (channelConfig : option EmailChannelConfig) :
  let ids := listEmailAccountIds channelConfig in
  let chosen := resolveDefaultEmailAccountId channelConfig in
  (DEFAULT_ACCOUNT_ID ∈ ids → chosen = DEFAULT_ACCOUNT_ID)
  ∧ (DEFAULT_ACCOUNT_ID ∉ ids → head ids ≠ Some EmptyString →
     head ids = Some chosen)
  ∧ (head ids ≠ Some EmptyString → chosen ∈ ids)
  ∧ (DEFAULT_ACCOUNT_ID ∉ ids → head ids = Some EmptyString →
     chosen = DEFAULT_ACCOUNT_ID ∧ chosen ∉ ids).
Proof.
  intros ids chosen. subst chosen. unfold resolveDefaultEmailAccountId.
  fold ids.
  pose proof (listEmailAccountIds_nonempty channelConfig) as Hne. fold ids in Hne.
  destruct (Js.arrayIncludes ids DEFAULT_ACCOUNT_ID) eqn:Hin.
  - apply arrayIncludes_true in Hin.
    split; [done|]. split; [done|]. split; [done|]. done.
  - apply arrayIncludes_false in Hin.
    destruct ids as [|first rest]; [done|]. simpl. unfold orElse, truthyString.
    destruct (Js.truthy first) eqn:Hfirst; simpl.
    + apply truthy_true in Hfirst.
      split; [done|]. split; [done|]. split; [by left|].
      intros _ [= ->]. done.
    + apply negb_false_iff, bool_decide_eq_true in Hfirst as ->.
      split; [done|]. split; [done|]. split; [done|]. done.
Qed.

Lemma resolveDefaultEmailAccountId_listed_witness :
  resolveDefaultEmailAccountId
    (Some {| accountKeys := Some [""; "work"];
             topImapHost := None; topImapUser := None |})
  = "default"
  ∧ "default" ∉ listEmailAccountIds
                  (Some {| accountKeys := Some [""; "work"];
                           topImapHost := None; topImapUser := None |}).
Proof.
  apply (resolveDefaultEmailAccountId_listed
           (Some {| accountKeys := Some [""; "work"];
                    topImapHost := None; topImapUser := None |})).
  - apply (bool_decide_unpack _). vm_compute. exact I.
  - reflexivity.
Defined.

(** ** Outbound targets *)

Lemma allChars_app f (s t : string) :
  allChars f (s +:+ t) = allChars f s && allChars f t.
Proof.
  induction s as [|c s IH]; [done|].
  rewrite append_cons. simpl. by rewrite IH, andb_assoc.
Qed.

Lemma afterLocal_split r :
  afterLocal r = true →
  ∃ l d, r = l +:+ "@" +:+ d
         ∧ allChars addressChar l = true ∧ domainLike d = true.
Proof.
  induction r as [|c r IH]; simpl; [done|].
  case_bool_decide as Hc.
  - subst c. intros Hd. by exists EmptyString, r.
  - intros [Hs Hr]%andb_true_iff.
    destruct (IH Hr) as (l & d & -> & Hl & Hd).
    exists (String c l), d. split; [done|]. split; [|done].
    simpl. rewrite Hl. unfold addressChar. rewrite Hs.
    by rewrite bool_decide_eq_false_2.
Qed.

Lemma afterLocal_app l d :
  allChars addressChar l = true →
  afterLocal (l +:+ "@" +:+ d) = domainLike d.
Proof.
  induction l as [|c l IH]; [done|].
  rewrite append_cons. simpl. unfold addressChar.
  intros [[Hs Hc%negb_true_iff]%andb_true_iff Hl]%andb_true_iff.
  by rewrite Hc, Hs, IH.
Qed.

Lemma dotInside_split r :
  dotInside r = true → ∃ a b, r = a +:+ "." +:+ b ∧ b ≠ EmptyString.
Proof.
  induction r as [|c r IH]; simpl; [done|].
  intros [[Hc Hr]%andb_true_iff|Hr]%orb_true_iff.
  - apply bool_decide_eq_true in Hc as ->. apply truthy_true in Hr.
    by exists EmptyString, r.
  - destruct (IH Hr) as (a & b & -> & Hb). by exists (String c a), b.
Qed.

Lemma dotInside_app a b :
  b ≠ EmptyString → dotInside (a +:+ "." +:+ b) = true.
Proof.
  intros Hb. induction a as [|c a IH].
  - change (dotInside (String "." b) = true). simpl.
    apply truthy_true in Hb. by rewrite Hb.
  - rewrite append_cons. simpl. rewrite IH. apply orb_true_r.
Qed.

(** The hand-written matcher accepts exactly the language of the
    regular expression. *)
Lemma looksLikeId_shaped target :
  looksLikeId target = true ↔ addressShaped target.
Proof.
  split.
  - destruct target as [|c r]; simpl; [done|].
    intros [Hc Hr]%andb_true_iff.
    destruct (afterLocal_split r Hr) as (l & d & -> & Hl & Hd).
    unfold domainLike in Hd. apply andb_true_iff in Hd as [Hall Hdot].
    destruct d as [|c1 d]; [done|].
    destruct (dotInside_split d Hdot) as (a & b & -> & Hb).
    exists (String c l), (String c1 a), b.
    split; [done|]. split; [done|]. split; [done|]. split; [done|].
    split; [simpl; by rewrite Hc, Hl|].
    change (String c1 (a +:+ "." +:+ b)) with (String c1 a +:+ "." +:+ b) in Hall.
    rewrite allChars_app in Hall. apply andb_true_iff in Hall as [H1 H2].
    split; [done|].
    change ("." +:+ b) with (String "." b) in H2. simpl in H2.
    exact H2.
  - intros (l & d1 & d2 & -> & Hl & Hd1 & Hd2 & Hal & Ha1 & Ha2).
    destruct l as [|c l]; [done|]. rewrite append_cons. simpl in *.
    apply andb_true_iff in Hal as [Hc Hal]. rewrite Hc. simpl.
    rewrite afterLocal_app by done. unfold domainLike.
    rewrite allChars_app, Ha1.
    change ("." +:+ d2) with (String "." d2). simpl. rewrite Ha2. simpl.
    destruct d1 as [|c1 a]; [done|]. rewrite append_cons.
    by apply (dotInside_app a d2).
Qed.

Lemma addressShaped_solid target :
  addressShaped target →
  target ≠ EmptyString ∧ allChars (fun c => negb (Js.isSpace c)) target = true.
Proof.
  assert (Hweak : ∀ s, allChars addressChar s = true →
                       allChars (fun c => negb (Js.isSpace c)) s = true).
  { induction s as [|c s IH]; simpl; [done|]. unfold addressChar.
    intros [[-> _]%andb_true_iff Hs]%andb_true_iff. by apply IH. }
  intros (l & d1 & d2 & -> & Hl & _ & _ & Hal & Ha1 & Ha2).
  split; [by destruct l|].
  rewrite !allChars_app, (Hweak _ Hal), (Hweak _ Ha1), (Hweak _ Ha2).
  reflexivity.
Qed.

Lemma trimEnd_of_solid s :
  allChars (fun c => negb (Js.isSpace c)) s = true → Js.trimEnd s = s.
Proof.
  induction s as [|c s IH]; simpl; [done|].
  intros [Hc%negb_true_iff Hs]%andb_true_iff.
  rewrite (IH Hs), Hc. by destruct s.
Qed.

Lemma trim_of_solid s :
  allChars (fun c => negb (Js.isSpace c)) s = true → Js.trim s = s.
Proof.
  intros Hs. unfold Js.trim. rewrite trimStart_of_solid.
  - by apply trimEnd_of_solid.
  - destruct s as [|c s]; simpl in *; [done|].
    by apply andb_true_iff in Hs as [Hc%negb_true_iff _].
Qed.

(** X27. [resolveTarget] accepts a target exactly when it is given and,
    once trimmed, has the shape local@name.rest with three non-empty
    parts free of white space and of further @ signs; the accepted value
    is the trimmed input, and resolving it again accepts it unchanged. *)
Theorem resolveTarget_accepts_addresses (target : option string)
    (resolved : string) :
  (resolveTarget target = TargetOk resolved
   ↔ ∃ t, target = Some t ∧ resolved = Js.trim t ∧ addressShaped resolved)
  ∧ (resolveTarget target = TargetOk resolved →
     resolveTarget (Some resolved) = TargetOk resolved).
Proof.
  assert (Haccept : ∀ t, addressShaped (Js.trim t) →
                         resolveTarget (Some t) = TargetOk (Js.trim t)).
  { intros t Hshape. unfold resolveTarget. simpl.
    destruct (addressShaped_solid _ Hshape) as [Hne _].
    apply truthy_true in Hne. rewrite Hne. simpl.
    apply looksLikeId_shaped in Hshape. by rewrite Hshape. }
  assert (Hback : resolveTarget target = TargetOk resolved →
            ∃ t, target = Some t ∧ resolved = Js.trim t ∧ addressShaped resolved).
  { unfold resolveTarget. destruct target as [t|]; simpl; [|done].
    destruct (Js.truthy (Js.trim t)); simpl; [|done].
    destruct (looksLikeId (Js.trim t)) eqn:Hlooks; simpl; [|done].
    intros [= <-]. exists t. split; [done|]. split; [done|].
    by apply looksLikeId_shaped. }
  split; [split; [exact Hback|]|].
  - intros (t & -> & -> & Hshape). by apply Haccept.
  - intros (t & _ & _ & Hshape)%Hback.
    destruct (addressShaped_solid _ Hshape) as [_ Hsolid].
    rewrite <- (trim_of_solid resolved Hsolid) at 2.
    apply Haccept. by rewrite trim_of_solid.
Qed.

Lemma resolveTarget_accepts_addresses_witness :
  resolveTarget (Some "alice@example.com") = TargetOk "alice@example.com".
Proof.
  apply (resolveTarget_accepts_addresses (Some "  alice@example.com ")
           "alice@example.com").
  vm_compute. reflexivity.
Defined.

Lemma lowerChar_addressChar c : addressChar (Js.lowerChar c) = addressChar c.
Proof. by destruct c as [[] [] [] [] [] [] [] []]. Qed.

Lemma lowerChar_at c :
  bool_decide (Js.lowerChar c = "@"%char) = bool_decide (c = "@"%char).
Proof. by destruct c as [[] [] [] [] [] [] [] []]. Qed.

Lemma lowerChar_dot c :
  bool_decide (Js.lowerChar c = "."%char) = bool_decide (c = "."%char).
Proof. by destruct c as [[] [] [] [] [] [] [] []]. Qed.

Lemma toLowerCase_truthy s : Js.truthy (Js.toLowerCase s) = Js.truthy s.
Proof. by destruct s. Qed.

Lemma looksLikeId_toLowerCase target :
  looksLikeId (Js.toLowerCase target) = looksLikeId target.
Proof.
  assert (Hall : ∀ s, allChars addressChar (Js.toLowerCase s)
                      = allChars addressChar s).
  { induction s as [|c s IH]; simpl; [done|].
    by rewrite lowerChar_addressChar, IH. }
  assert (Hdot : ∀ s, dotInside (Js.toLowerCase s) = dotInside s).
  { induction s as [|c s IH]; simpl; [done|].
    by rewrite lowerChar_dot, toLowerCase_truthy, IH. }
  assert (Hdomain : ∀ s, domainLike (Js.toLowerCase s) = domainLike s).
  { intros s. unfold domainLike. rewrite Hall.
    destruct s as [|c s]; simpl; [done|]. by rewrite Hdot. }
  assert (Hafter : ∀ s, afterLocal (Js.toLowerCase s) = afterLocal s).
  { induction s as [|c s IH]; simpl; [done|].
    by rewrite lowerChar_at, lowerChar_space, Hdomain, IH. }
  destruct target as [|c r]; simpl; [done|].
  by rewrite lowerChar_addressChar, Hafter.
Qed.

(** X28. Normalising a target that [resolveTarget] accepts gives the
    lower-cased resolved address, and the normalised target resolves to
    itself; in general [normalizeTarget] does not change whether the
    trimmed target looks like an address. *)
Theorem normalizeTarget_keeps_resolution (target : string) :
  (∀ resolved,
     resolveTarget (Some target) = TargetOk resolved →
     normalizeTarget target = Js.toLowerCase resolved
     ∧ resolveTarget (Some (normalizeTarget target))
       = TargetOk (normalizeTarget target))
  ∧ looksLikeId (normalizeTarget target) = looksLikeId (Js.trim target).
Proof.
  assert (Hnorm : normalizeTarget target = Js.toLowerCase (Js.trim target)).
  { unfold normalizeTarget, normalizeEmailAddress. by rewrite toLowerCase_trim. }
  split.
  - intros resolved. unfold resolveTarget at 1. simpl.
    destruct (Js.truthy (Js.trim target)) eqn:Htruthy; simpl; [|done].
    destruct (looksLikeId (Js.trim target)) eqn:Hlooks; simpl; [|done].
    intros [= <-]. split; [exact Hnorm|].
    unfold resolveTarget. simpl.
    assert (Htrim : Js.trim (normalizeTarget target) = normalizeTarget target).
    { unfold normalizeTarget, normalizeEmailAddress. apply trim_idem. }
    rewrite Htrim, Hnorm, toLowerCase_truthy, Htruthy, looksLikeId_toLowerCase, Hlooks.
    reflexivity.
  - by rewrite Hnorm, looksLikeId_toLowerCase.
Qed.

Lemma normalizeTarget_keeps_resolution_witness :
  normalizeTarget " Alice@Example.COM " = "alice@example.com"
  ∧ resolveTarget (Some (normalizeTarget " Alice@Example.COM "))
    = TargetOk (normalizeTarget " Alice@Example.COM ").
Proof.
  destruct (normalizeTarget_keeps_resolution " Alice@Example.COM ") as [H _].
  destruct (H "Alice@Example.COM") as [Hn Hr].
  - vm_compute. reflexivity.
  - split; [|exact Hr]. etrans; [exact Hn|]. vm_compute. reflexivity.
Defined.
